(** * VIDEO-TO-GIF-CONVERTER: segment planning, frame sampling and GIF assembly

    A shallow embedding of the algorithmic core of the converter:

    - [timeline_widget.py]: [merge_overlapping_segments] and
      [TimelineWidget.get_effective_segments]; the handlers of the widget
      (sliders, selection of a segment to exclude, reset) as a state machine,
      and the effective duration of [update_time_labels];
    - [video_processor.py]: [VideoProcessor.create_gif],
      [VideoProcessor.generate_preview] and [VideoProcessor.get_thumbnails];
      the fallback [VideoFileClip] with its [write_gif];
    - [preview_widget.py]: the crop rectangle of [_update_display] and the
      playback of [play_preview] and [show_next_preview_frame];
    - [main.py]: the encoder call of [MainWindow.save_file], the preview
      handler [MainWindow.generate_preview], the recent files and the
      presets.

    Times, rates and factors are Python floats in the source.  They are
    modelled by the rationals [Q]: comparisons, [max] and [min] are exact on
    floats, and Python's [==] on numbers is [Qeq] here.  The frame counts of
    [create_gif], the quantizer and the fuzz, integers the program hands out,
    are computed with the rounding of double precision ([Py.fmul], [Py.fdiv],
    [Py.fsub]); other products and quotients are taken exactly, which
    idealises the rounding of float arithmetic.  [int(x)] is truncation
    toward zero. *)

From Stdlib Require Import QArith Qround Qminmax Qabs Qpower Lqa ZArith Lia List
  Bool.
From Stdlib Require Import Permutation Sorted.
From Stdlib Require String.
Import ListNotations.

Open Scope Q_scope.

(** ** Python numbers *)

Module Py.

(** [a < b] on floats. *)
Definition Qltb (a b : Q) : bool := negb (Qle_bool b a).

(** [max(a, b)]: the first argument unless the second is strictly greater. *)
Definition max (a b : Q) : Q := if Qltb a b then b else a.

(** [min(a, b)]: the first argument unless the second is strictly smaller. *)
Definition min (a b : Q) : Q := if Qltb b a then b else a.

(** [int(x)]: truncation toward zero. *)
Definition int (x : Q) : Z := Z.quot (Qnum x) (Zpos (Qden x)).

(** *** Double precision

    A Python float is a binary64 number.  Where the value of an expression
    decides an integer the program hands out (a frame count, a quantizer), the
    expression is evaluated as Python does: each of [*], [/], [+] and [-]
    gives the float nearest to the exact result, a tie going to the float with
    an even significand.  A rational that is not a float stands for the float
    nearest to it, as a literal does, so the operations round their operands
    first, which changes nothing when they are floats already.  Overflow and
    underflow (magnitudes from 2^1024 or below 2^-1022) are not modelled. *)

(** [2^e] *)
Definition pow2 (e : Z) : Q := 2 ^ e.

(** The nearest integer, a tie to the even one. *)
Definition nearest_even (x : Q) : Z :=
  let f := Qfloor x in
  let r := x - inject_Z f in
  if Qltb r (1 # 2) then f
  else if Qltb (1 # 2) r then (f + 1)%Z
  else if Z.even f then f else (f + 1)%Z.

(** The exponent [e] of the unit in the last place of [x <> 0]:
    [2^52 <= |x| / 2^e < 2^53]. *)
Definition ulp_exponent (x : Q) : Z :=
  let e := (Z.log2 (Z.abs (Qnum x)) - Z.log2 (Zpos (Qden x)) - 52)%Z in
  if Qle_bool (pow2 (e + 52)) (Qabs x) then e else (e - 1)%Z.

(** The float nearest to [x]. *)
Definition fl (x : Q) : Q :=
  if Qeq_bool x 0 then 0
  else
    let e := ulp_exponent x in
    inject_Z (nearest_even (x / pow2 e)) * pow2 e.

(** The largest relative error of a rounding, [2^-53]. *)
Definition eps : Q := 1 # 9007199254740992.

(** [a * b], [a / b], [a + b] and [a - b] on floats. *)
Definition fmul (a b : Q) : Q := fl (fl a * fl b).
Definition fdiv (a b : Q) : Q := fl (fl a / fl b).
Definition fadd (a b : Q) : Q := fl (fl a + fl b).
Definition fsub (a b : Q) : Q := fl (fl a - fl b).

(** [range(n)] as a list of integers. *)
Definition range (n : Z) : list Z := map Z.of_nat (seq 0 (Z.to_nat n)).

(** [l[-1]] when the list is not empty. *)
Fixpoint last_item {A} (l : list A) : option A :=
  match l with
  | [] => None
  | [x] => Some x
  | _ :: l' => last_item l'
  end.

End Py.

(** ** timeline_widget.py *)

(** A time range is a [(start, end)] tuple. *)
Definition Segment : Type := (Q * Q)%type.

(** Python's [<] on two-element tuples: the first component that differs
    (by [==]) decides. *)
Definition tuple_ltb (a b : Segment) : bool :=
  if negb (Qeq_bool (fst a) (fst b)) then Py.Qltb (fst a) (fst b)
  else if negb (Qeq_bool (snd a) (snd b)) then Py.Qltb (snd a) (snd b)
  else false.

(** [sorted(segments)].  Python's sort is stable and [tuple_ltb] is a strict
    weak order, so the result is the one of any stable sort; insertion keeps
    an element in front of the later elements it is not greater than. *)
Fixpoint insert_sorted (x : Segment) (l : list Segment) : list Segment :=
  match l with
  | [] => [x]
  | y :: l' => if tuple_ltb y x then y :: insert_sorted x l' else x :: y :: l'
  end.

Fixpoint sorted (l : list Segment) : list Segment :=
  match l with
  | [] => []
  | x :: l' => insert_sorted x (sorted l')
  end.

(** One turn of the loop of [merge_overlapping_segments]. *)
Definition merge_step (merged : list Segment) (current : Segment) : list Segment :=
  match Py.last_item merged with
  | None => merged ++ [current]
  | Some previous =>
      if Qle_bool (fst current) (snd previous)
      then removelast merged ++ [(fst previous, Py.max (snd previous) (snd current))]
      else merged ++ [current]
  end.

Definition merge_overlapping_segments (segments : list Segment) : list Segment :=
  match segments with
  | [] => []
  | _ =>
      match sorted segments with
      | [] => []
      | first :: rest => fold_left merge_step rest [first]
      end
  end.

(** The fields of [TimelineWidget] read by [get_effective_segments]. *)
Record TimelineWidget : Type := mkTimeline {
  start_time : Q;
  end_time : Q;
  excluded_segments : list Segment
}.

(** One turn of the loop of [get_effective_segments]; the state is
    [(effective_segments, current_start)]. *)
Definition effective_step (w : TimelineWidget)
    (state : list Segment * Q) (exclusion : Segment) : list Segment * Q :=
  let '(effective_segments, current_start) := state in
  let '(exclusion_start, exclusion_end) := exclusion in
  if Qle_bool exclusion_end (start_time w) || Qle_bool (end_time w) exclusion_start
  then state
  else
    let exclusion_start := Py.max exclusion_start (start_time w) in
    let exclusion_end := Py.min exclusion_end (end_time w) in
    let effective_segments :=
      if Py.Qltb current_start exclusion_start
      then effective_segments ++ [(current_start, exclusion_start)]
      else effective_segments in
    (effective_segments, exclusion_end).

Definition get_effective_segments (w : TimelineWidget) : list Segment :=
  match excluded_segments w with
  | [] => [(start_time w, end_time w)]
  | _ =>
      let sorted_exclusions := sorted (excluded_segments w) in
      let '(effective_segments, current_start) :=
        fold_left (effective_step w) sorted_exclusions ([], start_time w) in
      if Py.Qltb current_start (end_time w)
      then effective_segments ++ [(current_start, end_time w)]
      else effective_segments
  end.

(** [add_excluded_segment] once the dialog is confirmed: append, then merge. *)
Definition add_excluded_segment (w : TimelineWidget) (s e : Q) : TimelineWidget :=
  mkTimeline (start_time w) (end_time w)
    (merge_overlapping_segments (excluded_segments w ++ [(s, e)])).

(** ** The segment planner as the specification words it

    The second definition of the interval subtraction, written from the
    specification of the planner, to be compared with the code above.  The
    specification only asks for the exclusions to be sorted by start, so the
    sort is an argument. *)

Module PlannerSpec.

Definition overlaps (primary excl : Segment) : bool :=
  Py.Qltb (fst primary) (snd excl) && Py.Qltb (fst excl) (snd primary).

Definition clip (primary excl : Segment) : Segment :=
  (Qmax (fst excl) (fst primary), Qmin (snd excl) (snd primary)).

(** [(a, b)] when it has positive length, nothing otherwise. *)
Definition emit (a b : Q) : list Segment :=
  if Py.Qltb a b then [(a, b)] else [].

Fixpoint walk (primary : Segment) (cursor : Q) (excluded : list Segment)
  : list Segment :=
  match excluded with
  | [] => emit cursor (snd primary)
  | excl :: rest =>
      if overlaps primary excl
      then emit cursor (fst (clip primary excl))
             ++ walk primary (snd (clip primary excl)) rest
      else walk primary cursor rest
  end.

Definition effectiveSegments (sort_by_start : list Segment -> list Segment)
    (primary : Segment) (excluded : list Segment) : list Segment :=
  match excluded with
  | [] => [primary]
  | _ => walk primary (fst primary) (sort_by_start excluded)
  end.

(** What "sorted by start" asks of a sort. *)
Definition sorts_by_start (srt : list Segment -> list Segment) : Prop :=
  forall l, Permutation (srt l) l
            /\ StronglySorted (fun a b => fst a <= fst b) (srt l).

End PlannerSpec.


(** The order [sorted] produces: [a] is not after [b]. *)
Definition tuple_le (a b : Segment) : Prop :=
  fst a < fst b \/ (fst a == fst b /\ snd a <= snd b).

(** The loop of [merge_overlapping_segments] by recursion on what is left to
    read, [previous] being [merged[-1]]. *)
Fixpoint merge_from (previous : Segment) (rest : list Segment) : list Segment :=
  match rest with
  | [] => [previous]
  | current :: rest' =>
      if Qle_bool (fst current) (snd previous)
      then merge_from (fst previous, Py.max (snd previous) (snd current)) rest'
      else previous :: merge_from current rest'
  end.

(** The instant [t] lies in one of the ranges (ends included). *)
Definition covered (t : Q) (l : list Segment) : Prop :=
  exists r, In r l /\ fst r <= t /\ t <= snd r.

(** Each range ends strictly before every later one starts. *)
Definition separated (l : list Segment) : Prop :=
  StronglySorted (fun a b => snd a < fst b) l.

(** Starts in non-decreasing order. *)
Definition starts_sorted (l : list Segment) : Prop :=
  StronglySorted (fun a b => fst a <= fst b) l.

(** Ends in non-decreasing order: no range ends before an earlier one does. *)
Definition ends_sorted (l : list Segment) : Prop :=
  StronglySorted (fun a b => snd a <= snd b) l.

(** Python's [==] on two tuples, then on two lists of tuples. *)
Definition seg_eq (a b : Segment) : Prop := fst a == fst b /\ snd a == snd b.

Definition segs_eq (l1 l2 : list Segment) : Prop := Forall2 seg_eq l1 l2.

(** What is known of [merged[-1]] against the ranges still to read: it is
    in tuple order before them, or it is a proper range starting no later. *)
Definition acc_le (p r : Segment) : Prop :=
  tuple_le p r \/ (fst p <= snd p /\ fst p <= fst r).

(** ** video_processor.py: frames, collaborators and effects *)

(** A decoded frame: a numpy array of shape [(height, width, channels)];
    the pixel content is kept as an opaque token. *)
Record Frame : Type := mkFrame {
  height : nat;
  width : nat;
  channels : nat;
  pixels : nat
}.

Definition Shape : Type := (nat * nat * nat)%type.

(** [frame.shape] *)
Definition shape (f : Frame) : Shape := (height f, width f, channels f).

Definition shape_eqb (a b : Shape) : bool :=
  let '(h1, w1, c1) := a in
  let '(h2, w2, c2) := b in
  Nat.eqb h1 h2 && Nat.eqb w1 w2 && Nat.eqb c1 c2.

(** What the program hands to the outside, in the order it does. *)
Inductive Event : Type :=
| Progress (percent : Z)
    (* progress_callback(percent) *)
| Mimsave (frames : list Frame) (fps : Q) (quantizer : Z) (loop : Z)
    (* imageio.mimsave(path, frames, fps=, quantizer=, loop=) *)
| WriteGifOptimized (fps : Q) (fuzz : Z) (loop : Z)
    (* clip.write_gif(path, fps=, opt="OptimizePlus", fuzz=, loop=) *)
| WriteGifFfmpeg (fps : Q) (loop : Z).
    (* clip.write_gif(path, fps=, program='ffmpeg', loop=) *)

(** The exceptions the code tells apart: [except (TypeError, AttributeError)]
    against [except Exception]. *)
Inductive Exn : Type :=
| TypeOrAttributeError
| OtherException.

(** A clip as [create_gif] uses it: [clip.duration] and
    [clip.get_frame(t)], [None] standing for a raised exception. *)
Record Clip : Type := mkClip {
  clip_duration : Q;
  clip_get_frame : Q -> option Frame
}.

(** [VideoFileClip(path).subclip(start, end)], then [.crop(x1, y1, x2, y2)],
    [.resize(height=, width=)] and [.set_fps(fps)] as the code chains them;
    nothing is reported between these calls, so they are one request. *)
Record ClipRequest : Type := mkRequest {
  req_start : Q;
  req_end : Q;
  req_crop : option (nat * nat * nat * nat);
  req_resize : option (nat * nat);
  req_fps : Q
}.

Inductive WriteOutcome : Type :=
| Written
| WriteRaises (e : Exn).

(** The decode and encode collaborators. *)
Record Collaborators : Type := mkCollaborators {
  (* the clip for a request, None when building it raises *)
  open_clip : ClipRequest -> option Clip;
  (* cv2.resize(frame, (w, h)), None when it raises *)
  cv2_resize : Frame -> nat -> nat -> option Frame;
  (* whether imageio.mimsave returns (true) or raises (false) *)
  mimsave_returns : list Frame -> Q -> Z -> Z -> bool;
  (* clip.write_gif(...) for the event that describes its arguments *)
  write_gif : Clip -> Event -> WriteOutcome;
  (* self.cap.read() after seeking to a frame number, converted to RGB;
     None when the read fails *)
  cap_read : Z -> option Frame
}.

(** The fields of [VideoProcessor] the two methods read. *)
Record VideoProcessor : Type := mkProcessor {
  cap_opened : bool;          (* self.cap and self.cap.isOpened() *)
  video_path_exists : bool;   (* os.path.exists(self.video_path) *)
  source_fps : Q;             (* self.fps *)
  source_width : nat;         (* self.width *)
  source_height : nat         (* self.height *)
}.

(** *** Effects: a trace of events and a result or an exception *)

Definition Run (A : Type) : Type := (list Event * (Exn + A))%type.

Definition ret {A} (a : A) : Run A := ([], inr a).

Definition raise {A} (e : Exn) : Run A := ([], inl e).

Definition bind {A B} (m : Run A) (f : A -> Run B) : Run B :=
  match m with
  | (t, inl e) => (t, inl e)
  | (t, inr a) => let '(t', r) := f a in (t ++ t', r)
  end.

(** [try: m except <any>: h e] *)
Definition try_except {A} (m : Run A) (h : Exn -> Run A) : Run A :=
  match m with
  | (t, inl e) => let '(t', r) := h e in (t ++ t', r)
  | (t, inr a) => (t, inr a)
  end.

Definition emit (e : Event) : Run unit := ([e], inr tt).

Declare Scope run_scope.
Delimit Scope run_scope with run.
Notation "x <- c1 ;; c2" := (bind c1 (fun x => c2))
  (at level 61, c1 at next level, right associativity) : run_scope.
Notation "c1 ;; c2" := (bind c1 (fun _ => c2))
  (at level 61, right associativity) : run_scope.
Open Scope run_scope.

(** [if progress_callback: progress_callback(percent)] *)
Definition report (progress_callback : bool) (percent : Z) : Run unit :=
  if progress_callback then emit (Progress percent) else ret tt.

(** A [for] loop threading the value the body updates. *)
Fixpoint for_each {A B} (body : B -> A -> Run B) (l : list A) (b : B) : Run B :=
  match l with
  | [] => ret b
  | a :: l' => b' <- body b a ;; for_each body l' b'
  end.

(** A list comprehension whose element expression may raise. *)
Fixpoint map_or_raise {A B} (f : A -> option B) (l : list A) : Run (list B) :=
  match l with
  | [] => ret []
  | a :: l' =>
      match f a with
      | None => raise OtherException
      | Some b => bs <- map_or_raise f l' ;; ret (b :: bs)
      end
  end.

(** [enumerate(l)] *)
Definition enumerate {A} (l : list A) : list (Z * A) :=
  combine (map Z.of_nat (seq 0 (length l))) l.

(** The arguments of [create_gif]; [segments=None] is the empty list, the
    two being told apart by no test of the code. *)
Record GifArgs : Type := mkGifArgs {
  arg_start_time : Q;
  arg_end_time : Q;
  arg_fps : Q;
  arg_dimensions : nat * nat;                 (* (width, height) *)
  arg_quality : Q;
  arg_crop_rect : option (nat * nat * nat * nat);  (* (x, y, w, h) *)
  arg_loop : bool;
  arg_progress_callback : bool;               (* whether one is given *)
  arg_segments : list Segment;
  arg_speed_factor : Q
}.

(** *** Frame sampling *)

(** [int(seg_duration * fps / speed_factor)], in double precision. *)
Definition frame_count (seg_duration fps speed_factor : Q) : Z :=
  Py.int (Py.fdiv (Py.fmul seg_duration fps) speed_factor).

(** The same where the division is run: dividing by zero raises. *)
Definition compute_frame_count (seg_duration fps speed_factor : Q) : Run Z :=
  if Qeq_bool speed_factor 0 then raise OtherException
  else ret (frame_count seg_duration fps speed_factor).

(** [time_step = seg_duration / frame_count] *)
Definition time_step (seg_duration : Q) (frame_count : Z) : Q :=
  seg_duration / inject_Z frame_count.

(** The pairs [(f, frame_time)] for which the body of
    [for f in range(frame_count)] reaches [clip.get_frame(frame_time)]:
    nothing unless [frame_count > 0], and only times within the segment. *)
Definition sample_times (seg_duration : Q) (frame_count : Z) : list (Z * Q) :=
  if (0 <? frame_count)%Z then
    filter (fun ft => Qle_bool (snd ft) seg_duration)
      (map (fun f => (f, inject_Z f * time_step seg_duration frame_count))
         (Py.range frame_count))
  else [].

(** [loop_param = 0 if loop else 1] *)
Definition loop_param (loop : bool) : Z := if loop then 0%Z else 1%Z.

(** [int(100-quality*100)], in double precision. *)
Definition quantizer_of (quality : Q) : Z :=
  Py.int (Py.fsub 100 (Py.fmul quality 100)).

(** [int((1-quality)*100)], in double precision. *)
Definition fuzz_of (quality : Q) : Z :=
  Py.int (Py.fmul (Py.fsub 1 quality) 100).

(** [imageio.mimsave(output_path, frames, fps=fps,
    quantizer=int(100-quality*100), loop=loop_param)] *)
Definition mimsave (C : Collaborators) (frames : list Frame) (fps quality : Q)
    (loop : bool) : Run unit :=
  emit (Mimsave frames fps (quantizer_of quality) (loop_param loop)) ;;
  if mimsave_returns C frames fps (quantizer_of quality) (loop_param loop)
  then ret tt else raise OtherException.

(** A call of [clip.write_gif] *)
Definition call_write_gif (C : Collaborators) (clip : Clip) (call : Event)
  : Run unit :=
  emit call ;;
  match write_gif C clip call with
  | Written => ret tt
  | WriteRaises e => raise e
  end.

(** The clip a path of [create_gif] builds, or the exception. *)
Definition make_clip (C : Collaborators) (r : ClipRequest) : Run Clip :=
  match open_clip C r with
  | Some clip => ret clip
  | None => raise OtherException
  end.

(** [x, y, w, h = crop_rect; clip.crop(x1=x, y1=y, x2=x+w, y2=y+h)] *)
Definition crop_corners (crop_rect : option (nat * nat * nat * nat))
  : option (nat * nat * nat * nat) :=
  match crop_rect with
  | Some (x, y, w, h) => Some (x, y, x + w, y + h)%nat
  | None => None
  end.

(** The pass both assembling paths run before encoding: frames of the
    first frame's shape are kept, the others resized to its width and height,
    and dropped when the resize raises. *)
Definition compatible_frames (C : Collaborators) (frames : list Frame)
  : list Frame :=
  match frames with
  | [] => []
  | first :: _ =>
      flat_map
        (fun frame =>
           if shape_eqb (shape frame) (shape first) then [frame]
           else match cv2_resize C frame (width first) (height first) with
                | Some resized => [resized]
                | None => []
                end)
        frames
  end.

(** ** [VideoProcessor.create_gif] *)

Section CreateGif.

Variable C : Collaborators.
Variable self : VideoProcessor.
Variable a : GifArgs.

Let fps := arg_fps a.
Let quality := arg_quality a.
Let loop := arg_loop a.
Let progress_callback := arg_progress_callback a.
Let speed_factor := arg_speed_factor a.
Let target_width := fst (arg_dimensions a).
Let target_height := snd (arg_dimensions a).

(** *** The path taken when segments are given *)

(** The body of [for f in range(frame_count)] for segment [i] of [n], at a
    sampled time; a frame that cannot be read or resized is skipped. *)
Definition segment_frame (clip : Clip) (i n count : Z)
    (segment_frames : list Frame) (ft : Z * Q) : Run (list Frame) :=
  let '(f, frame_time) := ft in
  match clip_get_frame clip frame_time with
  | None => ret segment_frames
  | Some frame =>
      match
        (if negb (Nat.eqb (height frame) target_height)
            || negb (Nat.eqb (width frame) target_width)
         then cv2_resize C frame target_width target_height
         else Some frame)
      with
      | None => ret segment_frames
      | Some frame =>
          report (progress_callback && (f mod 5 =? 0)%Z)
            (Z.min 89
               (Py.int (40 + (inject_Z i / inject_Z n
                              + (inject_Z f / inject_Z count) / inject_Z n)
                             * 50))) ;;
          ret (segment_frames ++ [frame])
      end
  end.

(** The frames of one segment, as read. *)
Definition extract_segment (clip : Clip) (i n : Z) : Run (list Frame) :=
  let seg_duration := clip_duration clip in
  count <- compute_frame_count seg_duration fps speed_factor ;;
  for_each (segment_frame clip i n count) (sample_times seg_duration count) [].

(** "Check segment frames before adding": the frames of the shape of the
    segment's first frame, resized to the shape of [all_frames[0]] when it
    differs, are appended to [all_frames]. *)
Definition add_segment_frames (all_frames segment_frames : list Frame)
  : Run (list Frame) :=
  match segment_frames with
  | [] => ret all_frames
  | first_frame :: _ =>
      let segment_frames :=
        filter (fun frame => shape_eqb (shape frame) (shape first_frame))
          segment_frames in
      match segment_frames with
      | [] => ret all_frames
      | new_first :: _ =>
          segment_frames <-
            match all_frames with
            | existing :: _ =>
                if negb (shape_eqb (shape new_first) (shape existing))
                then map_or_raise
                       (fun frame =>
                          cv2_resize C frame (width existing) (height existing))
                       segment_frames
                else ret segment_frames
            | [] => ret segment_frames
            end ;;
          ret (all_frames ++ segment_frames)
      end
  end.

(** The body of [for i, (seg_start, seg_end) in enumerate(segments)]. *)
Definition process_segment (n : Z) (all_frames : list Frame)
    (indexed : Z * Segment) : Run (list Frame) :=
  let '(i, (seg_start, seg_end)) := indexed in
  report progress_callback (Py.int (inject_Z i / inject_Z n * 40)) ;;
  clip <- make_clip C
            (mkRequest seg_start seg_end (crop_corners (arg_crop_rect a))
               (Some (target_width, target_height)) fps) ;;
  segment_frames <- extract_segment clip i n ;;
  add_segment_frames all_frames segment_frames.

(** The loop over the segments: [all_frames] when it ends. *)
Definition collect_segments (segments : list Segment) : Run (list Frame) :=
  for_each (process_segment (Z.of_nat (length segments)))
    (enumerate segments) [].

(** What follows the loop: nothing to encode is a failure; otherwise the
    frames are made compatible and written. *)
Definition encode_segments (all_frames : list Frame) : Run bool :=
  match all_frames with
  | [] => ret false
  | _ =>
      match compatible_frames C all_frames with
      | [] => ret false
      | all_frames =>
          report progress_callback 90 ;;
          mimsave C all_frames fps quality loop ;;
          report progress_callback 100 ;;
          ret true
      end
  end.

Definition create_gif_segments (segments : list Segment) : Run bool :=
  try_except
    (all_frames <- collect_segments segments ;; encode_segments all_frames)
    (fun _ => ret false).

(** *** The path of a single range *)

(** The body of the sampling loop when [speed_factor != 1.0]. *)
Definition speed_frame (clip : Clip) (correct_shape : Shape) (count : Z)
    (frames : list Frame) (ft : Z * Q) : Run (list Frame) :=
  let '(f, frame_time) := ft in
  match clip_get_frame clip frame_time with
  | None => ret frames
  | Some frame =>
      match
        (if negb (shape_eqb (shape frame) correct_shape)
         then cv2_resize C frame (snd (fst correct_shape))
                (fst (fst correct_shape))
         else Some frame)
      with
      | None => ret frames
      | Some frame =>
          report (progress_callback && (f mod 5 =? 0)%Z)
            (Z.min 89
               (Py.int (30 + inject_Z f / inject_Z count * 60))) ;;
          ret (frames ++ [frame])
      end
  end.

(** The frames the block under [if speed_factor != 1.0] reads. *)
Definition extract_with_speed (clip : Clip) (seg_duration : Q)
  : Run (list Frame) :=
  sample_frame <-
    match clip_get_frame clip 0 with
    | Some frame => ret frame
    | None => raise OtherException
    end ;;
  let correct_shape := shape sample_frame in
  count <- compute_frame_count seg_duration fps speed_factor ;;
  for_each (speed_frame clip correct_shape count)
    (sample_times seg_duration count) [].

(** The block under [if speed_factor != 1.0]: [true] when it has written
    the GIF and returned, [false] when control falls through to the standard
    methods. *)
Definition speed_branch (clip : Clip) (seg_duration : Q) : Run bool :=
  frames <- extract_with_speed clip seg_duration ;;
  match frames with
  | [] => ret false
  | _ =>
      match compatible_frames C frames with
      | [] => ret false
      | frames =>
          report progress_callback 80 ;;
          mimsave C frames fps quality loop ;;
          report progress_callback 100 ;;
          ret true
      end
  end.

(** The body of [for t in range(int(clip.duration * fps))] of the last
    resort, the count in double precision; here a frame that cannot be read
    makes the whole attempt fail. *)
Definition direct_frame (clip : Clip) (frames : list Frame) (t : Z)
  : Run (list Frame) :=
  let frame_time := inject_Z t / fps * speed_factor in
  if Qle_bool frame_time (clip_duration clip) then
    match clip_get_frame clip frame_time with
    | None => raise OtherException
    | Some frame =>
        report (progress_callback && (t mod 5 =? 0)%Z)
          (Z.min 89
             (Py.int (30 + inject_Z t / (clip_duration clip * fps) * 60))) ;;
        ret (frames ++ [frame])
    end
  else ret frames.

(** "Trying direct imageio method": [true] when written, [false] for the
    [return False] of the code. *)
Definition direct_imageio (clip : Clip) : Run bool :=
  try_except
    (frames <- for_each (direct_frame clip)
                 (Py.range (Py.int (Py.fmul (clip_duration clip) fps))) [] ;;
     match frames with
     | [] => ret false
     | _ =>
         mimsave C frames fps quality loop ;;
         report progress_callback 90 ;;
         ret true
     end)
    (fun _ => ret false).

(** The standard methods: the optimised [write_gif], on a [TypeError] or
    [AttributeError] the [ffmpeg] one, on any exception of that one the
    direct [imageio] method; then 100 percent and [True]. *)
Definition standard_methods (clip : Clip) : Run bool :=
  report progress_callback 30 ;;
  written <-
    try_except
      (call_write_gif C clip
         (WriteGifOptimized fps (fuzz_of quality) (loop_param loop)) ;;
       report progress_callback 90 ;;
       ret true)
      (fun e =>
         match e with
         | TypeOrAttributeError =>
             try_except
               (call_write_gif C clip (WriteGifFfmpeg fps (loop_param loop)) ;;
                report progress_callback 90 ;;
                ret true)
               (fun _ => direct_imageio clip)
         | OtherException => raise OtherException
         end) ;;
  if written : bool then report progress_callback 100 ;; ret true
  else ret false.

Definition create_gif_single : Run bool :=
  clip <- make_clip C
            (mkRequest (arg_start_time a) (arg_end_time a)
               (crop_corners (arg_crop_rect a))
               (if negb (Nat.eqb target_width (source_width self))
                   || negb (Nat.eqb target_height (source_height self))
                then Some (target_width, target_height) else None)
               fps) ;;
  let seg_duration := clip_duration clip in
  returned <-
    (if negb (Qeq_bool speed_factor 1) then speed_branch clip seg_duration
     else ret false) ;;
  if returned : bool then ret true else standard_methods clip.

(** The whole method.  [VideoFileClip] is bound when the module is loaded,
    to the library class or to the fallback class, so the test
    [VideoFileClip is None] never holds. *)
Definition create_gif : Run bool :=
  if negb (cap_opened self) then ret false
  else
    try_except
      (if video_path_exists self then
         match arg_segments a with
         | _ :: _ => create_gif_segments (arg_segments a)
         | [] => create_gif_single
         end
       else ret false)
      (fun _ => ret false).

End CreateGif.

(** The values passed to the progress callback, in order. *)
Definition progress_values (trace : list Event) : list Z :=
  flat_map (fun e => match e with Progress p => [p] | _ => [] end) trace.

(** The encoder is not called in this trace. *)
Definition only_progress (trace : list Event) : Prop :=
  Forall (fun e => exists p, e = Progress p) trace.

Fixpoint non_decreasing (l : list Z) : bool :=
  match l with
  | x :: ((y :: _) as l') => (x <=? y)%Z && non_decreasing l'
  | _ => true
  end.

(** ** [VideoProcessor.generate_preview] and [MainWindow.save_file] *)

(** What [generate_preview] returns: the bare list of its first [return],
    or the tuple of its last. *)
Inductive PreviewValue : Type :=
| BareList (frames : list Frame)
| Pair (preview_frames : list Frame) (adjusted_fps : Q).

(** What [preview_frames, adjusted_fps = value] binds: the two components of
    a tuple, or the two items of a list of two; [None] is the [ValueError] of
    any other length. *)
Inductive Unpacked : Type :=
| UnpackedPair (preview_frames : list Frame) (adjusted_fps : Q)
| UnpackedItems (first second : Frame).

Definition unpack_two (v : PreviewValue) : option Unpacked :=
  match v with
  | Pair frames adjusted_fps => Some (UnpackedPair frames adjusted_fps)
  | BareList [first; second] => Some (UnpackedItems first second)
  | BareList _ => None
  end.

(** [frame[y:y+h, x:x+w]]: a slice stops at the bounds of the array. *)
Definition crop_frame (frame : Frame) (x y w h : nat) : Frame :=
  mkFrame (Nat.min (y + h) (height frame) - Nat.min y (height frame))
          (Nat.min (x + w) (width frame) - Nat.min x (width frame))
          (channels frame) (pixels frame).

(** [_apply_processing] on a frame that is not [None]. *)
Definition apply_processing (C : Collaborators) (frame : Frame)
    (dimensions : nat * nat) (crop_rect : option (nat * nat * nat * nat))
  : Exn + Frame :=
  let frame :=
    match crop_rect with
    | Some (x, y, w, h) => crop_frame frame x y w h
    | None => frame
    end in
  let '(target_width, target_height) := dimensions in
  if negb (Nat.eqb target_width (width frame))
     || negb (Nat.eqb target_height (height frame))
  then match cv2_resize C frame target_width target_height with
       | Some resized => inr resized
       | None => inl OtherException
       end
  else inr frame.

(** The arguments of [generate_preview]. *)
Record PreviewArgs : Type := mkPreviewArgs {
  pv_start_time : Q;
  pv_end_time : Q;
  pv_fps : Q;
  pv_dimensions : nat * nat;
  pv_quality : Q;
  pv_crop_rect : option (nat * nat * nat * nat);
  pv_segments : list Segment;
  pv_speed_factor : Q
}.

Section GeneratePreview.

Variable C : Collaborators.
Variable self : VideoProcessor.
Variable a : PreviewArgs.

(** [while current_frame < end_frame and frame_count < desired_frames]; the
    loop may run for ever, so it is given a number of turns, and [None] says
    they did not suffice. *)
Fixpoint preview_loop (turns : nat) (end_frame desired_frames : Z)
    (frame_step : Q) (current_frame : Q) (frame_count : Z)
    (preview_frames : list Frame) : option (Exn + list Frame) :=
  match turns with
  | O => None
  | S turns' =>
      if Py.Qltb current_frame (inject_Z end_frame)
         && (frame_count <? desired_frames)%Z
      then
        match cap_read C (Py.int current_frame) with
        | Some frame =>
            match apply_processing C frame (pv_dimensions a) (pv_crop_rect a) with
            | inl e => Some (inl e)
            | inr processed =>
                preview_loop turns' end_frame desired_frames frame_step
                  (current_frame + frame_step) (frame_count + 1)
                  (preview_frames ++ [processed])
            end
        | None =>
            preview_loop turns' end_frame desired_frames frame_step
              (current_frame + frame_step) frame_count preview_frames
        end
      else Some (inr preview_frames)
  end.

(** [(total_frames / desired_frames) * speed_factor if desired_frames > 0
    else 1] *)
Definition preview_frame_step (total_frames desired_frames : Z) : Q :=
  if (0 <? desired_frames)%Z
  then inject_Z total_frames / inject_Z desired_frames * pv_speed_factor a
  else 1.

(** The frames of one range, added to [preview_frames]; the code is the
    same for a segment and for the single range. *)
Definition preview_range (turns : nat) (range_start range_end : Q)
    (preview_frames : list Frame) : option (Exn + list Frame) :=
  let start_frame := Py.int (range_start * source_fps self) in
  let end_frame := Py.int (range_end * source_fps self) in
  let duration := range_end - range_start in
  let desired_frames := Py.int (duration * pv_fps a) in
  let total_frames := (end_frame - start_frame)%Z in
  preview_loop turns end_frame desired_frames
    (preview_frame_step total_frames desired_frames)
    (inject_Z start_frame) 0 preview_frames.

Fixpoint preview_segments (turns : nat) (segments : list Segment)
    (preview_frames : list Frame) : option (Exn + list Frame) :=
  match segments with
  | [] => Some (inr preview_frames)
  | (seg_start, seg_end) :: rest =>
      match preview_range turns seg_start seg_end preview_frames with
      | Some (inr preview_frames) => preview_segments turns rest preview_frames
      | other => other
      end
  end.

Definition generate_preview (turns : nat) : option (Exn + PreviewValue) :=
  if negb (cap_opened self) then Some (inr (BareList []))
  else
    let adjusted_fps := pv_fps a * pv_speed_factor a in
    match
      match pv_segments a with
      | _ :: _ => preview_segments turns (pv_segments a) []
      | [] => preview_range turns (pv_start_time a) (pv_end_time a) []
      end
    with
    | None => None
    | Some (inl e) => Some (inl e)
    | Some (inr preview_frames) => Some (inr (Pair preview_frames adjusted_fps))
    end.

End GeneratePreview.

(** What [save_file] reads from the window. *)
Record SaveInputs : Type := mkSaveInputs {
  current_file : bool;
  preview_frames_shown : list Frame;
  dialog_accepted : bool;
  fps_spin : Z;
  speed_slider : Z;
  quality_slider : Z;
  loop_checkbox : bool
}.

(** The encoder call of [save_file], when it is reached. *)
Definition save_file (s : SaveInputs) : list Event :=
  if negb (current_file s) then []
  else
    match preview_frames_shown s with
    | [] => []
    | frames =>
        if dialog_accepted s then
          let fps := inject_Z (fps_spin s) * (inject_Z (speed_slider s) / 100) in
          let quality := inject_Z (quality_slider s) / 100 in
          [Mimsave frames fps (quantizer_of quality) (loop_param (loop_checkbox s))]
        else []
    end.

(** ** Collaborators that behave: every frame decodes at the requested
    size, with three channels; resizing and writing succeed.  The clip of a
    request lasts from its start to its end, as a subclip of the library
    class does; the clips of the fallback class, which keep the duration of
    the file, are those of [fallback_backed]. *)

Definition steady_clip (r : ClipRequest) : Clip :=
  mkClip (req_end r - req_start r)
    (fun t =>
       let '(w, h) := match req_resize r with
                      | Some wh => wh
                      | None => (640, 360)%nat
                      end in
       Some (mkFrame h w 3 (Z.to_nat (Py.int (t * 1000))))).

Definition steady : Collaborators :=
  mkCollaborators
    (fun r => Some (steady_clip r))
    (fun frame w h => Some (mkFrame h w (channels frame) (pixels frame)))
    (fun _ _ _ _ => true)
    (fun _ _ => Written)
    (fun n => Some (mkFrame 360 640 3 (Z.to_nat n))).

Definition loaded : VideoProcessor := mkProcessor true true 30 640 360.

Definition not_loaded : VideoProcessor := mkProcessor false true 0 0 0.

(** Python's [round(x)]: to the nearest integer, a tie to the even one. *)
Definition py_round (x : Q) : Z :=
  let f := Qfloor x in
  let r := x - inject_Z f in
  if Py.Qltb r (1 # 2) then f
  else if Py.Qltb (1 # 2) r then (f + 1)%Z
  else if Z.even f then f else (f + 1)%Z.

(** ** Statements about runs *)

(** Every event of the run satisfies [P], and its result, when there is
    one, satisfies [Q]. *)
Definition run_sat {A} (P : Event -> Prop) (Q : A -> Prop) (m : Run A) : Prop :=
  Forall P (fst m) /\ (forall x, snd m = inr x -> Q x).

(** The calls [create_gif] may make with arguments [a]: any progress value;
    the encoder with frames that are not empty, the requested [fps], the
    quantizer [int(100-quality*100)] and the loop flag; [write_gif] with the
    requested [fps] and the loop flag. *)
Definition emitted_by (a : GifArgs) (e : Event) : Prop :=
  match e with
  | Progress _ => True
  | Mimsave frames fps quantizer loop =>
      frames <> [] /\ fps = arg_fps a
      /\ quantizer = quantizer_of (arg_quality a)
      /\ loop = loop_param (arg_loop a)
  | WriteGifOptimized fps fuzz loop =>
      fps = arg_fps a /\ fuzz = fuzz_of (arg_quality a)
      /\ loop = loop_param (arg_loop a)
  | WriteGifFfmpeg fps loop =>
      fps = arg_fps a /\ loop = loop_param (arg_loop a)
  end.

(** All frames have the shape of the first. *)
Definition uniform (frames : list Frame) : Prop :=
  match frames with
  | [] => True
  | first :: _ => Forall (fun frame => shape frame = shape first) frames
  end.

(** The frames handed to the encoder are uniform. *)
Definition encodes_uniform (e : Event) : Prop :=
  match e with
  | Mimsave frames _ _ _ => uniform frames
  | _ => True
  end.

(** [cv2.resize(frame, (w, h))], when it returns, returns an array of
    height [h], width [w] and the channels of [frame]. *)
Definition resize_contract (C : Collaborators) : Prop :=
  forall frame w h resized,
    cv2_resize C frame w h = Some resized ->
    height resized = h /\ width resized = w
    /\ channels resized = channels frame.

(** [clip.get_frame] returns RGB arrays: three channels. *)
Definition rgb_contract (C : Collaborators) : Prop :=
  forall r clip t frame,
    open_clip C r = Some clip -> clip_get_frame clip t = Some frame ->
    channels frame = 3%nat.

(** The frames of one clip all have the size of the clip. *)
Definition clip_size_contract (C : Collaborators) : Prop :=
  forall r clip t t' frame frame',
    open_clip C r = Some clip ->
    clip_get_frame clip t = Some frame ->
    clip_get_frame clip t' = Some frame' ->
    shape frame = shape frame'.

(** A run that returns [True] has 100 as its last event. *)
Definition ends_at_100 (m : Run bool) : Prop :=
  snd m = inr true -> exists t, fst m = t ++ [Progress 100].

(** ** Inputs used in the examples *)

(** Two segments of one second at 10 fps, speed 1, with a callback. *)
Definition two_segments : GifArgs :=
  mkGifArgs 0 2 10 (640, 360)%nat (9 # 10) None true true [(0, 1); (1, 2)] 1.

(** One range of 2.2 seconds at 10 fps, speed 2, with a callback. *)
Definition one_range_fast : GifArgs :=
  mkGifArgs 0 (22 # 10) 10 (640, 360)%nat (9 # 10) None true true [] 2.

(** One range of half a second at 10 fps, speed 2, no callback. *)
Definition short_range_fast : GifArgs :=
  mkGifArgs 0 (1 # 2) 10 (640, 360)%nat (9 # 10) None true false [] 2.

(** The same at quality 0.004, played once. *)
Definition short_range_low_quality : GifArgs :=
  mkGifArgs 0 (1 # 2) 10 (640, 360)%nat (4 # 1000) None false false [] 2.

(** Two segments too short to give a frame at 10 fps. *)
Definition degenerate_segments : GifArgs :=
  mkGifArgs 0 2 10 (640, 360)%nat (9 # 10) None true true
    [(0, 1 # 20); (1, 21 # 20)] 1.

(** A preview of one second at 4 fps, speed 2; and one of an empty range. *)
Definition preview_fast : PreviewArgs :=
  mkPreviewArgs 0 1 4 (640, 360)%nat (9 # 10) None [] 2.

Definition preview_empty_range : PreviewArgs :=
  mkPreviewArgs 1 1 4 (640, 360)%nat (9 # 10) None [] 2.

Definition window_saving : SaveInputs :=
  mkSaveInputs true [mkFrame 360 640 3 0] true 10 200 90 true.

(** ** timeline_widget.py: durations and what the pieces cover *)

(** A range whose end is not before its start. *)
Definition proper (r : Segment) : Prop := fst r <= snd r.

(** The instant [t] lies in one of the ranges, starts included and ends
    excluded. *)
Definition within (t : Q) (l : list Segment) : Prop :=
  exists r, In r l /\ fst r <= t /\ t < snd r.

(** The sum of the lengths of the ranges. *)
Definition total_length (l : list Segment) : Q :=
  fold_right (fun r acc => (snd r - fst r) + acc) 0 l.

(** [excluded_duration] as [update_time_labels] accumulates it: the overlap
    of each excluded segment with the selected range. *)
Definition excluded_duration (w : TimelineWidget) : Q :=
  fold_left
    (fun excluded_duration (segment : Segment) =>
       let '(s, e) := segment in
       if Py.Qltb (start_time w) e && Py.Qltb s (end_time w)
       then excluded_duration
            + (Py.min e (end_time w) - Py.max s (start_time w))
       else excluded_duration)
    (excluded_segments w) 0.

(** [effective_duration = trim_duration - excluded_duration], the value the
    duration label shows. *)
Definition effective_duration (w : TimelineWidget) : Q :=
  (end_time w - start_time w) - excluded_duration w.

(** The overlaps [update_time_labels] adds up, by recursion on the list. *)
Fixpoint overlap_sum (ps pe : Q) (l : list Segment) : Q :=
  match l with
  | [] => 0
  | e :: l' =>
      (if PlannerSpec.overlaps (ps, pe) e
       then Qmin (snd e) pe - Qmax (fst e) ps else 0)
      + overlap_sum ps pe l'
  end.

(** What the walk needs of the exclusions still to read: they are proper,
    each ends strictly before every later one starts, and none that overlaps
    the primary range starts (once clipped) before the cursor. *)
Definition ahead (ps pe cur : Q) (l : list Segment) : Prop :=
  Forall proper l /\ separated l
  /\ Forall (fun e => PlannerSpec.overlaps (ps, pe) e = true ->
                      cur <= Qmax (fst e) ps) l.

(** ** timeline_widget.py: the handlers of [TimelineWidget] *)

(** The widget with the other fields its handlers read and write. *)
Record Timeline : Type := mkTimelineState {
  tl_widget : TimelineWidget;           (* start_time, end_time, excluded_segments *)
  tl_duration : Q;                      (* self.duration *)
  tl_start_slider : Z;                  (* self.start_slider.value() *)
  tl_end_slider : Z;                    (* self.end_slider.value() *)
  tl_selecting_exclusion : bool;
  tl_temp_exclusion_start : option Q
}.

(** [QSlider.setValue] on a slider of range 0..1000 keeps the value in the
    range. *)
Definition slider_set (v : Z) : Z := Z.max 0 (Z.min 1000 v).

(** The widget as [__init__] leaves it. *)
Definition timeline_init : Timeline :=
  mkTimelineState (mkTimeline 0 0 []) 0 0 1000 false None.

Definition setup_timeline (st : Timeline) (duration : Q) : Timeline :=
  mkTimelineState (mkTimeline 0 duration []) duration 0 1000
    (tl_selecting_exclusion st) (tl_temp_exclusion_start st).

(** [update_start_trim]; [None] is the [ZeroDivisionError] of
    [new_start / self.duration]. *)
Definition update_start_trim (st : Timeline) : option Timeline :=
  let w := tl_widget st in
  let percent := inject_Z (tl_start_slider st) / 1000 in
  let new_start := percent * tl_duration st in
  if Qle_bool (end_time w) new_start then
    let new_start := end_time w - (1 # 10) in
    if Qeq_bool (tl_duration st) 0 then None
    else
      Some (mkTimelineState
              (mkTimeline new_start (end_time w) (excluded_segments w))
              (tl_duration st)
              (slider_set (Py.int (new_start / tl_duration st * 1000)))
              (tl_end_slider st)
              (tl_selecting_exclusion st) (tl_temp_exclusion_start st))
  else
    Some (mkTimelineState
            (mkTimeline new_start (end_time w) (excluded_segments w))
            (tl_duration st) (tl_start_slider st) (tl_end_slider st)
            (tl_selecting_exclusion st) (tl_temp_exclusion_start st)).

(** [update_end_trim] *)
Definition update_end_trim (st : Timeline) : option Timeline :=
  let w := tl_widget st in
  let percent := inject_Z (tl_end_slider st) / 1000 in
  let new_end := percent * tl_duration st in
  if Qle_bool new_end (start_time w) then
    let new_end := start_time w + (1 # 10) in
    if Qeq_bool (tl_duration st) 0 then None
    else
      Some (mkTimelineState
              (mkTimeline (start_time w) new_end (excluded_segments w))
              (tl_duration st) (tl_start_slider st)
              (slider_set (Py.int (new_end / tl_duration st * 1000)))
              (tl_selecting_exclusion st) (tl_temp_exclusion_start st))
  else
    Some (mkTimelineState
            (mkTimeline (start_time w) new_end (excluded_segments w))
            (tl_duration st) (tl_start_slider st) (tl_end_slider st)
            (tl_selecting_exclusion st) (tl_temp_exclusion_start st)).

Definition with_start_slider (st : Timeline) (v : Z) : Timeline :=
  mkTimelineState (tl_widget st) (tl_duration st) v (tl_end_slider st)
    (tl_selecting_exclusion st) (tl_temp_exclusion_start st).

Definition with_end_slider (st : Timeline) (v : Z) : Timeline :=
  mkTimelineState (tl_widget st) (tl_duration st) (tl_start_slider st) v
    (tl_selecting_exclusion st) (tl_temp_exclusion_start st).

Definition with_selection (st : Timeline) (selecting : bool)
    (temp : option Q) : Timeline :=
  mkTimelineState (tl_widget st) (tl_duration st) (tl_start_slider st)
    (tl_end_slider st) selecting temp.

Definition with_widget (st : Timeline) (w : TimelineWidget) : Timeline :=
  mkTimelineState w (tl_duration st) (tl_start_slider st) (tl_end_slider st)
    (tl_selecting_exclusion st) (tl_temp_exclusion_start st).

(** [start_segment_selection] and [exit_segment_selection_mode] *)
Definition start_segment_selection (st : Timeline) : Timeline :=
  with_selection st true None.

Definition exit_segment_selection_mode (st : Timeline) : Timeline :=
  with_selection st false None.

(** [(x_pos / self.thumbnail_strip.width()) * self.duration]; [None] is the
    [ZeroDivisionError] of a strip of width 0. *)
Definition time_at (st : Timeline) (x_pos strip_width : Z) : option Q :=
  if (strip_width =? 0)%Z then None
  else Some (inject_Z x_pos / inject_Z strip_width * tl_duration st).

(** [mousePressEvent] at abscissa [x] on a strip of the given width. *)
Definition mouse_press (st : Timeline) (x strip_width : Z) : option Timeline :=
  if negb (tl_selecting_exclusion st) then Some st
  else if negb ((0 <=? x)%Z && (x <=? strip_width)%Z) then Some st
  else
    match time_at st x strip_width with
    | None => None
    | Some time_pos => Some (with_selection st true (Some time_pos))
    end.

(** [mouseReleaseEvent]; [confirmed] is the answer to the dialog of
    [add_excluded_segment], asked only when the segment is long enough. *)
Definition mouse_release (st : Timeline) (x strip_width : Z) (confirmed : bool)
  : option Timeline :=
  match tl_selecting_exclusion st, tl_temp_exclusion_start st with
  | true, Some temp =>
      let x_pos := Z.max 0 (Z.min x strip_width) in
      match time_at st x_pos strip_width with
      | None => None
      | Some time_pos =>
          let start := Py.min temp time_pos in
          let stop := Py.max temp time_pos in
          let st :=
            if Py.Qltb (1 # 10) (stop - start) && confirmed
            then with_widget st (add_excluded_segment (tl_widget st) start stop)
            else st in
          Some (exit_segment_selection_mode st)
      end
  | _, _ => Some st
  end.

(** [reset_excluded_segments] *)
Definition reset_excluded_segments (st : Timeline) : Timeline :=
  with_widget st
    (mkTimeline (start_time (tl_widget st)) (end_time (tl_widget st)) []).

(** What can happen to the widget. *)
Inductive TimelineOp : Type :=
| SetupTimeline (duration : Q)
| MoveStartSlider (v : Z)
| MoveEndSlider (v : Z)
| StartSelection
| MousePress (x strip_width : Z)
| MouseRelease (x strip_width : Z) (confirmed : bool)
| ResetExcluded
| PressEscape.

Definition timeline_step (st : Timeline) (op : TimelineOp) : option Timeline :=
  match op with
  | SetupTimeline duration => Some (setup_timeline st duration)
  | MoveStartSlider v => update_start_trim (with_start_slider st v)
  | MoveEndSlider v => update_end_trim (with_end_slider st v)
  | StartSelection => Some (start_segment_selection st)
  | MousePress x strip_width => mouse_press st x strip_width
  | MouseRelease x strip_width confirmed =>
      mouse_release st x strip_width confirmed
  | ResetExcluded => Some (reset_excluded_segments st)
  | PressEscape =>
      Some (if tl_selecting_exclusion st
            then exit_segment_selection_mode st else st)
  end.

(** What the toolkit guarantees of an event: a slider value in its range, a
    strip that has a width, and a video of positive duration loaded while no
    selection is under way. *)
Definition event_ok (st : Timeline) (op : TimelineOp) : Prop :=
  match op with
  | SetupTimeline duration =>
      0 < duration /\ tl_temp_exclusion_start st = None
  | MoveStartSlider v | MoveEndSlider v => (0 <= v <= 1000)%Z
  | MousePress _ strip_width | MouseRelease _ strip_width _ =>
      (0 < strip_width)%Z
  | _ => True
  end.

(** What the handlers keep true once a video is set up: the trim range has
    positive length; the excluded segments lie in the video, are longer than
    a tenth of a second, and each ends strictly before the next starts; a
    selection under way started in the video. *)
Definition timeline_inv (st : Timeline) : Prop :=
  0 < tl_duration st
  /\ start_time (tl_widget st) < end_time (tl_widget st)
  /\ separated (excluded_segments (tl_widget st))
  /\ Forall (fun r => 0 <= fst r /\ fst r + (1 # 10) < snd r
                      /\ snd r <= tl_duration st)
       (excluded_segments (tl_widget st))
  /\ (forall t, tl_temp_exclusion_start st = Some t ->
                0 <= t /\ t <= tl_duration st).

(** A sequence of events, each handled in the state the previous ones left. *)
Fixpoint timeline_run (st : Timeline) (ops : list TimelineOp) : option Timeline :=
  match ops with
  | [] => Some st
  | op :: ops' =>
      match timeline_step st op with
      | Some st' => timeline_run st' ops'
      | None => None
      end
  end.

Fixpoint events_ok (st : Timeline) (ops : list TimelineOp) : Prop :=
  match ops with
  | [] => True
  | op :: ops' =>
      event_ok st op
      /\ match timeline_step st op with
         | Some st' => events_ok st' ops'
         | None => True
         end
  end.

(** A session at the widget: two selections (the second dragged leftwards
    over the first), then both sliders pushed past each other. *)
Definition session : list TimelineOp :=
  [StartSelection; MousePress 200 1000; MouseRelease 400 1000 true;
   StartSelection; MousePress 700 1000; MouseRelease 350 1000 true;
   MoveEndSlider 0; MoveStartSlider 900].


(** ** [ThumbnailStrip.paintEvent]: where things are drawn *)

(** The rectangle drawn for thumbnail [i] of [num_thumbnails] in the loop
    over [enumerate(self.thumbnails)], on a strip of the given width: its
    abscissa [int(i * thumb_width)] and its width [int(thumb_width)]. *)
Definition thumbnail_rect (strip_width : Z) (num_thumbnails : nat) (i : Z)
  : Z * Z :=
  let thumb_width := inject_Z strip_width / inject_Z (Z.of_nat num_thumbnails) in
  (Py.int (inject_Z i * thumb_width), Py.int thumb_width).

(** The shaded rectangle of an excluded segment: its abscissa [ex_start]
    and its width [ex_end - ex_start]. *)
Definition excluded_rect (duration : Q) (strip_width : Z) (segment : Segment)
  : Z * Z :=
  let '(start, stop) := segment in
  let ex_start := Py.int (start / duration * inject_Z strip_width) in
  let ex_end := Py.int (stop / duration * inject_Z strip_width) in
  (ex_start, (ex_end - ex_start)%Z).

(** ** Further notions for [generate_preview] *)

(** The frame has the requested [(width, height)]. *)
Definition has_dimensions (dimensions : nat * nat) (frame : Frame) : Prop :=
  width frame = fst dimensions /\ height frame = snd dimensions.

(** The ranges [generate_preview] samples: the segments when there are
    some, the single range otherwise. *)
Definition preview_ranges (a : PreviewArgs) : list Segment :=
  match pv_segments a with
  | [] => [(pv_start_time a, pv_end_time a)]
  | segments => segments
  end.

(** The sum of [int(duration * fps)] over the ranges, a negative count
    taken as none. *)
Definition desired_total (fps : Q) (ranges : list Segment) : Z :=
  fold_right
    (fun r acc => (Z.max 0 (Py.int ((snd r - fst r) * fps)) + acc)%Z) 0%Z ranges.


(** A preview of two segments, cropped and resized. *)
Definition preview_cropped : PreviewArgs :=
  mkPreviewArgs 0 2 4 (320, 180)%nat (9 # 10) (Some (10, 10, 100, 100)%nat)
    [(0, 1 # 2); (1, 2)] 1.


(** ** [VideoProcessor.get_thumbnails] *)

(** [range(0, stop, step)] for a step that is not 0, with the length
    Python gives it. *)
Definition range_step (stop step : Z) : list Z :=
  let n :=
    if (0 <? step)%Z
    then (if (0 <? stop)%Z then (stop - 1) / step + 1 else 0)%Z
    else (if (stop <? 0)%Z then (- stop - 1) / (- step) + 1 else 0)%Z in
  map (fun i => (Z.of_nat i * step)%Z) (seq 0 (Z.to_nat n)).

(** [l[:count]]: the first [count] items, or all but the last [-count]. *)
Definition slice_to {A} (count : Z) (l : list A) : list A :=
  if (0 <=? count)%Z then firstn (Z.to_nat count) l
  else firstn (length l - Z.to_nat (- count)) l.

Inductive ThumbnailError : Type :=
| ZeroDivisionError     (* frame_count // 0, or width * 60 / 0 *)
| RangeStepZero         (* ValueError: range() arg 3 must not be zero *)
| ResizeRaises.         (* cv2.resize raised *)

(** The frame numbers [get_thumbnails] asks for; [//] is the floor
    division, as [Z.div]. *)
Definition frames_to_extract (frame_count count : Z)
  : ThumbnailError + list Z :=
  if (frame_count <=? count)%Z then inr (Py.range frame_count)
  else if (count =? 0)%Z then inl ZeroDivisionError
  else
    let step := (frame_count / count)%Z in
    if (step =? 0)%Z then inl RangeStepZero
    else inr (slice_to count (range_step frame_count step)).

(** [int(self.width * thumb_height / self.height)] with [thumb_height = 60] *)
Definition thumb_width (self : VideoProcessor) : Z :=
  Py.int (inject_Z (Z.of_nat (source_width self) * 60)
          / inject_Z (Z.of_nat (source_height self))).

(** The loop over the frame numbers: a frame that does not decode is
    skipped. *)
Fixpoint extract_thumbnails (C : Collaborators) (self : VideoProcessor)
    (frames_to_extract : list Z) (thumbnails : list Frame)
  : ThumbnailError + list Frame :=
  match frames_to_extract with
  | [] => inr thumbnails
  | frame_num :: rest =>
      match cap_read C frame_num with
      | None => extract_thumbnails C self rest thumbnails
      | Some frame =>
          if (source_height self =? 0)%nat then inl ZeroDivisionError
          else
            match cv2_resize C frame (Z.to_nat (thumb_width self)) 60 with
            | None => inl ResizeRaises
            | Some thumbnail =>
                extract_thumbnails C self rest (thumbnails ++ [thumbnail])
            end
      end
  end.

(** [get_thumbnails(count)] on a processor whose [self.frame_count] is
    [frame_count]. *)
Definition get_thumbnails (C : Collaborators) (self : VideoProcessor)
    (frame_count count : Z) : ThumbnailError + list Frame :=
  if negb (cap_opened self) || (frame_count =? 0)%Z then inr []
  else
    match frames_to_extract frame_count count with
    | inl e => inl e
    | inr frames => extract_thumbnails C self frames []
    end.

(** The step between two thumbnails. *)
Definition thumbnail_step (frame_count count : Z) : Z :=
  if (frame_count <=? count)%Z then 1%Z else (frame_count / count)%Z.

(** ** Further notions for [create_gif] *)

(** A call of the encoder or of [write_gif] that returned. *)
Definition completed_write (C : Collaborators) (e : Event) : Prop :=
  match e with
  | Progress _ => False
  | Mimsave frames fps quantizer loop =>
      mimsave_returns C frames fps quantizer loop = true
  | call => exists clip, write_gif C clip call = Written
  end.

(** A run that returns [True] has made a call that returned. *)
Definition written_when_true (C : Collaborators) (m : Run bool) : Prop :=
  snd m = inr true -> Exists (completed_write C) (fst m).



(** ** The fallback [VideoFileClip] of video_processor.py

    The class the module defines when the library one cannot be imported:
    it records the settings and does the work in [write_gif]. *)

Record FallbackClip : Type := mkFallback {
  fb_fps : Q;                                     (* self.fps *)
  fb_frame_count : Z;                             (* self.frame_count *)
  fb_duration : Q;                                (* self.duration *)
  fb_size : nat * nat;                            (* self.size *)
  fb_start_time : Q;                              (* self.start_time *)
  fb_end_time : Q;                                (* self.end_time *)
  fb_target_size : nat * nat;                     (* self.target_size *)
  fb_crop_area : option (nat * nat * nat * nat);  (* self.crop_area *)
  fb_output_fps : Q                               (* self.output_fps *)
}.

(** [__init__] and [_initialize] on a capture that opens and reports
    [fps], [frame_count] and [size]. *)
Definition fallback_init (fps : Q) (frame_count : Z) (size : nat * nat)
  : FallbackClip :=
  let duration := if Py.Qltb 0 fps then inject_Z frame_count / fps else 0 in
  mkFallback fps frame_count duration size 0 duration size None fps.

(** [subclip]: a new clip of the same file, so with the same properties
    and the default settings, whose times are clamped. *)
Definition subclip (self : FallbackClip) (start_time end_time : Q)
  : FallbackClip :=
  let clip := fallback_init (fb_fps self) (fb_frame_count self) (fb_size self) in
  mkFallback (fb_fps clip) (fb_frame_count clip) (fb_duration clip)
    (fb_size clip)
    (Py.max 0 start_time) (Py.min (fb_duration self) end_time)
    (fb_target_size clip) (fb_crop_area clip) (fb_output_fps clip).

(** [x or default] on a number. *)
Definition nat_or (x default : nat) : nat :=
  if (x =? 0)%nat then default else x.

(** [resize(width=, height=)] *)
Definition fallback_resize (self : FallbackClip) (width height : nat)
  : FallbackClip :=
  mkFallback (fb_fps self) (fb_frame_count self) (fb_duration self)
    (fb_size self) (fb_start_time self) (fb_end_time self)
    (nat_or width (fst (fb_size self)), nat_or height (snd (fb_size self)))
    (fb_crop_area self) (fb_output_fps self).

(** [crop(x1=, y1=, x2=, y2=)] *)
Definition fallback_crop (self : FallbackClip) (x1 y1 x2 y2 : nat)
  : FallbackClip :=
  mkFallback (fb_fps self) (fb_frame_count self) (fb_duration self)
    (fb_size self) (fb_start_time self) (fb_end_time self)
    (fb_target_size self)
    (Some (x1, y1, nat_or x2 (fst (fb_size self)),
           nat_or y2 (snd (fb_size self))))
    (fb_output_fps self).

Definition fallback_set_fps (self : FallbackClip) (fps : Q) : FallbackClip :=
  mkFallback (fb_fps self) (fb_frame_count self) (fb_duration self)
    (fb_size self) (fb_start_time self) (fb_end_time self)
    (fb_target_size self) (fb_crop_area self) fps.

(** The clip [create_gif] builds for a request, with the fallback class. *)
Definition fallback_clip (fps : Q) (frame_count : Z) (size : nat * nat)
    (r : ClipRequest) : FallbackClip :=
  let clip := subclip (fallback_init fps frame_count size)
                (req_start r) (req_end r) in
  let clip :=
    match req_crop r with
    | Some (x1, y1, x2, y2) => fallback_crop clip x1 y1 x2 y2
    | None => clip
    end in
  let clip :=
    match req_resize r with
    | Some (width, height) => fallback_resize clip width height
    | None => clip
    end in
  fallback_set_fps clip (req_fps r).

(** [frame[y1:y2, x1:x2]] *)
Definition slice_frame (frame : Frame) (x1 y1 x2 y2 : nat) : Frame :=
  mkFrame (Nat.min y2 (height frame) - Nat.min y1 (height frame))
          (Nat.min x2 (width frame) - Nat.min x1 (width frame))
          (channels frame) (pixels frame).

(** What a call of the fallback [write_gif] did: the frame numbers it
    read, the call of [imageio.mimsave(output_path, frames, fps=)] it made,
    and what it returned. *)
Record FallbackOutcome : Type := mkOutcome {
  fo_reads : list Z;
  fo_saved : option (list Frame * Q);
  fo_returned : bool
}.

Section FallbackWriteGif.

Variable C : Collaborators.
(* whether imageio.mimsave(output_path, frames, fps=) returns *)
Variable save_returns : list Frame -> Q -> bool.
Variable self : FallbackClip.

(** [while current_frame < end_frame and frame_count < desired_frame_count];
    the frames collected, or the exception of [cv2.resize], with the frame
    numbers read.  [None] when the turns did not suffice. *)
Fixpoint fallback_loop (turns : nat) (end_frame desired_frame_count : Z)
    (frame_step : Q) (current_frame : Q) (frame_count : Z)
    (frames : list Frame) (reads : list Z)
  : option (list Z * (Exn + list Frame)) :=
  match turns with
  | O => None
  | S turns' =>
      if Py.Qltb current_frame (inject_Z end_frame)
         && (frame_count <? desired_frame_count)%Z
      then
        let reads := reads ++ [Py.int current_frame] in
        match cap_read C (Py.int current_frame) with
        | None => Some (reads, inr frames)
        | Some frame =>
            let frame :=
              match fb_crop_area self with
              | Some (x1, y1, x2, y2) => slice_frame frame x1 y1 x2 y2
              | None => frame
              end in
            match
              (if negb (Nat.eqb (fst (fb_target_size self)) (fst (fb_size self)))
                  || negb (Nat.eqb (snd (fb_target_size self))
                             (snd (fb_size self)))
               then cv2_resize C frame (fst (fb_target_size self))
                      (snd (fb_target_size self))
               else Some frame)
            with
            | None => Some (reads, inl OtherException)
            | Some frame =>
                fallback_loop turns' end_frame desired_frame_count frame_step
                  (current_frame + frame_step) (frame_count + 1)
                  (frames ++ [frame]) reads
            end
        end
      else Some (reads, inr frames)
  end.

(** [fps or self.output_fps] *)
Definition target_fps (fps : option Q) : Q :=
  match fps with
  | Some fps => if Qeq_bool fps 0 then fb_output_fps self else fps
  | None => fb_output_fps self
  end.

Definition desired_frame_count (fps : option Q) : Z :=
  Py.int ((fb_end_time self - fb_start_time self) * target_fps fps).

(** [write_gif(output_path, fps=fps, **kwargs)]: every exception is caught
    and turned into [False]. *)
Definition fallback_write_gif (fps : option Q) (turns : nat)
  : option FallbackOutcome :=
  let start_frame := Py.int (fb_start_time self * fb_fps self) in
  let end_frame := Py.int (fb_end_time self * fb_fps self) in
  let total_frames := (end_frame - start_frame)%Z in
  let desired := desired_frame_count fps in
  let frame_step :=
    if (0 <? desired)%Z then inject_Z total_frames / inject_Z desired else 1 in
  match
    fallback_loop turns end_frame desired frame_step
      (inject_Z start_frame) 0 [] []
  with
  | None => None
  | Some (reads, inl _) => Some (mkOutcome reads None false)
  | Some (reads, inr []) => Some (mkOutcome reads None false)
  | Some (reads, inr frames) =>
      Some (mkOutcome reads (Some (frames, target_fps fps))
              (save_returns frames (target_fps fps)))
  end.

End FallbackWriteGif.


Definition request_beyond : ClipRequest :=
  mkRequest (-1) 5 None (Some (320, 180)%nat) 10.

Definition saves : list Frame -> Q -> bool := fun _ _ => true.

(** ** [create_gif] on the classes a run can have *)

(** [get_frame(t)] of the fallback class: frame [int(t * self.fps)] of the
    file, whatever the settings of the clip. *)
Definition fallback_get_frame (C : Collaborators) (self : FallbackClip)
    (t : Q) : option Frame :=
  cap_read C (Py.int (Py.fmul t (fb_fps self))).

(** The collaborators of [create_gif] when [VideoFileClip] is the fallback
    class of the module, on a file that opens and reports [fps],
    [frame_count] and [size]; the frames and the encoder are those of [C].
    The clip of a request is [fallback_clip]: its [duration] is the one of
    the file, which [subclip] leaves as it is; its [write_gif] catches every
    exception. *)
Definition fallback_backed (C : Collaborators) (fps : Q) (frame_count : Z)
    (size : nat * nat) : Collaborators :=
  mkCollaborators
    (fun r =>
       let clip := fallback_clip fps frame_count size r in
       Some (mkClip (fb_duration clip) (fallback_get_frame C clip)))
    (cv2_resize C) (mimsave_returns C) (fun _ _ => Written) (cap_read C).



(** The numbers of frames handed to the encoder, call by call. *)
Definition encoded_counts (trace : list Event) : list Z :=
  flat_map
    (fun e =>
       match e with
       | Mimsave frames _ _ _ => [Z.of_nat (length frames)]
       | _ => []
       end)
    trace.


(** Three seconds at 30 frames per second, and 58 frames at 25 frames per
    second (2.32 seconds), both 640 by 360, read through the fallback
    class. *)
Definition film_3s : Collaborators := fallback_backed steady 30 90 (640, 360)%nat.



(** The second second of the film, at 10 fps. *)
Definition second_of_three : GifArgs :=
  mkGifArgs 0 3 10 (640, 360)%nat (9 # 10) None true false [(1, 2)] 1.





(** A window saving at quality 55. *)
Definition window_saving_55 : SaveInputs :=
  mkSaveInputs true [mkFrame 360 640 3 0] true 10 200 55 true.

(** ** preview_widget.py *)

(** What [_update_display] reads in crop mode: the sizes of the current
    pixmap, of the label and of the scaled pixmap, and the two points of the
    selection. *)
Record CropView : Type := mkCropView {
  pixmap_width : Z;
  pixmap_height : Z;
  label_width : Z;
  label_height : Z;
  scaled_width : Z;
  scaled_height : Z;
  crop_start : Z * Z;      (* self.crop_start.x(), .y() *)
  crop_end : Z * Z         (* self.crop_end.x(), .y() *)
}.

(** The rectangle [_update_display] stores in [self.crop_rect], in the
    coordinates of the original image; [None] for the [ZeroDivisionError] of
    a scaled pixmap without width or height. *)
Definition update_crop_rect (v : CropView) : option (Z * Z * Z * Z) :=
  if (scaled_width v =? 0)%Z || (scaled_height v =? 0)%Z then None
  else
    let scale_x := inject_Z (pixmap_width v) / inject_Z (scaled_width v) in
    let scale_y := inject_Z (pixmap_height v) / inject_Z (scaled_height v) in
    let x_offset := inject_Z (label_width v - scaled_width v) / 2 in
    let y_offset := inject_Z (label_height v - scaled_height v) / 2 in
    let start_x := inject_Z (fst (crop_start v)) - x_offset in
    let start_y := inject_Z (snd (crop_start v)) - y_offset in
    let end_x := inject_Z (fst (crop_end v)) - x_offset in
    let end_y := inject_Z (snd (crop_end v)) - y_offset in
    let start_x := Py.max 0 (Py.min start_x (inject_Z (scaled_width v))) in
    let start_y := Py.max 0 (Py.min start_y (inject_Z (scaled_height v))) in
    let end_x := Py.max 0 (Py.min end_x (inject_Z (scaled_width v))) in
    let end_y := Py.max 0 (Py.min end_y (inject_Z (scaled_height v))) in
    let crop_x := Py.int (Py.min start_x end_x) in
    let crop_y := Py.int (Py.min start_y end_y) in
    let crop_w := Py.int (Qabs (end_x - start_x)) in
    let crop_h := Py.int (Qabs (end_y - start_y)) in
    Some (Py.int (inject_Z crop_x * scale_x),
          Py.int (inject_Z crop_y * scale_y),
          Py.int (inject_Z crop_w * scale_x),
          Py.int (inject_Z crop_h * scale_y)).

(** The same view with the selection dragged the other way. *)
Definition dragged_back (v : CropView) : CropView :=
  mkCropView (pixmap_width v) (pixmap_height v) (label_width v)
    (label_height v) (scaled_width v) (scaled_height v)
    (crop_end v) (crop_start v).

(** A 1920x1080 frame shown at 640x360 in a label of 800x600, with a
    selection that leaves the image. *)
Definition crop_view_example : CropView :=
  mkCropView 1920 1080 800 600 640 360 (700, 500)%Z (100, 50)%Z.

(** *** Preview playback *)

(** The playback state: the frames, the index of the next one, and the
    interval of the timer when it runs. *)
Record Playback : Type := mkPlayback {
  preview_frames : list Frame;
  current_preview_index : Z;
  timer_interval : option Z
}.

(** [__init__] *)
Definition playback_init : Playback := mkPlayback [] 0 None.

(** [play_preview(frames, fps)]: the new state, and whether [1000 / fps]
    raised [ZeroDivisionError]; the frames and the index are set before the
    division. *)
Definition play_preview (p : Playback) (frames : list Frame) (fps : Q)
  : Playback * bool :=
  match frames with
  | [] => (p, false)
  | _ =>
      if Qeq_bool fps 0 then (mkPlayback frames 0 (timer_interval p), true)
      else (mkPlayback frames 0 (Some (Py.int (1000 / fps))), false)
  end.

(** [l[i]]: a negative index counts from the end; [None] for the
    [IndexError]. *)
Definition py_index {A} (l : list A) (i : Z) : option A :=
  if (0 <=? i)%Z then nth_error l (Z.to_nat i)
  else if (- i <=? Z.of_nat (length l))%Z
       then nth_error l (Z.to_nat (Z.of_nat (length l) + i))
       else None.

(** [show_next_preview_frame]: the frame shown, if any, and the new state;
    [None] for an [IndexError]. *)
Definition show_next_preview_frame (p : Playback)
  : option (option Frame * Playback) :=
  match preview_frames p with
  | [] => Some (None, mkPlayback [] (current_preview_index p) None)
  | frames =>
      match py_index frames (current_preview_index p) with
      | None => None
      | Some frame =>
          Some (Some frame,
                mkPlayback frames
                  ((current_preview_index p + 1)
                   mod Z.of_nat (length frames))%Z
                  (timer_interval p))
      end
  end.

(** [k] timeouts of the timer, with the frames they showed. *)
Fixpoint timeouts (k : nat) (p : Playback) : option (list Frame * Playback) :=
  match k with
  | O => Some ([], p)
  | S k' =>
      match show_next_preview_frame p with
      | None => None
      | Some (shown, p') =>
          match timeouts k' p' with
          | None => None
          | Some (rest, p'') =>
              Some (match shown with
                    | Some frame => frame :: rest
                    | None => rest
                    end, p'')
          end
      end
  end.

(** ** main.py: recent files and presets *)

Import String.StringSyntax.
Delimit Scope string_scope with string.

(** [self.max_recent_files = 5] *)
Definition max_recent_files : nat := 5.

(** [l.remove(x)] when [x in l]: the first occurrence goes. *)
Fixpoint list_remove (x : String.string) (l : list String.string)
  : list String.string :=
  match l with
  | [] => []
  | y :: l' => if String.eqb y x then l' else y :: list_remove x l'
  end.

(** [while len(l) > max_recent_files: l.pop()]; the list has at most
    [turns] items. *)
Fixpoint pop_while_longer (turns : nat) (l : list String.string)
  : list String.string :=
  match turns with
  | O => l
  | S turns' =>
      if (max_recent_files <? length l)%nat
      then pop_while_longer turns' (removelast l)
      else l
  end.

(** [add_recent_file]: the new value of [self.recent_files]. *)
Definition add_recent_file (recent_files : list String.string)
    (file_path : String.string) : list String.string :=
  let recent_files :=
    if existsb (String.eqb file_path) recent_files
    then list_remove file_path recent_files
    else recent_files in
  let recent_files := file_path :: recent_files in
  pop_while_longer (length recent_files) recent_files.

(** A preset: the dictionary with the keys "name", "fps", "quality",
    "resolution" and, unless it is an older one, "speed". *)
Record Preset : Type := mkPreset {
  preset_name : String.string;
  preset_fps : Z;
  preset_quality : Z;
  preset_resolution : String.string;
  preset_speed : option Z
}.

Definition default_presets : list Preset :=
  [mkPreset "High Quality" 30 95 "Original" (Some 100%Z);
   mkPreset "Balanced" 20 85 "720p" (Some 100%Z);
   mkPreset "Compressed" 15 70 "480p" (Some 100%Z)]%string.

(** [_load_presets] on the stored value. *)
Definition load_presets (stored : list Preset) : list Preset :=
  let presets := match stored with [] => default_presets | _ => stored end in
  map (fun preset =>
         match preset_speed preset with
         | None => mkPreset (preset_name preset) (preset_fps preset)
                     (preset_quality preset) (preset_resolution preset)
                     (Some 100%Z)
         | Some _ => preset
         end)
      presets.

(** [save_preset] *)
Definition save_preset (presets : list Preset) (name : String.string)
    (fps quality : Z) (resolution : String.string) (speed : Z) : list Preset :=
  presets ++ [mkPreset name fps quality resolution (Some speed)].

(** [delete_preset] *)
Definition delete_preset (presets : list Preset) (name : String.string)
  : list Preset :=
  filter (fun p => negb (String.eqb (preset_name p) name)) presets.

(** What [apply_preset] sets. *)
Inductive WidgetCall : Type :=
| SetFps (value : Z)                 (* fps_spin.setValue *)
| SetQuality (value : Z)             (* quality_slider.setValue *)
| SetResolutionIndex (index : nat)   (* resolution_combo.setCurrentIndex *)
| SetSpeed (value : Z).              (* speed_slider.setValue *)

(** [resolution_combo.findText(text)]: the index of the first item with
    that text, [None] for -1. *)
Fixpoint find_text (items : list String.string) (text : String.string)
  : option nat :=
  match items with
  | [] => None
  | item :: rest =>
      if String.eqb item text then Some 0%nat
      else option_map S (find_text rest text)
  end.

(** The items of the resolution combo. *)
Definition resolution_items : list String.string :=
  ["Original"; "720p"; "480p"; "360p"; "240p"; "Custom"]%string.

(** The calls made for one preset. *)
Definition apply_one (preset : Preset) : list WidgetCall :=
  [SetFps (preset_fps preset); SetQuality (preset_quality preset)]
  ++ match find_text resolution_items (preset_resolution preset) with
     | Some index => [SetResolutionIndex index]
     | None => []
     end
  ++ match preset_speed preset with
     | Some speed => [SetSpeed speed]
     | None => []
     end.

(** [apply_preset]: the first preset of that name is applied. *)
Fixpoint apply_from (presets : list Preset) (preset_name' : String.string)
  : list WidgetCall :=
  match presets with
  | [] => []
  | preset :: rest =>
      if String.eqb (preset_name preset) preset_name' then apply_one preset
      else apply_from rest preset_name'
  end.

Definition apply_preset (presets : list Preset) (preset_name' : String.string)
  : list WidgetCall :=
  if String.eqb preset_name' "Custom" then []
  else apply_from presets preset_name'.

(** Some preset has that name. *)
Definition has_preset (presets : list Preset) (name : String.string) : bool :=
  existsb (fun p => String.eqb (preset_name p) name) presets.

(** Six recent files, the fourth opened again. *)
Definition recent_example : list String.string :=
  ["a.mp4"; "b.mp4"; "c.mp4"; "d.mp4"; "e.mp4"; "f.mp4"]%string.

(** ** [MainWindow.generate_preview] *)

(** What the handler reads from the window. *)
Record PreviewControls : Type := mkControls {
  pc_current_file : bool;                          (* self.current_file *)
  pc_fps_spin : Z;
  pc_width_spin : nat;
  pc_height_spin : nat;
  pc_quality_slider : Z;
  pc_speed_slider : Z;
  pc_timeline : TimelineWidget;
  pc_enable_crop : bool;
  pc_crop_rect : option (nat * nat * nat * nat);   (* preview_widget.crop_rect *)
  pc_excluded_segments : list Segment              (* self.excluded_segments *)
}.

(** How the handler ends. *)
Inductive PreviewReport : Type :=
| NothingDone                                (* no file *)
| Played (frames : list Frame) (fps : Q)     (* play_preview(frames, fps) *)
| FailedToGenerate                           (* "Failed to generate preview" *)
| NoValidSegments                            (* "No valid segments remain ..." *)
| ErrorBox.                                  (* except Exception: the box *)

(** The arguments the handler passes to [VideoProcessor.generate_preview]. *)
Definition preview_args (c : PreviewControls) (segments : list Segment)
  : PreviewArgs :=
  mkPreviewArgs
    (start_time (pc_timeline c)) (end_time (pc_timeline c))
    (inject_Z (pc_fps_spin c))
    (pc_width_spin c, pc_height_spin c)
    (inject_Z (pc_quality_slider c) / 100)
    (if pc_enable_crop c then pc_crop_rect c else None)
    segments
    (inject_Z (pc_speed_slider c) / 100).

(** The call, the unpacking of what it returns, and the playback. *)
Definition preview_and_play (C : Collaborators) (self : VideoProcessor)
    (a : PreviewArgs) (p : Playback) (turns : nat)
  : option (PreviewReport * Playback) :=
  match generate_preview C self a turns with
  | None => None
  | Some (inl _) => Some (ErrorBox, p)
  | Some (inr value) =>
      match unpack_two value with
      | None => Some (ErrorBox, p)
      | Some (UnpackedItems _ _) => Some (FailedToGenerate, p)
      | Some (UnpackedPair [] _) => Some (FailedToGenerate, p)
      | Some (UnpackedPair frames adjusted_fps) =>
          let '(p', raised) := play_preview p frames adjusted_fps in
          if raised : bool then Some (ErrorBox, p')
          else Some (Played frames adjusted_fps, p')
      end
  end.

(** The handler. *)
Definition window_generate_preview (C : Collaborators) (self : VideoProcessor)
    (c : PreviewControls) (p : Playback) (turns : nat)
  : option (PreviewReport * Playback) :=
  if negb (pc_current_file c) then Some (NothingDone, p)
  else
    match pc_excluded_segments c with
    | _ :: _ =>
        match get_effective_segments (pc_timeline c) with
        | [] => Some (NoValidSegments, p)
        | effective_segments =>
            preview_and_play C self (preview_args c effective_segments) p turns
        end
    | [] => preview_and_play C self (preview_args c []) p turns
    end.

(** The ranges of the spin box and of the slider. *)
Definition controls_in_range (c : PreviewControls) : Prop :=
  (1 <= pc_fps_spin c <= 60)%Z /\ (25 <= pc_speed_slider c <= 400)%Z.

(** A window with a file, 10 fps, speed 200, one excluded segment. *)
Definition window_previewing : PreviewControls :=
  mkControls true 10 320 180 90 200 (mkTimeline 0 2 [(1 # 2, 1)]) false None
    [(1 # 2, 1)].
(** ** Facts about Python comparisons *)

Lemma Qle_bool_false (x y : Q) : Qle_bool x y = false <-> y < x.
Proof.
  split; intro H.
  - apply Qnot_le_lt. intro C. apply Qle_bool_iff in C. congruence.
  - destruct (Qle_bool x y) eqn:E; auto. apply Qle_bool_iff in E. lra.
Qed.

Lemma Qltb_lt (a b : Q) : Py.Qltb a b = true <-> a < b.
Proof.
  unfold Py.Qltb. rewrite negb_true_iff. apply Qle_bool_false.
Qed.

Lemma Qltb_ge (a b : Q) : Py.Qltb a b = false <-> b <= a.
Proof.
  unfold Py.Qltb. rewrite negb_false_iff. apply Qle_bool_iff.
Qed.

Ltac qprop :=
  repeat match goal with
  | H : Qle_bool _ _ = true |- _ => apply Qle_bool_iff in H
  | H : Qle_bool _ _ = false |- _ => apply Qle_bool_false in H
  | H : Py.Qltb _ _ = true |- _ => apply Qltb_lt in H
  | H : Py.Qltb _ _ = false |- _ => apply Qltb_ge in H
  | H : Qeq_bool _ _ = true |- _ => apply Qeq_bool_iff in H
  | H : Qeq_bool _ _ = false |- _ => apply Qeq_bool_neq in H
  | H : _ && _ = true |- _ => apply andb_true_iff in H; destruct H
  | H : _ || _ = false |- _ => apply orb_false_iff in H; destruct H
  end.

Lemma py_max_spec (a b : Q) :
  (a < b /\ Py.max a b = b) \/ (b <= a /\ Py.max a b = a).
Proof.
  unfold Py.max. destruct (Py.Qltb a b) eqn:E; qprop; auto.
Qed.

Lemma py_min_spec (a b : Q) :
  (b < a /\ Py.min a b = b) \/ (a <= b /\ Py.min a b = a).
Proof.
  unfold Py.min. destruct (Py.Qltb b a) eqn:E; qprop; auto.
Qed.

Lemma py_max_Qmax (a b : Q) : Py.max a b = Qmax a b.
Proof.
  unfold Py.max, Qmax, GenericMinMax.gmax.
  destruct (Qcompare_spec a b); destruct (Py.Qltb a b) eqn:E; qprop;
    try reflexivity; lra.
Qed.

Lemma py_min_Qmin (a b : Q) : Py.min a b = Qmin a b.
Proof.
  unfold Py.min, Qmin, GenericMinMax.gmin.
  destruct (Qcompare_spec a b); destruct (Py.Qltb b a) eqn:E; qprop;
    try reflexivity; lra.
Qed.

Lemma Qmax_cases (a b : Q) :
  (a < b /\ Qmax a b = b) \/ (b <= a /\ Qmax a b = a).
Proof. rewrite <- py_max_Qmax. apply py_max_spec. Qed.

Lemma Qmin_cases (a b : Q) :
  (b < a /\ Qmin a b = b) \/ (a <= b /\ Qmin a b = a).
Proof. rewrite <- py_min_Qmin. apply py_min_spec. Qed.

Ltac qminmax :=
  repeat match goal with
  | |- context [Qmax ?a ?b] => destruct (Qmax_cases a b) as [[? ->]|[? ->]]
  | |- context [Qmin ?a ?b] => destruct (Qmin_cases a b) as [[? ->]|[? ->]]
  end.

Lemma tuple_ltb_spec (a b : Segment) :
  tuple_ltb a b = true <->
  (fst a < fst b \/ (fst a == fst b /\ snd a < snd b)).
Proof.
  unfold tuple_ltb.
  destruct (Qeq_bool (fst a) (fst b)) eqn:E1; simpl.
  - destruct (Qeq_bool (snd a) (snd b)) eqn:E2; simpl; qprop.
    + split; [discriminate | lra].
    + rewrite Qltb_lt. split; [auto | lra].
  - qprop. rewrite Qltb_lt. split; [auto | lra].
Qed.


Lemma tuple_ltb_false (a b : Segment) :
  tuple_ltb a b = false <-> tuple_le b a.
Proof.
  unfold tuple_le. split; intro H.
  - destruct (Qlt_le_dec (fst b) (fst a)) as [L|L]; auto.
    destruct (Qlt_le_dec (fst a) (fst b)) as [L'|L'].
    + assert (tuple_ltb a b = true) by (apply tuple_ltb_spec; auto). congruence.
    + right. split; [lra|].
      destruct (Qlt_le_dec (snd a) (snd b)) as [M|M]; auto.
      assert (tuple_ltb a b = true) by (apply tuple_ltb_spec; right; split; [lra|auto]).
      congruence.
  - destruct (tuple_ltb a b) eqn:E; auto.
    apply tuple_ltb_spec in E. lra.
Qed.

Lemma tuple_le_trans (a b c : Segment) :
  tuple_le a b -> tuple_le b c -> tuple_le a c.
Proof. unfold tuple_le. intros. lra. Qed.

Lemma tuple_le_total (a b : Segment) : tuple_le a b \/ tuple_le b a.
Proof.
  unfold tuple_le.
  destruct (Qlt_le_dec (fst a) (fst b)); auto.
  destruct (Qlt_le_dec (fst b) (fst a)); auto.
  destruct (Qlt_le_dec (snd a) (snd b)); [left | right]; right; lra.
Qed.

Lemma tuple_le_fst (a b : Segment) : tuple_le a b -> fst a <= fst b.
Proof. unfold tuple_le. lra. Qed.


(** ** Double precision: the error of a rounding *)

Lemma pow2_pos (e : Z) : 0 < Py.pow2 e.
Proof. unfold Py.pow2. apply Qpower_0_lt. reflexivity. Qed.

Lemma pow2_plus (e k : Z) : Py.pow2 (e + k) == Py.pow2 e * Py.pow2 k.
Proof. unfold Py.pow2. apply Qpower_plus. discriminate. Qed.

Lemma pow2_nat (k : Z) : (0 <= k)%Z -> Py.pow2 k == inject_Z (2 ^ k).
Proof.
  intro H. unfold Py.pow2. now rewrite Zpower_Qpower.
Qed.

(** The nearest integer is at most a half away. *)
Lemma nearest_even_error (x : Q) :
  Qabs (inject_Z (Py.nearest_even x) - x) <= 1 # 2.
Proof.
  unfold Py.nearest_even.
  pose proof (Qfloor_le x) as L. pose proof (Qlt_floor x) as U.
  rewrite inject_Z_plus in U. change (inject_Z 1) with 1 in U.
  set (f := Qfloor x) in *.
  destruct (Py.Qltb (x - inject_Z f) (1 # 2)) eqn:A; qprop.
  - apply Qabs_Qle_condition. split; lra.
  - assert (K : Qabs (inject_Z (f + 1) - x) <= 1 # 2).
    { rewrite inject_Z_plus. change (inject_Z 1) with 1.
      apply Qabs_Qle_condition. split; lra. }
    destruct (Py.Qltb (1 # 2) (x - inject_Z f)) eqn:B; [exact K|].
    destruct (Z.even f); [|exact K].
    qprop. apply Qabs_Qle_condition. split; lra.
Qed.

(** The exponent chosen puts the scaled number at [2^52] or above. *)
Lemma ulp_exponent_lower (x : Q) :
  ~ x == 0 -> Py.pow2 (Py.ulp_exponent x + 52) <= Qabs x.
Proof.
  intro Hx. unfold Py.ulp_exponent.
  set (a := Z.log2 (Z.abs (Qnum x))).
  set (b := Z.log2 (Z.pos (Qden x))).
  destruct (Qle_bool (Py.pow2 (a - b - 52 + 52)) (Qabs x)) eqn:E.
  - now apply Qle_bool_iff in E.
  - clear E.
    assert (Hn : (0 < Z.abs (Qnum x))%Z).
    { destruct x as [n d]. unfold Qeq in Hx. simpl in *. lia. }
    destruct (Z.log2_spec _ Hn) as [La _]. fold a in La.
    destruct (Z.log2_spec (Z.pos (Qden x)) (Pos2Z.is_pos _)) as [_ Ub].
    fold b in Ub.
    assert (Ha : (0 <= a)%Z) by apply Z.log2_nonneg.
    assert (Hb : (0 <= b)%Z) by apply Z.log2_nonneg.
    replace (a - b - 52 - 1 + 52)%Z with (a - (b + 1))%Z by lia.
    unfold Py.pow2. rewrite Qpower_minus by discriminate.
    fold (Py.pow2 a). fold (Py.pow2 (b + 1)).
    rewrite !pow2_nat by lia.
    assert (Hd : 0 < inject_Z (2 ^ (b + 1))).
    { change 0 with (inject_Z 0). rewrite <- Zlt_Qlt.
      apply Z.pow_pos_nonneg; lia. }
    apply Qle_shift_div_r; [exact Hd|].
    destruct x as [n d]. simpl in *.
    unfold Qle, Qmult, inject_Z. simpl.
    rewrite Z.mul_1_r.
    replace (Z.succ b) with (b + 1)%Z in Ub by lia.
    nia.
Qed.

(** The relative error of a rounding is at most [2^-53]. *)
Lemma fl_error (x : Q) :
  Qabs (Py.fl x - x) <= Qabs x * Py.eps.
Proof.
  unfold Py.fl. destruct (Qeq_bool x 0) eqn:E.
  - apply Qeq_bool_iff in E. rewrite E. vm_compute. discriminate.
  - apply Qeq_bool_neq in E.
    set (e := Py.ulp_exponent x).
    pose proof (pow2_pos e) as Hp.
    pose proof (ulp_exponent_lower x E) as Hl. fold e in Hl.
    rewrite pow2_plus in Hl.
    assert (H52 : Py.pow2 52 == 4503599627370496) by (vm_compute; reflexivity).
    rewrite H52 in Hl.
    set (p := Py.pow2 e) in *.
    pose proof (nearest_even_error (x / p)) as Hn.
    set (m := inject_Z (Py.nearest_even (x / p))) in *.
    assert (Ex : m * p - x == (m - x / p) * p) by (field; lra).
    rewrite Ex, Qabs_Qmult, (Qabs_pos p) by lra.
    assert (Qabs (m - x / p) * p <= (1 # 2) * p).
    { apply Qmult_le_compat_r; lra. }
    unfold Py.eps. lra.
Qed.

Lemma fl_near (x : Q) :
  0 <= x ->
  x * (1 - Py.eps) <= Py.fl x
  /\ Py.fl x <= x * (1 + Py.eps).
Proof.
  intro H. pose proof (fl_error x) as E.
  rewrite (Qabs_pos x) in E by assumption.
  apply Qabs_Qle_condition in E. split; lra.
Qed.

Lemma eps_range : 0 < Py.eps /\ Py.eps < 1.
Proof. split; reflexivity. Qed.

(** Bounds that follow a value through a rounding, a product and a
    quotient: [v] lies between [x * lo] and [x * hi]. *)
Lemma fl_sandwich (x v lo hi : Q) :
  0 <= x -> 0 <= lo ->
  x * lo <= v -> v <= x * hi ->
  x * (lo * (1 - Py.eps)) <= Py.fl v /\ Py.fl v <= x * (hi * (1 + Py.eps)).
Proof.
  intros Hx Hlo L U. destruct eps_range as [E0 E1].
  assert (Hv : 0 <= v).
  { apply Qle_trans with (x * lo); [|exact L]. now apply Qmult_le_0_compat. }
  destruct (fl_near v Hv) as [A B].
  assert (0 <= (v - x * lo) * (1 - Py.eps))
    by (apply Qmult_le_0_compat; lra).
  assert (0 <= (x * hi - v) * (1 + Py.eps))
    by (apply Qmult_le_0_compat; lra).
  split; lra.
Qed.

Lemma mul_sandwich (x y v w lo1 hi1 lo2 hi2 : Q) :
  0 <= x -> 0 <= y -> 0 <= lo1 -> 0 <= lo2 ->
  x * lo1 <= v -> v <= x * hi1 ->
  y * lo2 <= w -> w <= y * hi2 ->
  x * y * (lo1 * lo2) <= v * w /\ v * w <= x * y * (hi1 * hi2).
Proof.
  intros Hx Hy H1 H2 L1 U1 L2 U2.
  assert (P1 : 0 <= x * lo1) by now apply Qmult_le_0_compat.
  assert (P2 : 0 <= y * lo2) by now apply Qmult_le_0_compat.
  assert (A : 0 <= (v - x * lo1) * w) by (apply Qmult_le_0_compat; lra).
  assert (B : 0 <= (x * lo1) * (w - y * lo2))
    by (apply Qmult_le_0_compat; lra).
  assert (D : 0 <= (x * hi1 - v) * w) by (apply Qmult_le_0_compat; lra).
  assert (F : 0 <= (x * hi1) * (y * hi2 - w))
    by (apply Qmult_le_0_compat; lra).
  split; lra.
Qed.


(** Rounding keeps the sign. *)
Lemma fl_neg (x : Q) : x < 0 -> Py.fl x < 0.
Proof.
  intro H. pose proof (fl_error x) as E.
  pose proof (Qle_Qabs (Py.fl x - x)) as A.
  rewrite (Qabs_neg x) in E by lra.
  destruct eps_range as [E0 E1].
  assert (0 < (- x) * (1 - Py.eps)) by (apply Qmult_lt_0_compat; lra).
  lra.
Qed.

Lemma fl_pos (x : Q) : 0 < x -> 0 < Py.fl x.
Proof.
  intro H. destruct (fl_near x (Qlt_le_weak _ _ H)) as [L _].
  destruct eps_range as [E0 E1].
  assert (0 < x * (1 - Py.eps)) by (apply Qmult_lt_0_compat; lra).
  lra.
Qed.

Lemma fmul_neg (a b : Q) : a * b < 0 -> Py.fmul a b < 0.
Proof.
  intro H. unfold Py.fmul. apply fl_neg.
  destruct (Qlt_le_dec a 0) as [Ha|Ha].
  - destruct (Qlt_le_dec 0 b) as [Hb|Hb].
    + pose proof (fl_neg a Ha). pose proof (fl_pos b Hb).
      assert (0 < (- Py.fl a) * Py.fl b) by (apply Qmult_lt_0_compat; lra).
      lra.
    + assert (0 <= (- a) * (- b)) by (apply Qmult_le_0_compat; lra). lra.
  - destruct (Qlt_le_dec b 0) as [Hb|Hb].
    + destruct (Qle_lt_or_eq _ _ Ha) as [Ha'|Ha'].
      * pose proof (fl_pos a Ha'). pose proof (fl_neg b Hb).
        assert (0 < Py.fl a * (- Py.fl b)) by (apply Qmult_lt_0_compat; lra).
        lra.
      * rewrite <- Ha' in H. lra.
    + assert (0 <= a * b) by (apply Qmult_le_0_compat; lra). lra.
Qed.

(** ** [sorted] is a stable sort for the tuple order *)

Section Sorting.

Lemma insert_sorted_perm (x : Segment) (l : list Segment) :
  Permutation (insert_sorted x l) (x :: l).
Proof.
  induction l as [|y l IH]; simpl; auto.
  destruct (tuple_ltb y x); auto.
  rewrite IH. apply perm_swap.
Qed.

Lemma sorted_perm (l : list Segment) : Permutation (sorted l) l.
Proof.
  induction l as [|x l IH]; simpl; auto.
  rewrite insert_sorted_perm. now constructor.
Qed.

Lemma insert_sorted_In (x y : Segment) (l : list Segment) :
  In y (insert_sorted x l) <-> y = x \/ In y l.
Proof.
  split; intro H.
  - apply (Permutation_in _ (insert_sorted_perm x l)) in H.
    destruct H; auto.
  - apply (Permutation_in _ (Permutation_sym (insert_sorted_perm x l))).
    destruct H; [left|right]; auto.
Qed.

Lemma insert_sorted_lex (x : Segment) (l : list Segment) :
  StronglySorted tuple_le l -> StronglySorted tuple_le (insert_sorted x l).
Proof.
  induction 1 as [|y l Hl IH Hy]; simpl.
  - repeat constructor.
  - destruct (tuple_ltb y x) eqn:E.
    + constructor; auto.
      apply Forall_forall. intros z Hz.
      apply insert_sorted_In in Hz. destruct Hz as [->|Hz].
      * apply tuple_ltb_spec in E. unfold tuple_le. lra.
      * rewrite Forall_forall in Hy. auto.
    + apply tuple_ltb_false in E.
      constructor; [constructor; auto|].
      constructor; auto.
      eapply Forall_impl; [|exact Hy].
      intros z Hz. eapply tuple_le_trans; eauto.
Qed.

Lemma sorted_lex (l : list Segment) : StronglySorted tuple_le (sorted l).
Proof.
  induction l; simpl; [constructor | now apply insert_sorted_lex].
Qed.

Lemma StronglySorted_weaken {A} (R R' : A -> A -> Prop) (l : list A) :
  (forall a b, R a b -> R' a b) ->
  StronglySorted R l -> StronglySorted R' l.
Proof.
  intros HR. induction 1; constructor; auto.
  eapply Forall_impl; [|eassumption]. auto.
Qed.

Lemma sorted_by_start (l : list Segment) :
  StronglySorted (fun a b => fst a <= fst b) (sorted l).
Proof.
  eapply StronglySorted_weaken; [|apply sorted_lex].
  apply tuple_le_fst.
Qed.

(** A list already in order is returned unchanged. *)
Lemma sorted_fixed (l : list Segment) :
  StronglySorted tuple_le l -> sorted l = l.
Proof.
  induction 1 as [|x l Hl IH Hx]; simpl; auto.
  rewrite IH. destruct l as [|y l']; simpl; auto.
  inversion Hx as [|? ? Hxy _]; subst.
  apply tuple_ltb_false in Hxy. now rewrite Hxy.
Qed.

Lemma insert_sorted_not_nil (x : Segment) (l : list Segment) :
  insert_sorted x l <> [].
Proof. destruct l; simpl; [|destruct (tuple_ltb s x)]; discriminate. Qed.

Lemma sorts_by_start_sorted : PlannerSpec.sorts_by_start sorted.
Proof. intro l. split; [apply sorted_perm | apply sorted_by_start]. Qed.

End Sorting.

(** ** [get_effective_segments] against the planner of the specification *)

Section Subtraction.

Variable w : TimelineWidget.

Let primary : Segment := (start_time w, end_time w).

Lemma skip_is_not_overlaps (excl : Segment) :
  Qle_bool (snd excl) (start_time w) || Qle_bool (end_time w) (fst excl)
  = negb (PlannerSpec.overlaps primary excl).
Proof.
  unfold PlannerSpec.overlaps, Py.Qltb, primary. simpl.
  now rewrite negb_andb, !negb_involutive.
Qed.

(** The loop of the code, then its last test, is the walk of the planner
    started from the same cursor. *)
Lemma effective_fold (l : list Segment) :
  forall (acc : list Segment) (cur : Q),
    (let '(effective_segments, current_start) :=
       fold_left (effective_step w) l (acc, cur) in
     if Py.Qltb current_start (end_time w)
     then effective_segments ++ [(current_start, end_time w)]
     else effective_segments)
    = acc ++ PlannerSpec.walk primary cur l.
Proof.
  induction l as [|[es ee] l IH]; intros acc cur.
  - simpl. unfold PlannerSpec.emit.
    destruct (Py.Qltb cur (end_time w)); [reflexivity | now rewrite app_nil_r].
  - cbn [fold_left PlannerSpec.walk]. unfold effective_step at 2.
    pose proof (skip_is_not_overlaps (es, ee)) as Hs. simpl in Hs.
    rewrite Hs.
    destruct (PlannerSpec.overlaps primary (es, ee)); simpl negb; cbv iota.
    + rewrite IH. unfold PlannerSpec.clip, PlannerSpec.emit, primary. simpl.
      rewrite <- py_max_Qmax, <- py_min_Qmin.
      destruct (Py.Qltb cur (Py.max es (start_time w))); simpl.
      * now rewrite <- app_assoc.
      * reflexivity.
    + apply IH.
Qed.

Lemma get_effective_segments_walk :
  get_effective_segments w =
  PlannerSpec.effectiveSegments sorted primary (excluded_segments w).
Proof.
  unfold get_effective_segments, PlannerSpec.effectiveSegments.
  destruct (excluded_segments w) as [|x l] eqn:E; [reflexivity|].
  cbv zeta. rewrite effective_fold. reflexivity.
Qed.

End Subtraction.

Section WalkFacts.

Variables ps pe : Q.
Hypothesis primary_wf : ps < pe.

Lemma overlaps_iff (e : Segment) :
  PlannerSpec.overlaps (ps, pe) e = true <-> ps < snd e /\ fst e < pe.
Proof.
  unfold PlannerSpec.overlaps. simpl.
  now rewrite andb_true_iff, !Qltb_lt.
Qed.

Lemma overlaps_false_iff (e : Segment) :
  PlannerSpec.overlaps (ps, pe) e = false <-> snd e <= ps \/ pe <= fst e.
Proof.
  unfold PlannerSpec.overlaps. simpl.
  now rewrite andb_false_iff, !Qltb_ge.
Qed.

Lemma emit_nil (a b : Q) : b <= a -> PlannerSpec.emit a b = [].
Proof.
  intro H. unfold PlannerSpec.emit.
  destruct (Py.Qltb a b) eqn:E; auto. qprop. lra.
Qed.

Lemma emit_cons (a b : Q) : a < b -> PlannerSpec.emit a b = [(a, b)].
Proof.
  intro H. unfold PlannerSpec.emit.
  destruct (Py.Qltb a b) eqn:E; auto. qprop. lra.
Qed.

(** Exclusions that miss the primary range leave the walk where it is. *)
Lemma walk_outside (l : list Segment) (cur : Q) :
  Forall (fun e => snd e <= ps \/ pe <= fst e) l ->
  PlannerSpec.walk (ps, pe) cur l = PlannerSpec.emit cur pe.
Proof.
  induction 1 as [|e l He _ IH]; simpl; auto.
  apply overlaps_false_iff in He. now rewrite He.
Qed.

(** Once the cursor has reached the end of the primary range, exclusions
    that do not end inside it emit nothing. *)
Lemma walk_saturated (l : list Segment) :
  forall cur, pe <= cur ->
    Forall (fun e => PlannerSpec.overlaps (ps, pe) e = true -> pe <= snd e) l ->
    PlannerSpec.walk (ps, pe) cur l = [].
Proof.
  induction l as [|e l IH]; intros cur Hc Hl; simpl.
  - now apply emit_nil.
  - inversion Hl as [|? ? He Hl']; subst.
    destruct (PlannerSpec.overlaps (ps, pe) e) eqn:O.
    + specialize (He eq_refl). apply overlaps_iff in O.
      unfold PlannerSpec.clip. simpl.
      rewrite emit_nil, IH; auto.
      * apply Q.min_glb; lra.
      * apply Q.max_lub; lra.
    + auto.
Qed.

Lemma walk_covered (l : list Segment) :
  StronglySorted (fun a b => fst a <= fst b) l ->
  Exists (fun c => fst c <= ps /\ pe <= snd c) l ->
  Forall (fun e => PlannerSpec.overlaps (ps, pe) e = true -> pe <= snd e) l ->
  PlannerSpec.walk (ps, pe) ps l = [].
Proof.
  induction 1 as [|e l Hs IH He]; intros Hc Hl.
  - inversion Hc.
  - inversion Hl as [|? ? Hend Hl']; subst. simpl.
    destruct (PlannerSpec.overlaps (ps, pe) e) eqn:O.
    + specialize (Hend eq_refl). apply overlaps_iff in O.
      assert (Hes : fst e <= ps).
      { inversion Hc as [? ? [H1 _]|? ? Hc']; subst; auto.
        apply Exists_exists in Hc'. destruct Hc' as (c & Hin & Hc1 & _).
        rewrite Forall_forall in He. specialize (He c Hin). lra. }
      unfold PlannerSpec.clip. simpl.
      rewrite emit_nil, walk_saturated; auto.
      * apply Q.min_glb; lra.
      * apply Q.max_lub; lra.
    + apply IH; auto.
      inversion Hc as [? ? [H1 H2]|]; subst; auto.
      apply overlaps_false_iff in O. lra.
Qed.

End WalkFacts.

(** ** [merge_overlapping_segments] *)

Section Merging.

Lemma last_item_app {A} (l : list A) (x : A) : Py.last_item (l ++ [x]) = Some x.
Proof.
  induction l as [|y l IH]; simpl; auto.
  rewrite IH. destruct (l ++ [x]) eqn:E; auto.
  destruct l; discriminate.
Qed.

(** The fold over [merged] does what [merge_from] does with [merged[-1]]. *)
Lemma merge_fold (rest : list Segment) :
  forall (done : list Segment) (previous : Segment),
    fold_left merge_step rest (done ++ [previous])
    = done ++ merge_from previous rest.
Proof.
  induction rest as [|c rest IH]; intros done previous; simpl; auto.
  unfold merge_step at 2. rewrite last_item_app, removelast_last.
  destruct (Qle_bool (fst c) (snd previous)).
  - apply IH.
  - rewrite (IH (done ++ [previous]) c). now rewrite <- app_assoc.
Qed.

Lemma merge_overlapping_segments_eq (l : list Segment) :
  merge_overlapping_segments l =
  match sorted l with
  | [] => []
  | first :: rest => merge_from first rest
  end.
Proof.
  unfold merge_overlapping_segments.
  destruct l as [|x l]; [reflexivity|].
  destruct (sorted (x :: l)) as [|first rest]; auto.
  apply (merge_fold rest [] first).
Qed.

Lemma merge_from_not_nil (p : Segment) (rest : list Segment) :
  merge_from p rest <> [].
Proof.
  revert p. induction rest as [|c rest IH]; intro p; simpl; [discriminate|].
  destruct (Qle_bool (fst c) (snd p)); [apply IH | discriminate].
Qed.

(** Every merged range starts where a range it was built from starts, and
    ends no earlier than that range. *)
Lemma merge_from_origin (rest : list Segment) :
  forall (p o : Segment),
    In o (merge_from p rest) ->
    exists g, (g = p \/ In g rest) /\ fst o = fst g /\ snd g <= snd o.
Proof.
  induction rest as [|c rest IH]; intros p o Ho; simpl in Ho.
  - destruct Ho as [<-|[]]. exists p. split; auto. split; [reflexivity | lra].
  - destruct (Qle_bool (fst c) (snd p)) eqn:E.
    + apply IH in Ho. destruct Ho as (g & [->|Hg] & Hf & Hs).
      * exists p. simpl in *. split; auto. split; auto.
        destruct (py_max_spec (snd p) (snd c)) as [[? Hm]|[? Hm]];
          rewrite Hm in Hs; lra.
      * exists g. simpl. auto.
    + destruct Ho as [<-|Ho].
      * exists p. split; auto. split; [reflexivity | lra].
      * apply IH in Ho. destruct Ho as (g & Hg & Hf & Hs).
        exists g. simpl. split; auto. destruct Hg; auto.
Qed.


Lemma acc_le_fst (p r : Segment) : acc_le p r -> fst p <= fst r.
Proof. unfold acc_le, tuple_le. lra. Qed.

Lemma merge_from_separated (rest : list Segment) :
  forall p,
    Forall (fun r => fst p <= fst r) rest ->
    starts_sorted rest ->
    separated (merge_from p rest).
Proof.
  induction rest as [|c rest IH]; intros p Hp Hs; simpl.
  - repeat constructor.
  - inversion Hp as [|? ? Hpc Hp']; subst.
    inversion Hs as [|? ? Hs' Hc]; subst.
    destruct (Qle_bool (fst c) (snd p)) eqn:E; qprop.
    + apply IH; auto.
    + constructor; [apply IH; auto|].
      apply Forall_forall. intros o Ho.
      apply merge_from_origin in Ho. destruct Ho as (g & Hg & Hf & _).
      rewrite Hf. destruct Hg as [->|Hg]; auto.
      rewrite Forall_forall in Hc. specialize (Hc g Hg). simpl in Hc. lra.
Qed.

Lemma merge_from_lex (rest : list Segment) :
  forall p,
    Forall (acc_le p) rest ->
    StronglySorted tuple_le rest ->
    StronglySorted tuple_le (merge_from p rest).
Proof.
  induction rest as [|c rest IH]; intros p Hp Hs; simpl.
  - repeat constructor.
  - inversion Hp as [|? ? Hpc Hp']; subst.
    inversion Hs as [|? ? Hs' Hc]; subst.
    pose proof (acc_le_fst _ _ Hpc) as Hpc1.
    destruct (Qle_bool (fst c) (snd p)) eqn:E; qprop.
    + apply IH; auto.
      apply Forall_forall. intros r Hr. right. simpl.
      rewrite Forall_forall in Hc. specialize (Hc r Hr).
      apply tuple_le_fst in Hc.
      destruct (py_max_spec (snd p) (snd c)) as [[? Hm]|[? Hm]];
        rewrite Hm; lra.
    + constructor.
      * apply IH; auto.
        eapply Forall_impl; [|exact Hc]. intros r Hr. now left.
      * apply Forall_forall. intros o Ho.
        apply merge_from_origin in Ho. destruct Ho as (g & Hg & Hf & Hsnd).
        assert (Hpg : acc_le p g /\ fst c <= fst g).
        { destruct Hg as [->|Hg]; [split; [auto | lra]|].
          rewrite Forall_forall in Hp', Hc. split; auto.
          apply tuple_le_fst; auto. }
        destruct Hpg as [[Hpg|Hpg] Hcg]; unfold tuple_le in *; rewrite Hf; lra.
Qed.

Lemma merge_from_fixed (rest : list Segment) :
  forall p, separated (p :: rest) -> merge_from p rest = p :: rest.
Proof.
  induction rest as [|c rest IH]; intros p Hs; simpl; auto.
  inversion Hs as [|? ? Hs' Hp]; subst.
  inversion Hp as [|? ? Hpc _]; subst.
  destruct (Qle_bool (fst c) (snd p)) eqn:E; qprop; [simpl in Hpc; lra|].
  now rewrite IH.
Qed.

Lemma merge_from_covered (t : Q) (rest : list Segment) :
  forall p,
    Forall (fun r => fst p <= fst r) rest ->
    starts_sorted rest ->
    (covered t (merge_from p rest) <-> covered t (p :: rest)).
Proof.
  unfold covered.
  induction rest as [|c rest IH]; intros p Hp Hs; simpl; [reflexivity|].
  inversion Hp as [|? ? Hpc Hp']; subst.
  inversion Hs as [|? ? Hs' Hc]; subst.
  destruct (Qle_bool (fst c) (snd p)) eqn:E; qprop.
  - rewrite IH; auto. clear IH.
    destruct (py_max_spec (snd p) (snd c)) as [[Hlt Hm]|[Hle Hm]]; rewrite Hm.
    + split; intros (r & Hr & H1 & H2).
      * destruct Hr as [<-|Hr]; simpl in *.
        -- destruct (Qlt_le_dec (snd p) t).
           ++ exists c. split; auto. lra.
           ++ exists p. split; auto.
        -- exists r; simpl; tauto.
      * destruct Hr as [<-|[<-|Hr]].
        -- exists (fst p, snd c). simpl. split; auto. lra.
        -- exists (fst p, snd c). simpl. split; auto. lra.
        -- exists r; simpl; tauto.
    + split; intros (r & Hr & H1 & H2).
      * destruct Hr as [<-|Hr]; simpl in *.
        -- exists p; simpl; tauto.
        -- exists r; simpl; tauto.
      * destruct Hr as [<-|[<-|Hr]].
        -- exists (fst p, snd p); simpl; tauto.
        -- exists (fst p, snd p). simpl. split; auto. lra.
        -- exists r; simpl; tauto.
  - split; intros (r & Hr & H1 & H2).
    + destruct Hr as [<-|Hr]; [exists p; simpl; tauto|].
      destruct (proj1 (IH c Hc Hs')) as (r' & Hr' & ?); [exists r; simpl; tauto|].
      exists r'; simpl; tauto.
    + destruct Hr as [<-|Hr]; [exists p; simpl; tauto|].
      destruct (proj2 (IH c Hc Hs')) as (r' & Hr' & ?); [exists r; simpl; tauto|].
      exists r'; simpl; tauto.
Qed.

Lemma covered_perm (t : Q) (l l' : list Segment) :
  Permutation l l' -> covered t l -> covered t l'.
Proof.
  intros P (r & Hr & H). exists r. split; auto.
  eapply Permutation_in; eauto.
Qed.

Lemma sorted_cons_inv (x : Segment) (xs : list Segment) :
  StronglySorted tuple_le (x :: xs) ->
  Forall (acc_le x) xs /\ Forall (fun r => fst x <= fst r) xs
  /\ StronglySorted tuple_le xs /\ starts_sorted xs.
Proof.
  intro H. inversion H as [|? ? Hs Hx]; subst.
  repeat split; auto.
  - eapply Forall_impl; [|exact Hx]. intros r Hr. now left.
  - eapply Forall_impl; [|exact Hx]. apply tuple_le_fst.
  - eapply StronglySorted_weaken; [|exact Hs]. apply tuple_le_fst.
Qed.

Lemma merge_separated (l : list Segment) :
  separated (merge_overlapping_segments l).
Proof.
  rewrite merge_overlapping_segments_eq.
  pose proof (sorted_lex l) as H.
  destruct (sorted l) as [|x xs]; [constructor|].
  apply sorted_cons_inv in H. destruct H as (_ & H1 & _ & H2).
  now apply merge_from_separated.
Qed.

Lemma merge_lex (l : list Segment) :
  StronglySorted tuple_le (merge_overlapping_segments l).
Proof.
  rewrite merge_overlapping_segments_eq.
  pose proof (sorted_lex l) as H.
  destruct (sorted l) as [|x xs]; [constructor|].
  apply sorted_cons_inv in H. destruct H as (H1 & _ & H2 & _).
  now apply merge_from_lex.
Qed.

Lemma merge_idempotent (l : list Segment) :
  merge_overlapping_segments (merge_overlapping_segments l)
  = merge_overlapping_segments l.
Proof.
  rewrite (merge_overlapping_segments_eq (merge_overlapping_segments l)).
  rewrite (sorted_fixed _ (merge_lex l)).
  pose proof (merge_separated l) as H.
  destruct (merge_overlapping_segments l) as [|x xs]; auto.
  now apply merge_from_fixed.
Qed.

Lemma merge_covered (t : Q) (l : list Segment) :
  covered t (merge_overlapping_segments l) <-> covered t l.
Proof.
  rewrite merge_overlapping_segments_eq.
  pose proof (sorted_lex l) as H. pose proof (sorted_perm l) as P.
  destruct (sorted l) as [|x xs].
  - apply Permutation_nil in P. subst. reflexivity.
  - apply sorted_cons_inv in H. destruct H as (_ & H1 & _ & H2).
    rewrite merge_from_covered; auto.
    split; apply covered_perm; auto. now apply Permutation_sym.
Qed.

End Merging.

(** ** Subtraction of exclusions that were not merged *)

Section Unmerged.

Lemma segs_eq_refl (l : list Segment) : segs_eq l l.
Proof. induction l; constructor; auto. split; reflexivity. Qed.

Lemma segs_eq_app (a a' b b' : list Segment) :
  segs_eq a a' -> segs_eq b b' -> segs_eq (a ++ b) (a' ++ b').
Proof. apply Forall2_app. Qed.

Lemma segs_eq_trans (a b c : list Segment) :
  segs_eq a b -> segs_eq b c -> segs_eq a c.
Proof.
  intro H. revert c. induction H as [|x y a b Hxy _ IH]; intros c Hc;
    inversion Hc as [|y' z b' c' Hyz Hbc]; subst; constructor.
  - destruct Hxy, Hyz. split; etransitivity; eauto.
  - apply IH. exact Hbc.
Qed.

Lemma emit_proper (a a' b b' : Q) :
  a == a' -> b == b' ->
  segs_eq (PlannerSpec.emit a b) (PlannerSpec.emit a' b').
Proof.
  intros Ha Hb. unfold PlannerSpec.emit.
  destruct (Py.Qltb a b) eqn:E; destruct (Py.Qltb a' b') eqn:E'; qprop;
    try lra; repeat constructor; auto.
Qed.

Lemma walk_proper (primary : Segment) (l : list Segment) :
  forall cur cur', cur == cur' ->
    segs_eq (PlannerSpec.walk primary cur l) (PlannerSpec.walk primary cur' l).
Proof.
  induction l as [|e l IH]; intros cur cur' H; simpl.
  - apply emit_proper; [auto | reflexivity].
  - destruct (PlannerSpec.overlaps primary e); auto.
    apply segs_eq_app; [|apply segs_eq_refl].
    apply emit_proper; [auto | reflexivity].
Qed.

Variables ps pe : Q.
Hypothesis primary_wf : ps < pe.

(** Walking over two ranges that [merge_overlapping_segments] would join,
    the second ending no earlier than the first, is walking over their
    union. *)
Lemma walk_joined (x y : Segment) (m : Q) (l : list Segment) (cur : Q) :
  fst x <= fst y -> fst y <= snd x -> snd x <= snd y -> m == snd y ->
  segs_eq (PlannerSpec.walk (ps, pe) cur (x :: y :: l))
          (PlannerSpec.walk (ps, pe) cur ((fst x, m) :: l)).
Proof.
  intros H1 H2 H3 Hm. cbn [PlannerSpec.walk].
  destruct (PlannerSpec.overlaps (ps, pe) x) eqn:Ox;
    destruct (PlannerSpec.overlaps (ps, pe) y) eqn:Oy;
    destruct (PlannerSpec.overlaps (ps, pe) (fst x, m)) eqn:Om;
    repeat match goal with
    | H : PlannerSpec.overlaps _ _ = true |- _ =>
        apply overlaps_iff in H; simpl in H
    | H : PlannerSpec.overlaps _ _ = false |- _ =>
        apply overlaps_false_iff in H; simpl in H
    end; try lra; unfold PlannerSpec.clip; simpl.
  - (* both overlap the primary range *)
    apply segs_eq_app; [apply segs_eq_refl|].
    rewrite emit_nil.
    + apply walk_proper.
      qminmax; lra.
    + qminmax; lra.
  - (* only the first does: it reaches the end of the primary range *)
    apply segs_eq_app; [apply segs_eq_refl|].
    apply walk_proper.
    qminmax; lra.
  - (* only the second does: both start before the primary range *)
    apply segs_eq_app.
    + apply emit_proper; [reflexivity|].
      qminmax; lra.
    + apply walk_proper.
      qminmax; lra.
  - apply segs_eq_refl.
Qed.

Lemma walk_merge_from (xs : list Segment) :
  forall (x : Segment) (cur : Q),
    starts_sorted (x :: xs) -> ends_sorted (x :: xs) ->
    segs_eq (PlannerSpec.walk (ps, pe) cur (x :: xs))
            (PlannerSpec.walk (ps, pe) cur (merge_from x xs)).
Proof.
  induction xs as [|y ys IH]; intros x cur Hs He.
  - apply segs_eq_refl.
  - inversion Hs as [|? ? Hs' Hx]; subst.
    inversion He as [|? ? He' Hxe]; subst.
    inversion Hx as [|? ? Hxy Hx']; subst.
    inversion Hxe as [|? ? Hxye Hxe']; subst.
    inversion Hs' as [|? ? Hs'' Hy]; subst.
    inversion He' as [|? ? He'' Hye]; subst.
    cbn [merge_from].
    destruct (Qle_bool (fst y) (snd x)) eqn:E; qprop.
    + assert (Hm : Py.max (snd x) (snd y) == snd y).
      { destruct (py_max_spec (snd x) (snd y)) as [[? ->]|[? ->]]; lra. }
      eapply segs_eq_trans.
      * apply (walk_joined x y (Py.max (snd x) (snd y))); auto.
      * apply IH.
        -- constructor; auto.
        -- constructor; auto.
           eapply Forall_impl; [|exact Hye]. simpl. intros. lra.
    + cbn [PlannerSpec.walk].
      destruct (PlannerSpec.overlaps (ps, pe) x).
      * apply segs_eq_app; [apply segs_eq_refl|]. apply IH; auto.
      * apply IH; auto.
Qed.

End Unmerged.

(** ** Reasoning about runs *)

Lemma sat_ret {A} (P : Event -> Prop) (Q : A -> Prop) (x : A) : Q x -> run_sat P Q (ret x).
Proof. intro H. split; [constructor|]. simpl. intros y [= <-]. exact H. Qed.

Lemma sat_raise {A} (P : Event -> Prop) (Q : A -> Prop) (e : Exn) : run_sat P Q (raise e).
Proof. split; [constructor|]. simpl. discriminate. Qed.

Lemma sat_bind {A B} (P : Event -> Prop) (Q : A -> Prop) (R : B -> Prop) (m : Run A) (f : A -> Run B) :
  run_sat P Q m -> (forall x, Q x -> run_sat P R (f x)) ->
  run_sat P R (bind m f).
Proof.
  destruct m as [t [e|x]]; intros [Ht Hq] Hf; simpl in *.
  - split; [exact Ht | discriminate].
  - destruct (Hf x (Hq x eq_refl)) as [Ht' Hr].
    destruct (f x) as [t' r]; simpl in *.
    split; [apply Forall_app; auto | exact Hr].
Qed.

Lemma sat_try {A} (P : Event -> Prop) (Q : A -> Prop) (m : Run A) (h : Exn -> Run A) :
  run_sat P Q m -> (forall e, run_sat P Q (h e)) ->
  run_sat P Q (try_except m h).
Proof.
  destruct m as [t [e|x]]; intros [Ht Hq] Hh; simpl in *.
  - destruct (Hh e) as [Ht' Hr].
    destruct (h e) as [t' r]; simpl in *.
    split; [apply Forall_app; auto | exact Hr].
  - split; auto.
Qed.

Lemma sat_weaken {A} (P : Event -> Prop) (Q Q' : A -> Prop) (m : Run A) :
  (forall x, Q x -> Q' x) -> run_sat P Q m -> run_sat P Q' m.
Proof. intros H [Ht Hq]. split; auto. Qed.

Lemma sat_for_each {A B} (P : Event -> Prop) (I : B -> Prop) (body : B -> A -> Run B) (l : list A) :
  (forall b x, In x l -> I b -> run_sat P I (body b x)) ->
  forall b, I b -> run_sat P I (for_each body l b).
Proof.
  induction l as [|x l IH]; intros Hbody b Hb; simpl.
  - now apply sat_ret.
  - eapply sat_bind.
    + apply Hbody; simpl; auto.
    + intros b' Hb'. apply IH; auto. intros. apply Hbody; simpl; auto.
Qed.

Lemma sat_map_or_raise {A B} (P : Event -> Prop) (Q : B -> Prop) (f : A -> option B) (l : list A) :
  (forall x y, In x l -> f x = Some y -> Q y) ->
  run_sat P (fun ys => Forall Q ys /\ length ys = length l) (map_or_raise f l).
Proof.
  induction l as [|x l IH]; intro H; simpl.
  - apply sat_ret. auto.
  - destruct (f x) as [y|] eqn:E; [|apply sat_raise].
    eapply sat_bind; [apply IH; intros; eapply H; simpl; eauto|].
    intros ys [Hys Hlen]. apply sat_ret. split.
    + constructor; auto. eapply H; simpl; eauto.
    + simpl. now rewrite Hlen.
Qed.

Lemma sat_emit (P : Event -> Prop) (Q : unit -> Prop) (e : Event) :
  P e -> Q tt -> run_sat P Q (emit e).
Proof.
  intros He Hq. split; [repeat constructor; auto|].
  simpl. intros x [= <-]. exact Hq.
Qed.

Lemma sat_report (P : Event -> Prop) (cb : bool) (p : Z) :
  P (Progress p) -> run_sat P (fun _ => True) (report cb p).
Proof.
  intro H. unfold report. destruct cb; [apply sat_emit | apply sat_ret]; auto.
Qed.

Lemma sat_events {A} (P : Event -> Prop) (Q : A -> Prop) (m : Run A) :
  run_sat P Q m -> Forall P (fst m).
Proof. now intros [H _]. Qed.

Lemma sat_mimsave (P : Event -> Prop) (C : Collaborators)
    (frames : list Frame) (fps quality : Q) (loop : bool) :
  P (Mimsave frames fps (quantizer_of quality) (loop_param loop)) ->
  run_sat P (fun _ => True) (mimsave C frames fps quality loop).
Proof.
  intro H. unfold mimsave.
  apply (sat_bind _ (fun _ => True)); [apply sat_emit; [exact H | exact I]|].
  intros _ _. destruct (mimsave_returns _ _ _ _ _);
    [now apply sat_ret | apply sat_raise].
Qed.

Lemma sat_call_write_gif (P : Event -> Prop) (C : Collaborators)
    (clip : Clip) (call : Event) :
  P call -> run_sat P (fun _ => True) (call_write_gif C clip call).
Proof.
  intro H. unfold call_write_gif.
  apply (sat_bind _ (fun _ => True)); [apply sat_emit; [exact H | exact I]|].
  intros _ _. destruct (write_gif _ _ _); [now apply sat_ret | apply sat_raise].
Qed.

Lemma sat_make_clip (P : Event -> Prop) (C : Collaborators) (r : ClipRequest) :
  run_sat P (fun clip => open_clip C r = Some clip) (make_clip C r).
Proof.
  unfold make_clip. destruct (open_clip C r); [now apply sat_ret | apply sat_raise].
Qed.

Lemma sat_compute_frame_count (P : Event -> Prop) (d r s : Q) :
  run_sat P (fun n => n = frame_count d r s) (compute_frame_count d r s).
Proof.
  unfold compute_frame_count.
  destruct (Qeq_bool s 0); [apply sat_raise | now apply sat_ret].
Qed.

(** ** Frame sampling *)

Lemma py_int_floor (x : Q) : 0 <= x -> Py.int x = Qfloor x.
Proof.
  destruct x as [n d]. unfold Qle, Py.int, Qfloor. simpl. intro H.
  apply Z.quot_div_nonneg; lia.
Qed.

Lemma range_In (n f : Z) : In f (Py.range n) <-> (0 <= f < n)%Z.
Proof.
  unfold Py.range. rewrite in_map_iff. split.
  - intros (k & <- & Hk). apply in_seq in Hk. lia.
  - intros H. exists (Z.to_nat f). split; [lia|]. apply in_seq. lia.
Qed.






Lemma sample_times_index (d : Q) (n f : Z) (t : Q) :
  In (f, t) (sample_times d n) ->
  (0 <= f < n)%Z /\ t = inject_Z f * time_step d n /\ t <= d.
Proof.
  unfold sample_times. destruct (0 <? n)%Z; [|intros []].
  intro H. apply filter_In in H. destruct H as [H Ht].
  apply in_map_iff in H. destruct H as (f' & [= <- <-] & Hf).
  apply range_In in Hf. simpl in Ht. apply Qle_bool_iff in Ht. auto.
Qed.




Section SamplingInCreateGif.

Variable C : Collaborators.
Variable a : GifArgs.
Variable clip : Clip.

Hypothesis speed_positive : 0 < arg_speed_factor a.
Hypothesis frames_decode : forall t, clip_get_frame clip t <> None.
Hypothesis resize_returns : forall frame w h, cv2_resize C frame w h <> None.





End SamplingInCreateGif.

(** ** Progress percentages *)

Lemma inject_Z_nonneg (z : Z) : (0 <= z)%Z -> 0 <= inject_Z z.
Proof. intro H. change 0 with (inject_Z 0). now rewrite <- Zle_Qle. Qed.

Lemma Qdiv_nonneg (x y : Q) : 0 <= x -> 0 <= y -> 0 <= x / y.
Proof.
  intros Hx Hy. unfold Qdiv. apply Qmult_le_0_compat; auto.
  now apply Qinv_le_0_compat.
Qed.

Lemma py_int_nonneg (x : Q) : 0 <= x -> (0 <= Py.int x)%Z.
Proof.
  intro H. rewrite py_int_floor by assumption.
  change 0%Z with (Qfloor 0). now apply Qfloor_resp_le.
Qed.

Lemma py_int_nonpos (x : Q) : x <= 0 -> (Py.int x <= 0)%Z.
Proof.
  destruct x as [n d]. unfold Qle, Py.int. simpl. intro H.
  rewrite Z.mul_1_r in H.
  rewrite <- (Z.opp_involutive n), Z.quot_opp_l by discriminate.
  assert (0 <= Z.quot (- n) (Z.pos d))%Z by (apply Z.quot_pos; lia).
  lia.
Qed.

Lemma py_int_le (x : Q) (k : Z) : 0 <= x -> x <= inject_Z k -> (Py.int x <= k)%Z.
Proof.
  intros H0 H. rewrite py_int_floor by assumption.
  rewrite <- (Qfloor_Z k). now apply Qfloor_resp_le.
Qed.

(** [min(89, int(x))] for a percentage that is not negative. *)
Lemma capped_percent (x : Q) : 0 <= x -> (0 <= Z.min 89 (Py.int x) <= 100)%Z.
Proof. intro H. pose proof (py_int_nonneg x H). lia. Qed.

(** [int(i / len(segments) * 40)] for the index of a segment. *)
Lemma segment_start_percent (i n : Z) :
  (0 <= i < n)%Z -> (0 <= Py.int (inject_Z i / inject_Z n * 40) <= 100)%Z.
Proof.
  intro H.
  assert (Hi : 0 <= inject_Z i) by (apply inject_Z_nonneg; lia).
  assert (Hn : 0 < inject_Z n) by (change 0 with (inject_Z 0); rewrite <- Zlt_Qlt; lia).
  assert (Hin : inject_Z i <= inject_Z n) by (rewrite <- Zle_Qle; lia).
  assert (H0 : 0 <= inject_Z i / inject_Z n) by (apply Qdiv_nonneg; lra).
  assert (H1 : inject_Z i / inject_Z n <= 1) by (apply Qle_shift_div_r; lra).
  split.
  - apply py_int_nonneg. lra.
  - assert (Py.int (inject_Z i / inject_Z n * 40) <= 40)%Z.
    { apply py_int_le; [lra|]. change (inject_Z 40) with 40. lra. }
    lia.
Qed.

Lemma enumerate_index {A} (l : list A) (i : Z) (x : A) :
  In (i, x) (enumerate l) -> (0 <= i < Z.of_nat (length l))%Z.
Proof.
  unfold enumerate. intro H. apply in_combine_l in H.
  apply in_map_iff in H. destruct H as (k & <- & Hk).
  apply in_seq in Hk. lia.
Qed.

(** ** What [create_gif] emits *)

Lemma shape_eqb_eq (s1 s2 : Shape) : shape_eqb s1 s2 = true <-> s1 = s2.
Proof.
  destruct s1 as [[h1 w1] c1], s2 as [[h2 w2] c2]. simpl.
  rewrite !andb_true_iff, !Nat.eqb_eq.
  split; [intros [[-> ->] ->]; reflexivity | intros [= -> -> ->]; auto].
Qed.

Lemma shape_eqb_refl (s : Shape) : shape_eqb s s = true.
Proof. now apply shape_eqb_eq. Qed.

(** The pass before encoding starts with the first frame it is given and
    brings the others to its shape. *)
Lemma compatible_frames_uniform (C : Collaborators) (frames : list Frame) :
  resize_contract C ->
  Forall (fun frame => channels frame = 3%nat) frames ->
  uniform (compatible_frames C frames).
Proof.
  intros HR Hc. destruct frames as [|first rest]; [exact I|].
  unfold compatible_frames.
  set (g := fun frame : Frame => _).
  assert (Hall : Forall (fun frame => shape frame = shape first)
                   (flat_map g (first :: rest))).
  { apply Forall_forall. intros x Hx. apply in_flat_map in Hx.
    destruct Hx as (y & Hy & Hx). unfold g in Hx.
    destruct (shape_eqb (shape y) (shape first)) eqn:E.
    - destruct Hx as [<-|[]]. now apply shape_eqb_eq.
    - destruct (cv2_resize C y (width first) (height first)) eqn:R;
        [|inversion Hx].
      destruct Hx as [<-|[]]. apply HR in R. destruct R as (Rh & Rw & Rc).
      rewrite Forall_forall in Hc. unfold shape.
      rewrite Rh, Rw, Rc, (Hc y Hy), (Hc first); simpl; auto. }
  cbn [flat_map] in *. unfold g at 1 in Hall. unfold g at 1.
  rewrite shape_eqb_refl in *. simpl in *. exact Hall.
Qed.

Section CreateGifTrace.

Variable C : Collaborators.
Variable self : VideoProcessor.
Variable a : GifArgs.

(** The property of events to establish. *)
Variable P : Event -> Prop.

(** Progress values are within 0 and 100. *)
Hypothesis P_progress : forall p, (0 <= p <= 100)%Z -> P (Progress p).

Hypothesis P_write_optimized :
  P (WriteGifOptimized (arg_fps a) (fuzz_of (arg_quality a))
       (loop_param (arg_loop a))).

Hypothesis P_write_ffmpeg :
  P (WriteGifFfmpeg (arg_fps a) (loop_param (arg_loop a))).

(** Frames that went through the pass before encoding. *)
Hypothesis P_mimsave_checked :
  forall frames,
    frames <> [] ->
    (resize_contract C -> rgb_contract C -> uniform frames) ->
    P (Mimsave frames (arg_fps a) (quantizer_of (arg_quality a))
         (loop_param (arg_loop a))).

(** Frames of one clip, as read. *)
Hypothesis P_mimsave_direct :
  forall frames,
    frames <> [] ->
    (clip_size_contract C -> uniform frames) ->
    P (Mimsave frames (arg_fps a) (quantizer_of (arg_quality a))
         (loop_param (arg_loop a))).

Let rgb (frames : list Frame) : Prop :=
  resize_contract C -> rgb_contract C ->
  Forall (fun frame => channels frame = 3%nat) frames.

Lemma rgb_nil : rgb [].
Proof. intros _ _. constructor. Qed.

Lemma rgb_snoc (frames : list Frame) (frame : Frame) :
  rgb frames ->
  (resize_contract C -> rgb_contract C -> channels frame = 3%nat) ->
  rgb (frames ++ [frame]).
Proof.
  intros H Hf HR HG. apply Forall_app. split; auto.
Qed.

Lemma segment_frame_sat (r : ClipRequest) (clip : Clip) (i n count : Z)
    (d : Q) (frames : list Frame) (ft : Z * Q) :
  open_clip C r = Some clip -> rgb frames ->
  (0 <= i)%Z -> (0 <= n)%Z -> In ft (sample_times d count) ->
  run_sat P rgb (segment_frame C a clip i n count frames ft).
Proof.
  intros Ho Hf Hi Hn Hft. unfold segment_frame. destruct ft as [f t].
  apply sample_times_index in Hft. destruct Hft as (Hfc & _).
  assert (Hp : P (Progress
                    (Z.min 89
                       (Py.int (40 + (inject_Z i / inject_Z n
                                      + inject_Z f / inject_Z count / inject_Z n)
                                     * 50))))).
  { apply P_progress, capped_percent.
    pose proof (Qdiv_nonneg (inject_Z i) (inject_Z n)
                  (inject_Z_nonneg i Hi) (inject_Z_nonneg n Hn)) as Hin.
    assert (Hfc' : 0 <= inject_Z f / inject_Z count)
      by (apply Qdiv_nonneg; apply inject_Z_nonneg; lia).
    pose proof (Qdiv_nonneg _ (inject_Z n) Hfc' (inject_Z_nonneg n Hn)) as Hfn.
    lra. }
  destruct (clip_get_frame clip t) as [frame|] eqn:G; [|now apply sat_ret].
  match goal with |- context [if ?b then _ else _] => destruct b end.
  - destruct (cv2_resize C frame _ _) as [resized|] eqn:R; [|now apply sat_ret].
    eapply sat_bind; [apply sat_report, Hp|].
    intros _ _. apply sat_ret. apply rgb_snoc; auto.
    intros HR HG. apply HR in R. destruct R as (_ & _ & ->). eauto.
  - eapply sat_bind; [apply sat_report, Hp|].
    intros _ _. apply sat_ret. apply rgb_snoc; auto.
    intros HR HG. eauto.
Qed.

Lemma extract_segment_sat (r : ClipRequest) (clip : Clip) (i n : Z) :
  open_clip C r = Some clip -> (0 <= i)%Z -> (0 <= n)%Z ->
  run_sat P rgb (extract_segment C a clip i n).
Proof.
  intros Ho Hi Hn. unfold extract_segment.
  eapply sat_bind; [apply sat_compute_frame_count|].
  intros count _. apply sat_for_each; [|apply rgb_nil].
  intros. eapply segment_frame_sat; eauto.
Qed.

Lemma add_segment_frames_sat (all_frames segment_frames : list Frame) :
  rgb all_frames -> rgb segment_frames ->
  run_sat P rgb (add_segment_frames C all_frames segment_frames).
Proof.
  intros Ha Hs. unfold add_segment_frames.
  destruct segment_frames as [|first_frame rest]; [now apply sat_ret|].
  set (kept := filter _ (first_frame :: rest)).
  assert (Hk : rgb kept).
  { intros HR HG. specialize (Hs HR HG). rewrite Forall_forall in *.
    intros x Hx. apply Hs. unfold kept in Hx. apply filter_In in Hx. tauto. }
  clearbody kept. destruct kept as [|new_first kept']; [now apply sat_ret|].
  eapply (sat_bind _ rgb).
  - destruct all_frames as [|existing others]; [now apply sat_ret|].
    destruct (negb _); [|now apply sat_ret].
    eapply sat_weaken;
      [|apply (sat_map_or_raise P
                 (fun resized => exists frame,
                      In frame (new_first :: kept')
                      /\ cv2_resize C frame (width existing) (height existing)
                         = Some resized))].
    + intros ys [Hys _] HR HG. specialize (Hk HR HG).
      rewrite Forall_forall in *. intros y Hy.
      destruct (Hys y Hy) as (x & Hx & R).
      apply HR in R. destruct R as (_ & _ & ->). auto.
    + intros x y Hx R. eauto.
  - intros frames Hfr. apply sat_ret.
    intros HR HG. apply Forall_app. split; auto.
Qed.

Lemma process_segment_sat (n : Z) (all_frames : list Frame)
    (indexed : Z * Segment) :
  rgb all_frames -> (0 <= fst indexed < n)%Z ->
  run_sat P rgb (process_segment C a n all_frames indexed).
Proof.
  intros Ha Hi. unfold process_segment. destruct indexed as [i [s e]].
  simpl in Hi.
  eapply sat_bind.
  { apply sat_report, P_progress, segment_start_percent. exact Hi. }
  intros _ _.
  eapply sat_bind; [apply sat_make_clip|]. intros clip Ho. cbv beta in Ho.
  eapply sat_bind; [eapply extract_segment_sat; eauto; lia|]. intros frames Hf.
  now apply add_segment_frames_sat.
Qed.

Lemma collect_segments_sat (segments : list Segment) :
  run_sat P rgb (collect_segments C a segments).
Proof.
  unfold collect_segments. apply sat_for_each; [|apply rgb_nil].
  intros b [i seg] Hin Hb. apply process_segment_sat; auto.
  simpl. eapply enumerate_index; eauto.
Qed.

Lemma encode_checked_sat (frames : list Frame) (before : Z) :
  rgb frames -> (0 <= before <= 100)%Z ->
  run_sat P (fun _ : bool => True)
    match compatible_frames C frames with
    | [] => ret false
    | (_ :: _) as checked =>
        report (arg_progress_callback a) before ;;
        mimsave C checked (arg_fps a) (arg_quality a) (arg_loop a) ;;
        report (arg_progress_callback a) 100 ;;
        ret true
    end.
Proof.
  intros Hf Hb.
  pose proof (fun HR HG => compatible_frames_uniform C frames HR (Hf HR HG)) as U.
  destruct (compatible_frames C frames) as [|x l]; [now apply sat_ret|].
  eapply sat_bind; [apply sat_report, P_progress, Hb|]. intros _ _.
  eapply sat_bind; [apply sat_mimsave, P_mimsave_checked; [discriminate | exact U]|].
  intros _ _.
  eapply sat_bind; [apply sat_report, P_progress; lia|]. intros _ _.
  now apply sat_ret.
Qed.

Lemma encode_segments_sat (all_frames : list Frame) :
  rgb all_frames ->
  run_sat P (fun _ => True) (encode_segments C a all_frames).
Proof.
  intro Hf. unfold encode_segments.
  destruct all_frames as [|x l]; [now apply sat_ret|].
  apply encode_checked_sat; [assumption | lia].
Qed.

Lemma create_gif_segments_sat (segments : list Segment) :
  run_sat P (fun _ => True) (create_gif_segments C a segments).
Proof.
  unfold create_gif_segments. apply sat_try.
  - eapply sat_bind; [apply collect_segments_sat|].
    intros. now apply encode_segments_sat.
  - intros _. now apply sat_ret.
Qed.

Lemma speed_frame_sat (r : ClipRequest) (clip : Clip) (correct : Shape)
    (count : Z) (d : Q) (frames : list Frame) (ft : Z * Q) :
  open_clip C r = Some clip -> rgb frames ->
  In ft (sample_times d count) ->
  run_sat P rgb (speed_frame C a clip correct count frames ft).
Proof.
  intros Ho Hf Hft. unfold speed_frame. destruct ft as [f t].
  apply sample_times_index in Hft. destruct Hft as (Hfc & _).
  assert (Hp : P (Progress
                    (Z.min 89 (Py.int (30 + inject_Z f / inject_Z count * 60))))).
  { apply P_progress, capped_percent.
    assert (0 <= inject_Z f / inject_Z count)
      by (apply Qdiv_nonneg; apply inject_Z_nonneg; lia).
    lra. }
  destruct (clip_get_frame clip t) as [frame|] eqn:G; [|now apply sat_ret].
  destruct (negb _).
  - destruct (cv2_resize C frame _ _) as [resized|] eqn:R; [|now apply sat_ret].
    eapply sat_bind; [apply sat_report, Hp|].
    intros _ _. apply sat_ret. apply rgb_snoc; auto.
    intros HR HG. apply HR in R. destruct R as (_ & _ & ->). eauto.
  - eapply sat_bind; [apply sat_report, Hp|].
    intros _ _. apply sat_ret. apply rgb_snoc; auto.
    intros HR HG. eauto.
Qed.

Lemma extract_with_speed_sat (r : ClipRequest) (clip : Clip) (d : Q) :
  open_clip C r = Some clip ->
  run_sat P rgb (extract_with_speed C a clip d).
Proof.
  intro Ho. unfold extract_with_speed.
  apply (sat_bind _ (fun _ => True)).
  { destruct (clip_get_frame clip 0); [now apply sat_ret | apply sat_raise]. }
  intros sample _.
  eapply sat_bind; [apply sat_compute_frame_count|].
  intros count _. apply sat_for_each; [|apply rgb_nil].
  intros. eapply speed_frame_sat; eauto.
Qed.

Lemma speed_branch_sat (r : ClipRequest) (clip : Clip) (d : Q) :
  open_clip C r = Some clip ->
  run_sat P (fun _ => True) (speed_branch C a clip d).
Proof.
  intro Ho. unfold speed_branch.
  eapply sat_bind; [eapply extract_with_speed_sat; eauto|].
  intros frames Hf. destruct frames as [|x l]; [now apply sat_ret|].
  apply encode_checked_sat; [assumption | lia].
Qed.

(** The frames the last resort has read all come from its clip. *)
Let from_clip (clip : Clip) (frames : list Frame) : Prop :=
  Forall (fun frame => exists t, clip_get_frame clip t = Some frame) frames.

Lemma direct_frame_sat (clip : Clip) (frames : list Frame) (t : Z) :
  from_clip clip frames ->
  In t (Py.range (Py.int (Py.fmul (clip_duration clip) (arg_fps a)))) ->
  run_sat P (from_clip clip) (direct_frame a clip frames t).
Proof.
  intros Hf Ht. unfold direct_frame. apply range_In in Ht.
  destruct (Qle_bool _ _); [|now apply sat_ret].
  destruct (clip_get_frame clip _) as [frame|] eqn:G; [|apply sat_raise].
  eapply sat_bind.
  { apply sat_report, P_progress, capped_percent.
    assert (0 <= clip_duration clip * arg_fps a).
    { destruct (Qlt_le_dec (clip_duration clip * arg_fps a) 0) as [Hneg|]; auto.
      pose proof (py_int_nonpos _ (Qlt_le_weak _ _ (fmul_neg _ _ Hneg))).
      lia. }
    assert (0 <= inject_Z t / (clip_duration clip * arg_fps a))
      by (apply Qdiv_nonneg; auto; apply inject_Z_nonneg; lia).
    lra. }
  intros _ _. apply sat_ret. apply Forall_app. split; auto.
  constructor; eauto.
Qed.

Lemma from_clip_uniform (r : ClipRequest) (clip : Clip) (frames : list Frame) :
  open_clip C r = Some clip -> from_clip clip frames ->
  clip_size_contract C -> uniform frames.
Proof.
  intros Ho Hf HS. destruct frames as [|first rest]; [exact I|].
  simpl. inversion Hf as [|? ? [t0 G0] _]; subst.
  eapply Forall_impl; [|exact Hf].
  intros frame [t G]. eapply HS; eauto.
Qed.

Lemma direct_imageio_sat (r : ClipRequest) (clip : Clip) :
  open_clip C r = Some clip ->
  run_sat P (fun _ => True) (direct_imageio C a clip).
Proof.
  intro Ho. unfold direct_imageio. apply sat_try; [|intros; now apply sat_ret].
  apply (sat_bind _ (from_clip clip)).
  - apply sat_for_each; [|constructor].
    intros. now apply direct_frame_sat.
  - intros frames Hf. destruct frames as [|x l]; [now apply sat_ret|].
    eapply sat_bind.
    + apply sat_mimsave, P_mimsave_direct; [discriminate|].
      eapply from_clip_uniform; eauto.
    + intros _ _. eapply sat_bind; [apply sat_report, P_progress; lia|].
      intros _ _. now apply sat_ret.
Qed.

Lemma standard_methods_sat (r : ClipRequest) (clip : Clip) :
  open_clip C r = Some clip ->
  run_sat P (fun _ => True) (standard_methods C a clip).
Proof.
  intro Ho. unfold standard_methods.
  eapply sat_bind; [apply sat_report, P_progress; lia|]. intros _ _.
  apply (sat_bind _ (fun _ => True)).
  - apply sat_try.
    + eapply sat_bind; [apply sat_call_write_gif, P_write_optimized|].
      intros _ _. eapply sat_bind; [apply sat_report, P_progress; lia|].
      intros _ _. now apply sat_ret.
    + intros [|]; [|apply sat_raise].
      apply sat_try.
      * eapply sat_bind; [apply sat_call_write_gif, P_write_ffmpeg|].
        intros _ _. eapply sat_bind; [apply sat_report, P_progress; lia|].
        intros _ _. now apply sat_ret.
      * intros _. eapply direct_imageio_sat; eauto.
  - intros [|] _; [|now apply sat_ret].
    eapply sat_bind; [apply sat_report, P_progress; lia|].
    intros _ _. now apply sat_ret.
Qed.

Lemma create_gif_single_sat :
  run_sat P (fun _ => True) (create_gif_single C self a).
Proof.
  unfold create_gif_single.
  eapply sat_bind; [apply sat_make_clip|]. intros clip Ho. cbv beta in Ho.
  apply (sat_bind _ (fun _ => True)).
  - destruct (negb (Qeq_bool _ _)); [|now apply sat_ret].
    eapply speed_branch_sat; eauto.
  - intros [|] _; [now apply sat_ret|].
    eapply standard_methods_sat; eauto.
Qed.

Lemma create_gif_sat : run_sat P (fun _ => True) (create_gif C self a).
Proof.
  unfold create_gif. destruct (negb _); [now apply sat_ret|].
  apply sat_try; [|intros; now apply sat_ret].
  destruct (video_path_exists self); [|now apply sat_ret].
  destruct (arg_segments a).
  - apply create_gif_single_sat.
  - apply create_gif_segments_sat.
Qed.

End CreateGifTrace.

(** ** The quantizer against the exact value *)

(** [int] of a number between -1 and 0 is 0. *)
Lemma py_int_small (x : Q) : - (1) < x -> x <= 0 -> Py.int x = 0%Z.
Proof.
  intros L U. pose proof (py_int_nonpos x U) as H.
  destruct x as [n d]. unfold Py.int, Qlt, Qle in *. simpl in *.
  assert (Hn : (- Z.pos d < n)%Z) by lia.
  assert (Hn' : (n <= 0)%Z) by lia.
  rewrite <- (Z.opp_involutive n), Z.quot_opp_l by discriminate.
  rewrite Z.quot_small; lia.
Qed.

(** The roundings of [100 - quality * 100] (of the operands, of the product
    and of the difference) move the value by less than [2^-43], for a
    quality between 0 and 1. *)
Lemma quantizer_near (quality : Q) :
  0 <= quality -> quality <= 1 ->
  (Qfloor (100 - quality * 100 - (1 # 8796093022208))
   <= quantizer_of quality
   <= Qfloor (100 - quality * 100 + (1 # 8796093022208)))%Z.
Proof.
  intros H0 H1. unfold quantizer_of, Py.fsub, Py.fmul.
  destruct eps_range as [E0 E1].
  assert (One : 0 <= 1) by lra.
  assert (Hh : 0 <= 100) by lra.
  destruct (fl_sandwich quality quality 1 1 H0 One) as [A1 A2]; try lra.
  destruct (fl_sandwich 100 100 1 1 Hh One) as [B1 B2]; try lra.
  assert (L1 : 0 <= 1 * (1 - Py.eps)) by lra.
  destruct (mul_sandwich quality 100 (Py.fl quality) (Py.fl 100) _ _ _ _
              H0 Hh L1 L1 A1 A2 B1 B2) as [M1 M2].
  assert (Hq : 0 <= quality * 100) by lra.
  assert (L2 : 0 <= 1 * (1 - Py.eps) * (1 * (1 - Py.eps)))
    by (apply Qmult_le_0_compat; lra).
  destruct (fl_sandwich (quality * 100) _ _ _ Hq L2 M1 M2) as [P1 P2].
  assert (L3 : 0 <= 1 * (1 - Py.eps) * (1 * (1 - Py.eps)) * (1 - Py.eps))
    by (apply Qmult_le_0_compat; lra).
  destruct (fl_sandwich (quality * 100) _ _ _ Hq L3 P1 P2) as [Q1 Q2].
  set (m := Py.fl (Py.fl (Py.fl quality * Py.fl 100))) in *.
  set (h := Py.fl 100) in *.
  set (lo := 1 * (1 - Py.eps) * (1 * (1 - Py.eps)) * (1 - Py.eps)
             * (1 - Py.eps)) in *.
  set (hi := 1 * (1 + Py.eps) * (1 * (1 + Py.eps)) * (1 + Py.eps)
             * (1 + Py.eps)) in *.
  assert (Klo : 1 - (5 # 9007199254740992) <= lo) by (vm_compute; discriminate).
  assert (Khi : hi <= 1 + (5 # 9007199254740992)) by (vm_compute; discriminate).
  assert (Plo : 0 <= (quality * 100) * (lo - (1 - (5 # 9007199254740992))))
    by (apply Qmult_le_0_compat; lra).
  assert (Phi : 0 <= (quality * 100) * (1 + (5 # 9007199254740992) - hi))
    by (apply Qmult_le_0_compat; lra).
  pose proof (fl_error (h - m)) as Ev.
  set (v := Py.fl (h - m)) in *.
  unfold Py.eps in *.
  assert (Hd : Qabs (h - m) <= 101).
  { apply Qabs_Qle_condition. split; lra. }
  assert (Ev' : Qabs (v - (h - m)) <= 101 * (1 # 9007199254740992)).
  { eapply Qle_trans; [exact Ev|]. apply Qmult_le_compat_r; [exact Hd|].
    discriminate. }
  apply Qabs_Qle_condition in Ev'.
  set (x := 100 - quality * 100).
  assert (Hx : 0 <= x) by (unfold x; lra).
  assert (A : x - (1 # 8796093022208) <= v) by (unfold x; lra).
  assert (B : v <= x + (1 # 8796093022208)) by (unfold x; lra).
  destruct (Qlt_le_dec v 0) as [Neg|Pos].
  - rewrite py_int_small by lra. split.
    + assert (Qfloor (x - (1 # 8796093022208)) <= Qfloor v)%Z
        by now apply Qfloor_resp_le.
      assert (Qfloor v < 0)%Z.
      { pose proof (Qfloor_le v) as F. rewrite Zlt_Qlt.
        change (inject_Z 0) with 0. lra. }
      lia.
    + change 0%Z with (Qfloor 0). apply Qfloor_resp_le. lra.
  - rewrite (py_int_floor v Pos). split; now apply Qfloor_resp_le.
Qed.

(** ** [generate_preview]: termination and result *)

Section PreviewFacts.

Variable C : Collaborators.
Variable self : VideoProcessor.
Variable a : PreviewArgs.

Lemma inject_Z_succ_nat (k : nat) :
  inject_Z (Z.of_nat (S k)) == inject_Z (Z.of_nat k) + 1.
Proof.
  rewrite Nat2Z.inj_succ. unfold Z.succ. rewrite inject_Z_plus. reflexivity.
Qed.

(** More turns than needed change nothing. *)
Lemma preview_loop_more (n : nat) :
  forall m end_frame desired step cur count frames r,
    (n <= m)%nat ->
    preview_loop C a n end_frame desired step cur count frames = Some r ->
    preview_loop C a m end_frame desired step cur count frames = Some r.
Proof.
  induction n as [|n IH]; intros m end_frame desired step cur count frames r Hm H;
    [discriminate|].
  destruct m as [|m]; [lia|]. simpl in *.
  destruct (Py.Qltb cur (inject_Z end_frame) && (count <? desired)%Z); auto.
  destruct (cap_read C (Py.int cur)) as [frame|].
  - destruct (apply_processing C frame _ _); auto. apply IH; auto. lia.
  - apply IH; auto. lia.
Qed.

(** With a positive step the loop ends within the turns it takes the
    position to reach the end frame. *)
Lemma preview_loop_ends (k : nat) :
  forall end_frame desired step cur count frames,
    0 < step ->
    inject_Z end_frame - cur <= inject_Z (Z.of_nat k) * step ->
    exists r,
      preview_loop C a (S k) end_frame desired step cur count frames = Some r.
Proof.
  induction k as [|k IH]; intros end_frame desired step cur count frames Hs Hk.
  - simpl. destruct (Py.Qltb cur (inject_Z end_frame)) eqn:E; simpl; eauto.
    qprop. change (inject_Z (Z.of_nat 0)) with 0 in Hk. lra.
  - cbn [preview_loop].
    destruct (Py.Qltb cur (inject_Z end_frame) && (count <? desired)%Z); eauto.
    assert (Hk' : inject_Z end_frame - (cur + step)
                  <= inject_Z (Z.of_nat k) * step).
    { pose proof (inject_Z_succ_nat k) as Hi.
      change (Z.pos (Pos.of_succ_nat k)) with (Z.of_nat (S k)) in Hk.
      rewrite Hi in Hk. lra. }
    destruct (cap_read C (Py.int cur)) as [frame|].
    + destruct (apply_processing C frame _ _); eauto.
    + eauto.
Qed.

Lemma turns_to_reach (x step : Q) :
  0 < step -> exists k : nat, x <= inject_Z (Z.of_nat k) * step.
Proof.
  intro Hs. exists (Z.to_nat (Qceiling (x / step))).
  pose proof (Qle_ceiling (x / step)) as Hc.
  assert (Hx : x == x / step * step) by (field; lra).
  destruct (Z_le_gt_dec 0 (Qceiling (x / step))) as [Hp|Hn].
  - rewrite Z2Nat.id by assumption. rewrite Hx at 1.
    apply Qmult_le_compat_r; lra.
  - replace (Z.to_nat (Qceiling (x / step))) with 0%nat by lia.
    simpl. assert (inject_Z (Qceiling (x / step)) <= 0).
    { change 0 with (inject_Z 0). rewrite <- Zle_Qle. lia. }
    rewrite Hx. rewrite Qmult_0_l.
    assert (x / step <= 0) by lra.
    setoid_replace 0 with (0 * step) by ring.
    apply Qmult_le_compat_r; lra.
Qed.

Hypothesis speed_positive : 0 < pv_speed_factor a.

Lemma preview_range_ends (range_start range_end : Q) :
  exists turns, forall frames,
    exists r, preview_range C self a turns range_start range_end frames = Some r.
Proof.
  unfold preview_range.
  set (start_frame := Py.int (range_start * source_fps self)).
  set (end_frame := Py.int (range_end * source_fps self)).
  set (desired := Py.int ((range_end - range_start) * pv_fps a)).
  set (step := preview_frame_step a (end_frame - start_frame) desired).
  destruct (Z_lt_le_dec 0 desired) as [Hd|Hd];
    [destruct (Z_lt_le_dec start_frame end_frame) as [Ht|Ht]|].
  - assert (Hstep : 0 < step).
    { unfold step, preview_frame_step.
      apply Z.ltb_lt in Hd. rewrite Hd. apply Z.ltb_lt in Hd.
      assert (0 < inject_Z (end_frame - start_frame))
        by (change 0 with (inject_Z 0); rewrite <- Zlt_Qlt; lia).
      assert (0 < inject_Z desired)
        by (change 0 with (inject_Z 0); rewrite <- Zlt_Qlt; lia).
      apply Qmult_lt_0_compat; auto.
      apply Qlt_shift_div_l; [assumption | lra]. }
    destruct (turns_to_reach (inject_Z end_frame - inject_Z start_frame) step Hstep)
      as [k Hk].
    exists (S k). intro frames. now apply preview_loop_ends.
  - exists 1%nat. intro frames. simpl.
    assert (E : Py.Qltb (inject_Z start_frame) (inject_Z end_frame) = false).
    { apply Qltb_ge. rewrite <- Zle_Qle. lia. }
    rewrite E. simpl. eauto.
  - exists 1%nat. intro frames. simpl.
    assert (E : (0 <? desired)%Z = false) by (apply Z.ltb_ge; lia).
    rewrite E, andb_false_r. eauto.
Qed.

Lemma preview_range_more (n m : nat) (s e : Q) (frames : list Frame) r :
  (n <= m)%nat ->
  preview_range C self a n s e frames = Some r ->
  preview_range C self a m s e frames = Some r.
Proof. unfold preview_range. intros. eapply preview_loop_more; eauto. Qed.

Lemma preview_segments_ends (segments : list Segment) :
  exists turns, forall frames,
    exists r, preview_segments C self a turns segments frames = Some r.
Proof.
  induction segments as [|[s e] rest [n1 IH]].
  - exists 0%nat. simpl. eauto.
  - destruct (preview_range_ends s e) as [n2 H2].
    exists (Nat.max n1 n2). intro frames. simpl.
    destruct (H2 frames) as [r Hr].
    rewrite (preview_range_more n2 (Nat.max n1 n2) s e frames r) by (auto; lia).
    destruct r as [ex|frames']; eauto.
    clear Hr. revert frames'.
    assert (forall n m segs fr r,
              (n <= m)%nat ->
              preview_segments C self a n segs fr = Some r ->
              preview_segments C self a m segs fr = Some r) as Hmore.
    { intros n m segs. induction segs as [|[s' e'] segs IHs]; intros fr r Hnm H;
        simpl in *; auto.
      destruct (preview_range C self a n s' e' fr) as [[ex|fr']|] eqn:E;
        try discriminate.
      - rewrite (preview_range_more n m s' e' fr _ Hnm E). exact H.
      - rewrite (preview_range_more n m s' e' fr _ Hnm E). eauto. }
    intro frames'. destruct (IH frames') as [r Hr].
    exists r. eapply Hmore; [|exact Hr]. lia.
Qed.

End PreviewFacts.

Section PreviewResult.

Variable C : Collaborators.
Variable self : VideoProcessor.
Variable a : PreviewArgs.

Lemma generate_preview_not_loaded (turns : nat) :
  cap_opened self = false ->
  generate_preview C self a turns = Some (inr (BareList [])).
Proof. intro H. unfold generate_preview. now rewrite H. Qed.

Lemma generate_preview_pair (turns : nat) (v : PreviewValue) :
  cap_opened self = true ->
  generate_preview C self a turns = Some (inr v) ->
  exists frames, v = Pair frames (pv_fps a * pv_speed_factor a).
Proof.
  intro H. unfold generate_preview. rewrite H. simpl.
  match goal with |- context [match ?m with _ => _ end = _] => destruct m as [[e|frames]|] end;
    try discriminate.
  intros [= <-]. eauto.
Qed.

Lemma generate_preview_ends :
  cap_opened self = true -> 0 < pv_speed_factor a ->
  exists turns,
    (exists frames,
        generate_preview C self a turns
        = Some (inr (Pair frames (pv_fps a * pv_speed_factor a))))
    \/ (exists e, generate_preview C self a turns = Some (inl e)).
Proof.
  intros H Hs. unfold generate_preview. rewrite H. simpl.
  destruct (pv_segments a) as [|seg rest] eqn:E.
  - destruct (preview_range_ends C self a Hs (pv_start_time a) (pv_end_time a))
      as [n Hn].
    exists n. destruct (Hn []) as [[e|frames] ->]; eauto.
  - destruct (preview_segments_ends C self a Hs (seg :: rest)) as [n Hn].
    exists n. destruct (Hn []) as [[e|frames] ->]; eauto.
Qed.

(** Frames are never refused when [cv2.resize] always returns. *)
Lemma preview_loop_no_raise (n : nat) :
  (forall frame w h, cv2_resize C frame w h <> None) ->
  forall end_frame desired step cur count frames e,
    preview_loop C a n end_frame desired step cur count frames <> Some (inl e).
Proof.
  intro HR. induction n as [|n IH]; intros; simpl; [discriminate|].
  destruct (_ && _); [|discriminate].
  destruct (cap_read C (Py.int cur)) as [frame|]; [|apply IH].
  unfold apply_processing.
  destruct (pv_dimensions a) as [tw th].
  match goal with |- context [if ?b then _ else _] => destruct b end.
  - match goal with |- context [cv2_resize C ?f ?w ?h] =>
      destruct (cv2_resize C f w h) eqn:R; [apply IH | now apply HR in R] end.
  - apply IH.
Qed.

Lemma preview_segments_no_raise (n : nat) (segments : list Segment) :
  (forall frame w h, cv2_resize C frame w h <> None) ->
  forall frames e,
    preview_segments C self a n segments frames <> Some (inl e).
Proof.
  intro HR. induction segments as [|[s e'] rest IH]; intros frames e; simpl;
    [discriminate|].
  destruct (preview_range C self a n s e' frames) as [[ex|fr]|] eqn:E;
    try discriminate; auto.
  unfold preview_range in E. now apply preview_loop_no_raise in E.
Qed.

Lemma generate_preview_returns :
  cap_opened self = true -> 0 < pv_speed_factor a ->
  (forall frame w h, cv2_resize C frame w h <> None) ->
  exists turns frames,
    generate_preview C self a turns
    = Some (inr (Pair frames (pv_fps a * pv_speed_factor a))).
Proof.
  intros H Hs HR.
  destruct (generate_preview_ends H Hs) as [n [[frames Hn]|[e Hn]]]; eauto.
  exfalso. unfold generate_preview in Hn. rewrite H in Hn. simpl in Hn.
  destruct (pv_segments a) as [|seg rest].
  - destruct (preview_range C self a n _ _ []) as [[ex|fr]|] eqn:E;
      try discriminate.
    unfold preview_range in E. now apply preview_loop_no_raise in E.
  - destruct (preview_segments C self a n (seg :: rest) []) as [[ex|fr]|] eqn:E;
      try discriminate.
    now apply preview_segments_no_raise in E.
Qed.

End PreviewResult.

(** ** Progress reporting: what holds on every run *)

Lemma ends_bind {A} (m : Run A) (f : A -> Run bool) :
  (forall x, ends_at_100 (f x)) -> ends_at_100 (bind m f).
Proof.
  intro Hf. destruct m as [t [e|x]]; unfold ends_at_100; simpl; [discriminate|].
  specialize (Hf x). unfold ends_at_100 in Hf.
  destruct (f x) as [t' r]; simpl in *.
  intro Hr. destruct (Hf Hr) as [t0 ->]. exists (t ++ t0). now rewrite app_assoc.
Qed.

Lemma ends_try (m : Run bool) (h : Exn -> Run bool) :
  ends_at_100 m -> (forall e, ends_at_100 (h e)) -> ends_at_100 (try_except m h).
Proof.
  intros Hm Hh. destruct m as [t [e|x]]; unfold ends_at_100 in *; simpl in *.
  - specialize (Hh e). destruct (h e) as [t' r]; simpl in *.
    intro Hr. destruct (Hh Hr) as [t0 ->]. exists (t ++ t0). now rewrite app_assoc.
  - exact Hm.
Qed.

Lemma ends_ret_false : ends_at_100 (ret false).
Proof. unfold ends_at_100. simpl. discriminate. Qed.

Lemma ends_raise (e : Exn) : ends_at_100 (raise e).
Proof. unfold ends_at_100. simpl. discriminate. Qed.

Lemma ends_report_100 : ends_at_100 (report true 100 ;; ret true).
Proof. intros _. exists []. reflexivity. Qed.

(** [if returned: return True] after a block that ends at 100. *)
Lemma ends_or_else (m k : Run bool) :
  ends_at_100 m -> ends_at_100 k ->
  ends_at_100 (returned <- m ;; if returned : bool then ret true else k).
Proof.
  intros Hm Hk. destruct m as [t [e|[|]]]; unfold ends_at_100 in *; simpl in *.
  - discriminate.
  - intros _. destruct (Hm eq_refl) as [t0 ->]. exists t0. now rewrite app_nil_r.
  - destruct k as [t' r]; simpl in *. intro Hr.
    destruct (Hk Hr) as [t0 ->]. exists (t ++ t0). now rewrite app_assoc.
Qed.

Section ProgressFacts.

Variable C : Collaborators.
Variable self : VideoProcessor.
Variable a : GifArgs.

Lemma create_gif_progress_in_range :
  Forall (fun p => (0 <= p <= 100)%Z) (progress_values (fst (create_gif C self a))).
Proof.
  assert (H : Forall (fun e => match e with
                               | Progress p => (0 <= p <= 100)%Z
                               | _ => True
                               end) (fst (create_gif C self a))).
  { eapply sat_events. apply create_gif_sat; simpl; auto. }
  induction H as [|e t He _ IH]; simpl; [constructor|].
  destruct e; simpl; auto.
Qed.

(** Without a loaded video, or without the file, nothing is reported. *)
Lemma create_gif_early_failure :
  cap_opened self = false \/ video_path_exists self = false ->
  create_gif C self a = ([], inr false).
Proof.
  unfold create_gif. intros [H|H]; rewrite H; simpl; auto.
  destruct (cap_opened self); reflexivity.
Qed.

Hypothesis with_callback : arg_progress_callback a = true.

Lemma encode_ends (frames : list Frame) (before : Z) :
  ends_at_100
    match compatible_frames C frames with
    | [] => ret false
    | (_ :: _) as checked =>
        report (arg_progress_callback a) before ;;
        mimsave C checked (arg_fps a) (arg_quality a) (arg_loop a) ;;
        report (arg_progress_callback a) 100 ;;
        ret true
    end.
Proof.
  destruct (compatible_frames C frames); [apply ends_ret_false|].
  apply ends_bind. intros _. apply ends_bind. intros _.
  rewrite with_callback. apply ends_report_100.
Qed.

Lemma create_gif_segments_ends (segments : list Segment) :
  ends_at_100 (create_gif_segments C a segments).
Proof.
  unfold create_gif_segments. apply ends_try; [|intro; apply ends_ret_false].
  apply ends_bind. intros frames. unfold encode_segments.
  destruct frames; [apply ends_ret_false | apply encode_ends].
Qed.

Lemma speed_branch_ends (clip : Clip) (d : Q) :
  ends_at_100 (speed_branch C a clip d).
Proof.
  unfold speed_branch. apply ends_bind. intros frames.
  destruct frames; [apply ends_ret_false | apply encode_ends].
Qed.

Lemma standard_methods_ends (clip : Clip) :
  ends_at_100 (standard_methods C a clip).
Proof.
  unfold standard_methods. apply ends_bind. intros _.
  apply ends_bind. intros [|]; [|apply ends_ret_false].
  rewrite with_callback. apply ends_report_100.
Qed.

Lemma create_gif_ends_at_100 : ends_at_100 (create_gif C self a).
Proof.
  unfold create_gif. destruct (negb _); [apply ends_ret_false|].
  apply ends_try; [|intro; apply ends_ret_false].
  destruct (video_path_exists self); [|apply ends_ret_false].
  destruct (arg_segments a).
  - unfold create_gif_single. apply ends_bind. intros clip.
    apply ends_or_else; [|apply standard_methods_ends].
    destruct (negb _); [apply speed_branch_ends | apply ends_ret_false].
  - apply create_gif_segments_ends.
Qed.

End ProgressFacts.

(** ** The segment planner: results *)

Lemma strongly_sorted_pairs {A} (R : A -> A -> Prop) (l : list A) (a b : A) :
  StronglySorted R l -> In a l -> In b l -> a = b \/ R a b \/ R b a.
Proof.
  induction 1 as [|x l Hl IH Hx]; intros Ha Hb; [inversion Ha|].
  rewrite Forall_forall in Hx.
  destruct Ha as [<-|Ha], Hb as [<-|Hb]; auto.
Qed.

Lemma effective_nonempty_walk (ps pe : Q) (excluded : list Segment) :
  excluded <> [] ->
  get_effective_segments (mkTimeline ps pe excluded)
  = PlannerSpec.walk (ps, pe) ps (sorted excluded).
Proof.
  intro H. rewrite get_effective_segments_walk. simpl.
  destruct excluded; [contradiction | reflexivity].
Qed.

Lemma Forall_sorted (P : Segment -> Prop) (l : list Segment) :
  Forall P l -> Forall P (sorted l).
Proof.
  rewrite !Forall_forall. intros H x Hx. apply H.
  eapply Permutation_in; [apply sorted_perm | exact Hx].
Qed.

Ltac sorted_list :=
  repeat first [ apply SSorted_nil | apply SSorted_cons
               | apply Forall_nil | apply Forall_cons ];
  simpl; try lra.

(** C2 as stated fails: with the exclusions (0,10) and (3,4) the first
    covers the primary range (0,10), the second moves the cursor back to 4,
    and the result is [(4,10)], not the empty list; so it is with a first
    exclusion (-1,12). *)
Lemma C2_counterexample_cover_then_nested :
  (fst (0, 10) <= start_time (mkTimeline 0 10 [(0, 10); (3, 4)])
   /\ end_time (mkTimeline 0 10 [(0, 10); (3, 4)]) <= snd (0, 10))
  /\ get_effective_segments (mkTimeline 0 10 [(0, 10); (3, 4)]) = [(4, 10)]
  /\ get_effective_segments (mkTimeline 0 10 [(0, 10); (3, 4)]) <> []
  /\ get_effective_segments (mkTimeline 0 10 [(-1 # 1, 12); (3, 4)])
     = [(4, 10)].
Proof.
  split; [simpl; lra|].
  split; [reflexivity|].
  split; [discriminate|].
  reflexivity.
Qed.

(** C2, amended.  [get_effective_segments] is the interval subtraction of
    the specification: [sorted] sorts the exclusions by start, and the
    result is the one of the planner's walk (cursor at the start of the
    primary range, exclusions overlapping the primary range clipped to it, a
    piece emitted before each when of positive length, a last piece up to
    the end of the primary range).  For primary (0,10) and exclusion (2,4)
    the result is [(0,2); (4,10)]; exclusions that each cover the primary
    range, and a merged exclusion set one range of which covers it, leave
    nothing; exclusions all outside the primary range leave it whole. *)
Theorem C2_get_effective_segments_is_subtraction :
  PlannerSpec.sorts_by_start sorted
  /\ (forall w : TimelineWidget,
        get_effective_segments w
        = PlannerSpec.effectiveSegments sorted
            (start_time w, end_time w) (excluded_segments w))
  /\ get_effective_segments (mkTimeline 0 10 [(2, 4)]) = [(0, 2); (4, 10)]
  /\ (forall ps pe excluded,
        ps < pe -> excluded <> [] ->
        Forall (fun c => fst c <= ps /\ pe <= snd c) excluded ->
        get_effective_segments (mkTimeline ps pe excluded) = [])
  /\ (forall ps pe segments c,
        ps < pe ->
        In c (merge_overlapping_segments segments) ->
        fst c <= ps -> pe <= snd c ->
        get_effective_segments
          (mkTimeline ps pe (merge_overlapping_segments segments)) = [])
  /\ (forall ps pe excluded,
        ps < pe ->
        Forall (fun e => snd e <= ps \/ pe <= fst e) excluded ->
        get_effective_segments (mkTimeline ps pe excluded) = [(ps, pe)]).
Proof.
  split; [apply sorts_by_start_sorted|].
  split; [apply get_effective_segments_walk|].
  split; [reflexivity|].
  split; [|split].
  - intros ps pe excluded Hp Hne Hall.
    rewrite effective_nonempty_walk by assumption.
    apply walk_covered; auto.
    + apply sorted_by_start.
    + apply Forall_sorted in Hall.
      destruct (sorted excluded) as [|x xs] eqn:E.
      * destruct excluded; [contradiction|]. simpl in E.
        now apply insert_sorted_not_nil in E.
      * inversion Hall; subst. now left.
    + apply Forall_sorted. eapply Forall_impl; [|exact Hall].
      simpl. intros e [_ He] _. exact He.
  - intros ps pe segments c Hp Hc Hc1 Hc2.
    assert (Hne : merge_overlapping_segments segments <> [])
      by (intro E; rewrite E in Hc; inversion Hc).
    rewrite effective_nonempty_walk by assumption.
    rewrite (sorted_fixed _ (merge_lex segments)).
    apply walk_covered; auto.
    + eapply StronglySorted_weaken; [|apply merge_lex]. apply tuple_le_fst.
    + apply Exists_exists. exists c. auto.
    + apply Forall_forall. intros e He O.
      apply overlaps_iff in O.
      destruct (strongly_sorted_pairs _ _ e c (merge_separated segments) He Hc)
        as [->|[H|H]]; auto; simpl in H; lra.
  - intros ps pe excluded Hp Hall.
    destruct excluded as [|x l]; [reflexivity|].
    rewrite effective_nonempty_walk by discriminate.
    rewrite walk_outside; auto.
    + now apply emit_cons.
    + now apply Forall_sorted.
Qed.

Lemma C2_witness :
  get_effective_segments (mkTimeline 0 10 [(0, 10); (-1 # 1, 12)]) = []
  /\ get_effective_segments
       (mkTimeline 2 6 (merge_overlapping_segments [(4, 7); (0, 1); (1, 5)])) = []
  /\ get_effective_segments (mkTimeline 2 6 [(7, 9); (0, 2); (6, 8)]) = [(2, 6)].
Proof.
  destruct C2_get_effective_segments_is_subtraction
    as (_ & _ & _ & Hcover & Hmerged & Houtside).
  split; [|split].
  - apply Hcover; [lra | discriminate|].
    repeat constructor; simpl; lra.
  - apply (Hmerged 2 6 [(4, 7); (0, 1); (1, 5)] (0, 7)).
    + lra.
    + vm_compute. auto.
    + simpl. lra.
    + simpl. lra.
  - apply Houtside; [lra|].
    repeat constructor; simpl; lra.
Defined.

(** C5 as stated fails: with a range nested strictly inside an earlier one
    the cursor moves back, and the result differs from the one on the merged
    set. *)
Lemma C5_counterexample_nested :
  get_effective_segments (mkTimeline 0 10 [(2, 8); (3, 4)]) = [(0, 2); (4, 10)]
  /\ get_effective_segments
       (mkTimeline 0 10 (merge_overlapping_segments [(2, 8); (3, 4)]))
     = [(0, 2); (8, 10)]
  /\ ~ segs_eq
         (get_effective_segments (mkTimeline 0 10 [(2, 8); (3, 4)]))
         (get_effective_segments
            (mkTimeline 0 10 (merge_overlapping_segments [(2, 8); (3, 4)]))).
Proof.
  split; [reflexivity|]. split; [reflexivity|].
  change (~ segs_eq [(0, 2); (4, 10)] [(0, 2); (8, 10)]).
  intro H.
  inversion H as [|? ? ? ? _ H']; subst.
  inversion H' as [|? ? ? ? [H1 _] _]; subst.
  simpl in H1. lra.
Qed.

(** C5, amended.  For a primary range of positive length and excluded
    ranges that, once sorted, end in non-decreasing order (touching,
    duplicate and partially overlapping ranges, not a range that ends before
    an earlier one does), [get_effective_segments] gives on the unmerged set
    the result it gives on [merge_overlapping_segments] of it, up to [==] on
    the bounds.  On a set that is already merged, as every set the widget
    stores is, merging first changes nothing. *)
Theorem C5_unmerged_as_merged_when_ends_sorted :
  (forall (ps pe : Q) (excluded : list Segment),
      ps < pe ->
      ends_sorted (sorted excluded) ->
      segs_eq
        (get_effective_segments (mkTimeline ps pe excluded))
        (get_effective_segments
           (mkTimeline ps pe (merge_overlapping_segments excluded))))
  /\ (forall (w : TimelineWidget) (s e : Q),
        get_effective_segments (add_excluded_segment w s e)
        = get_effective_segments
            (mkTimeline (start_time w) (end_time w)
               (merge_overlapping_segments
                  (excluded_segments (add_excluded_segment w s e))))).
Proof.
  split; [|intros w s e; simpl; now rewrite merge_idempotent].
  intros ps pe excluded Hp He.
  destruct excluded as [|x l]; [apply segs_eq_refl|].
  rewrite effective_nonempty_walk by discriminate.
  pose proof (merge_lex (x :: l)) as Hlex.
  rewrite merge_overlapping_segments_eq in *.
  pose proof (sorted_by_start (x :: l)) as Hs.
  destruct (sorted (x :: l)) as [|f r] eqn:E.
  - simpl in E. now apply insert_sorted_not_nil in E.
  - rewrite effective_nonempty_walk by apply merge_from_not_nil.
    rewrite (sorted_fixed _ Hlex).
    now apply walk_merge_from.
Qed.

Lemma C5_witness :
  segs_eq
    (get_effective_segments
       (mkTimeline 0 10 [(4, 6); (2, 4); (5, 7); (2, 4); (9, 12)]))
    (get_effective_segments
       (mkTimeline 0 10
          (merge_overlapping_segments [(4, 6); (2, 4); (5, 7); (2, 4); (9, 12)]))).
Proof.
  apply (proj1 C5_unmerged_as_merged_when_ends_sorted); [lra|].
  unfold ends_sorted. vm_compute sorted. sorted_list.
Defined.

(** C6.  For any list of ranges, [merge_overlapping_segments] returns
    ranges sorted by start, each ending strictly before every later one
    starts; merging the result again returns it unchanged; and an instant is
    covered by the merged ranges exactly when it is covered by the given
    ones. *)
Theorem C6_merge_sorted_disjoint_idempotent_same_union :
  forall segments : list Segment,
    starts_sorted (merge_overlapping_segments segments)
    /\ separated (merge_overlapping_segments segments)
    /\ merge_overlapping_segments (merge_overlapping_segments segments)
       = merge_overlapping_segments segments
    /\ (forall t : Q,
          covered t (merge_overlapping_segments segments)
          <-> covered t segments).
Proof.
  intro segments. repeat split.
  - eapply StronglySorted_weaken; [|apply merge_lex]. apply tuple_le_fst.
  - apply merge_separated.
  - apply merge_idempotent.
  - apply merge_covered.
  - apply merge_covered.
Qed.

Example effective_0_10_2_4 :
  get_effective_segments (mkTimeline 0 10 [(2, 4)]) = [(0, 2); (4, 10)].
Proof. reflexivity. Qed.

Example merge_example :
  merge_overlapping_segments [(5, 7); (1, 3); (3, 4); (6, 9); (2, 2)]
  = [(1, 4); (5, 9)].
Proof. reflexivity. Qed.
(** ** Frame sampling, assembly, encoding and preview: results *)




(** The second second of the three of [film_3s], read through the fallback
    class, is sampled over the three seconds of the file: 30 frames. *)
Lemma fallback_segment_samples_whole_file :
  snd (create_gif film_3s loaded second_of_three) = inr true
  /\ encoded_counts (fst (create_gif film_3s loaded second_of_three))
     = [30%Z].
Proof. split; vm_compute; reflexivity. Qed.

(** Under the contracts of the collaborators ([cv2.resize] returns the
    requested size and keeps the channels; clips give RGB frames), the
    frames [create_gif] hands to the encoder on the path of segments and on
    the path of a single range with a speed factor all have the shape of the
    first of them; on the other paths they do when the frames of one clip
    have one size. *)
Lemma checked_paths_encode_uniform (C : Collaborators) (self : VideoProcessor)
    (a : GifArgs) :
  resize_contract C -> rgb_contract C ->
  Forall encodes_uniform (fst (create_gif_segments C a (arg_segments a)))
  /\ (forall r clip d,
        open_clip C r = Some clip ->
        Forall encodes_uniform (fst (speed_branch C a clip d)))
  /\ (clip_size_contract C ->
      Forall encodes_uniform (fst (create_gif C self a))).
Proof.
  intros HR HG.
  assert (Hchecked : forall frames,
             frames <> [] ->
             (resize_contract C -> rgb_contract C -> uniform frames) ->
             encodes_uniform
               (Mimsave frames (arg_fps a) (quantizer_of (arg_quality a))
                  (loop_param (arg_loop a)))).
  { intros frames _ H. simpl. auto. }
  split; [|split].
  - eapply sat_events. apply create_gif_segments_sat; simpl; auto.
  - intros r clip d Ho. eapply sat_events.
    eapply speed_branch_sat; simpl; eauto.
  - intro HS. eapply sat_events. apply create_gif_sat; simpl; auto.
Qed.

Lemma steady_resize_contract : resize_contract steady.
Proof. intros frame w h resized [= <-]. simpl. auto. Qed.

Lemma steady_rgb_contract : rgb_contract steady.
Proof.
  intros r clip t frame [= <-]. simpl.
  destruct (req_resize r) as [[w h]|]; intros [= <-]; reflexivity.
Qed.

Lemma steady_clip_size_contract : clip_size_contract steady.
Proof.
  intros r clip t t' frame frame' [= <-]. simpl.
  destruct (req_resize r) as [[w h]|]; intros [= <-] [= <-]; reflexivity.
Qed.





(** Every event of [create_gif] is one of the calls [emitted_by] lists. *)
Lemma create_gif_events (C : Collaborators) (self : VideoProcessor) (a : GifArgs) :
  Forall (emitted_by a) (fst (create_gif C self a)).
Proof.
  eapply sat_events. apply create_gif_sat; simpl; auto.
Qed.

(** C4 as stated fails: the export of a single range by [create_gif], with
    target rate 10 and speed factor 2, hands the encoder the rate 10, not
    20. *)
Lemma C4_counterexample_single_range_export :
  arg_segments short_range_fast = []
  /\ fst (create_gif steady loaded short_range_fast)
     = [Mimsave [mkFrame 360 640 3 0; mkFrame 360 640 3 250] 10 10 0]
  /\ ~ 10 == arg_fps short_range_fast * arg_speed_factor short_range_fast.
Proof.
  split; [reflexivity|]. split; [vm_compute; reflexivity|].
  simpl. intro H. lra.
Qed.

(** C4, amended.  [generate_preview] reports [fps * speed_factor] to the
    player, with and without segments, and [save_file], which writes the
    previewed frames, passes the spin box rate times the speed to the
    encoder; every call [create_gif] makes of the encoder or of [write_gif],
    for segments and for a single range alike, passes the requested [fps]
    unchanged. *)
Theorem C4_fps_reported :
  (forall (C : Collaborators) (self : VideoProcessor) (a : PreviewArgs)
          (turns : nat) (v : PreviewValue),
      cap_opened self = true ->
      generate_preview C self a turns = Some (inr v) ->
      exists frames, v = Pair frames (pv_fps a * pv_speed_factor a))
  /\ (forall (s : SaveInputs) frames fps quantizer loop,
        In (Mimsave frames fps quantizer loop) (save_file s) ->
        fps = inject_Z (fps_spin s) * (inject_Z (speed_slider s) / 100))
  /\ (forall (C : Collaborators) (self : VideoProcessor) (a : GifArgs) (e : Event),
        In e (fst (create_gif C self a)) ->
        match e with
        | Mimsave _ fps _ _ => fps = arg_fps a
        | WriteGifOptimized fps _ _ => fps = arg_fps a
        | WriteGifFfmpeg fps _ => fps = arg_fps a
        | Progress _ => True
        end).
Proof.
  split; [|split].
  - intros C self a turns v H. now apply generate_preview_pair.
  - intros s frames fps quantizer loop. unfold save_file.
    destruct (negb (current_file s)); [intros []|].
    destruct (preview_frames_shown s); [intros []|].
    destruct (dialog_accepted s); [|intros []].
    intros [[= _ <- _ _]|[]]. reflexivity.
  - intros C self a e He.
    pose proof (create_gif_events C self a) as H.
    rewrite Forall_forall in H. specialize (H e He).
    destruct e; simpl in H; tauto.
Qed.

Lemma C4_witness :
  (exists frames,
      Pair [mkFrame 360 640 3 0; mkFrame 360 640 3 15] 8
      = Pair frames (pv_fps preview_fast * pv_speed_factor preview_fast))
  /\ 2000 # 100 = inject_Z (fps_spin window_saving)
                  * (inject_Z (speed_slider window_saving) / 100).
Proof.
  destruct C4_fps_reported as (Hpreview & Hsave & _).
  split.
  - apply (Hpreview steady loaded preview_fast 100%nat); [reflexivity|].
    vm_compute. reflexivity.
  - apply (Hsave window_saving [mkFrame 360 640 3 0] _ 10%Z 0%Z).
    vm_compute. left. reflexivity.
Defined.

(** C7 as stated fails: at quality 0.004 the encoder receives the
    quantizer 99, while [round(100 - quality*100)] is 100, on the exact
    value and on the one double precision gives; and a window saving at
    quality 55 passes 44, where the rounding is 45. *)
Lemma C7_counterexample_truncation :
  fst (create_gif steady loaded short_range_low_quality)
  = [Mimsave [mkFrame 360 640 3 0; mkFrame 360 640 3 250] 10 99 1]
  /\ py_round (100 - arg_quality short_range_low_quality * 100) = 100%Z
  /\ py_round
       (Py.fsub 100 (Py.fmul (arg_quality short_range_low_quality) 100))
     = 100%Z
  /\ quantizer_of (arg_quality short_range_low_quality)
     <> py_round (100 - arg_quality short_range_low_quality * 100)
  /\ save_file window_saving_55
     = [Mimsave [mkFrame 360 640 3 0] (2000 # 100) 44 0]
  /\ py_round (100 - inject_Z (quality_slider window_saving_55) / 100 * 100)
     = 45%Z.
Proof.
  split; [vm_compute; reflexivity|].
  split; [vm_compute; reflexivity|].
  split; [vm_compute; reflexivity|].
  split; [vm_compute; discriminate|].
  split; vm_compute; reflexivity.
Qed.

(** C7, amended.  Every [imageio.mimsave] call, in [create_gif] and in
    [save_file], passes the quantizer [int(100 - quality*100)]: the
    difference as double precision computes it, truncated.  For a quality
    in [0,1] it lies between the floors of [100 - quality*100 - 2^-43] and
    of [100 - quality*100 + 2^-43]: 99 at quality 0.004, 44 at 0.55, 43 at
    0.56, 10 at 0.9.  Every write call passes the loop flag 0 when looping
    is asked and 1 when it is not, [clip.write_gif] included, which is given
    [fuzz = int((1-quality)*100)], 9 at quality 0.9, and no quantizer. *)
Theorem C7_encoder_parameters :
  (forall (C : Collaborators) (self : VideoProcessor) (a : GifArgs) (e : Event),
      In e (fst (create_gif C self a)) ->
      match e with
      | Mimsave _ _ quantizer loop =>
          quantizer = Py.int (Py.fsub 100 (Py.fmul (arg_quality a) 100))
          /\ loop = (if arg_loop a then 0 else 1)%Z
      | WriteGifOptimized _ fuzz loop =>
          fuzz = Py.int (Py.fmul (Py.fsub 1 (arg_quality a)) 100)
          /\ loop = (if arg_loop a then 0 else 1)%Z
      | WriteGifFfmpeg _ loop => loop = (if arg_loop a then 0 else 1)%Z
      | Progress _ => True
      end)
  /\ (forall (s : SaveInputs) frames fps quantizer loop,
        In (Mimsave frames fps quantizer loop) (save_file s) ->
        quantizer
        = Py.int (Py.fsub 100 (Py.fmul (inject_Z (quality_slider s) / 100) 100))
        /\ loop = (if loop_checkbox s then 0 else 1)%Z)
  /\ (forall quality : Q,
        0 <= quality -> quality <= 1 ->
        (Qfloor (100 - quality * 100 - (1 # 8796093022208))
         <= quantizer_of quality
         <= Qfloor (100 - quality * 100 + (1 # 8796093022208)))%Z)
  /\ (quantizer_of 0 = 100 /\ quantizer_of (4 # 1000) = 99
      /\ quantizer_of (55 # 100) = 44 /\ quantizer_of (56 # 100) = 43
      /\ quantizer_of (9 # 10) = 10 /\ quantizer_of 1 = 0
      /\ fuzz_of (9 # 10) = 9 /\ fuzz_of (1 # 2) = 50)%Z.
Proof.
  split; [|split; [|split]].
  - intros C self a e He.
    pose proof (create_gif_events C self a) as H.
    rewrite Forall_forall in H. specialize (H e He).
    destruct e; simpl in H; unfold quantizer_of, fuzz_of, loop_param in H;
      tauto.
  - intros s frames fps quantizer loop. unfold save_file.
    destruct (negb (current_file s)); [intros []|].
    destruct (preview_frames_shown s); [intros []|].
    destruct (dialog_accepted s); [|intros []].
    intros [[= _ _ <- <-]|[]]. split; reflexivity.
  - intros quality H0 H1. now apply quantizer_near.
  - repeat split; vm_compute; reflexivity.
Qed.

Lemma C7_witness :
  (Qfloor (100 - (9 # 10) * 100 - (1 # 8796093022208))
   <= quantizer_of (9 # 10)
   <= Qfloor (100 - (9 # 10) * 100 + (1 # 8796093022208)))%Z
  /\ (44%Z
      = Py.int
          (Py.fsub 100
             (Py.fmul (inject_Z (quality_slider window_saving_55) / 100) 100))
      /\ 0%Z = (if loop_checkbox window_saving_55 then 0 else 1)%Z)
  /\ (99%Z
      = Py.int (Py.fsub 100 (Py.fmul (arg_quality short_range_low_quality) 100))
      /\ 1%Z = (if arg_loop short_range_low_quality then 0 else 1)%Z).
Proof.
  destruct C7_encoder_parameters as (Hgif & Hsave & Hnear & _).
  split; [apply Hnear; lra|]. split.
  - apply (Hsave window_saving_55 [mkFrame 360 640 3 0] (2000 # 100)).
    vm_compute. left. reflexivity.
  - refine (Hgif steady loaded short_range_low_quality
              (Mimsave [mkFrame 360 640 3 0; mkFrame 360 640 3 250] 10 99 1) _).
    vm_compute. left. reflexivity.
Defined.

(** C8 on the code: with two segments the callback receives 0, 40, 52 for
    the first and then 20 for the second, and with one range of 11 frames it
    receives 84 and then 80; both runs succeed and end at 100.  Without a
    loaded video nothing is reported. *)
Theorem C8_progress_values_regress :
  create_gif steady loaded two_segments
  = (fst (create_gif steady loaded two_segments), inr true)
  /\ progress_values (fst (create_gif steady loaded two_segments))
     = [0; 40; 52; 20; 65; 77; 90; 100]%Z
  /\ non_decreasing
       (progress_values (fst (create_gif steady loaded two_segments))) = false
  /\ create_gif steady loaded one_range_fast
     = (fst (create_gif steady loaded one_range_fast), inr true)
  /\ progress_values (fst (create_gif steady loaded one_range_fast))
     = [30; 57; 84; 80; 100]%Z
  /\ (forall C a, create_gif C not_loaded a = ([], inr false)).
Proof.
  repeat split; try (vm_compute; reflexivity).
Qed.

(** C9.  The encoder never receives an empty list of frames from
    [create_gif]; and when the loop over the segments ends with no frame at
    all, [create_gif] returns [False] having called nothing but the progress
    callback. *)
Theorem C9_no_frames_means_failure :
  forall (C : Collaborators) (self : VideoProcessor) (a : GifArgs),
    (forall frames fps quantizer loop,
        In (Mimsave frames fps quantizer loop) (fst (create_gif C self a)) ->
        frames <> [])
    /\ (forall trace,
          cap_opened self = true -> video_path_exists self = true ->
          arg_segments a <> [] ->
          collect_segments C a (arg_segments a) = (trace, inr []) ->
          create_gif C self a = (trace, inr false) /\ only_progress trace).
Proof.
  intros C self a. split.
  - intros frames fps quantizer loop He.
    pose proof (create_gif_events C self a) as H.
    rewrite Forall_forall in H. specialize (H _ He). simpl in H. tauto.
  - intros trace Hcap Hpath Hseg Hcollect. split.
    + unfold create_gif. rewrite Hcap, Hpath. simpl.
      destruct (arg_segments a) as [|s l] eqn:E; [contradiction|].
      unfold create_gif_segments. rewrite Hcollect. simpl.
      now rewrite app_nil_r.
    + pose proof (collect_segments_sat C a (fun e => exists p, e = Progress p))
        as H.
      destruct (H (fun p _ => ex_intro _ p eq_refl) (arg_segments a)) as [Ht _].
      rewrite Hcollect in Ht. exact Ht.
Qed.

Lemma C9_witness :
  create_gif steady loaded degenerate_segments
  = ([Progress 0; Progress 20], inr false)
  /\ only_progress [Progress 0; Progress 20].
Proof.
  destruct (C9_no_frames_means_failure steady loaded degenerate_segments)
    as [_ H].
  apply H; try reflexivity; discriminate.
Defined.

(** C10.  Without a loaded video [generate_preview] returns the bare empty
    list; with one, whatever it returns is the pair of the frames and
    [fps * speed_factor], also when there is no frame, and for a positive
    speed factor it does end, with that pair unless [cv2.resize] raised.
    So unpacking the result in two succeeds exactly when a video is
    loaded. *)
Theorem C10_generate_preview_result_shape :
  forall (C : Collaborators) (self : VideoProcessor) (a : PreviewArgs),
    (cap_opened self = false ->
     forall turns, generate_preview C self a turns = Some (inr (BareList [])))
    /\ (cap_opened self = true ->
        forall turns v,
          generate_preview C self a turns = Some (inr v) ->
          exists frames, v = Pair frames (pv_fps a * pv_speed_factor a))
    /\ (cap_opened self = true -> 0 < pv_speed_factor a ->
        exists turns,
          (exists frames,
              generate_preview C self a turns
              = Some (inr (Pair frames (pv_fps a * pv_speed_factor a))))
          \/ (exists e, generate_preview C self a turns = Some (inl e)))
    /\ (cap_opened self = true -> 0 < pv_speed_factor a ->
        (forall frame w h, cv2_resize C frame w h <> None) ->
        exists turns frames,
          generate_preview C self a turns
          = Some (inr (Pair frames (pv_fps a * pv_speed_factor a))))
    /\ (forall turns v,
          generate_preview C self a turns = Some (inr v) ->
          (unpack_two v <> None <-> cap_opened self = true)).
Proof.
  intros C self a. repeat split.
  - intros H turns. now apply generate_preview_not_loaded.
  - intros H turns v. now apply generate_preview_pair.
  - intros H Hs. now apply generate_preview_ends.
  - intros H Hs HR. now apply generate_preview_returns.
  - intro Hu. destruct (cap_opened self) eqn:E; auto.
    rewrite generate_preview_not_loaded in H by assumption.
    injection H as <-. simpl in Hu. congruence.
  - intro E. destruct (generate_preview_pair C self a turns v E H) as [frames ->].
    simpl. discriminate.
Qed.

Lemma C10_witness :
  generate_preview steady not_loaded preview_fast 0 = Some (inr (BareList []))
  /\ (exists frames, Pair [] 8 = Pair frames (pv_fps preview_empty_range
                                              * pv_speed_factor preview_empty_range))
  /\ (exists turns frames,
         generate_preview steady loaded preview_fast turns
         = Some (inr (Pair frames (pv_fps preview_fast
                                   * pv_speed_factor preview_fast))))
  /\ (unpack_two (BareList []) <> None <-> cap_opened not_loaded = true).
Proof.
  destruct (C10_generate_preview_result_shape steady not_loaded preview_fast)
    as (Hbare & _ & _ & _ & Hunpack).
  destruct (C10_generate_preview_result_shape steady loaded preview_empty_range)
    as (_ & Hpair & _).
  destruct (C10_generate_preview_result_shape steady loaded preview_fast)
    as (_ & _ & _ & Hreturns & _).
  split; [apply Hbare; reflexivity|].
  split; [apply (Hpair eq_refl 1%nat); vm_compute; reflexivity|].
  split; [apply Hreturns; [reflexivity | simpl; lra | discriminate]|].
  apply (Hunpack 0%nat). apply Hbare. reflexivity.
Defined.

(** ** What the effective segments cover *)

Section Pieces.

Variables ps pe : Q.

Lemma within_app (t : Q) (l1 l2 : list Segment) :
  within t (l1 ++ l2) <-> within t l1 \/ within t l2.
Proof.
  unfold within. split.
  - intros (r & Hr & H). apply in_app_or in Hr. destruct Hr; eauto.
  - intros [(r & Hr & H)|(r & Hr & H)]; exists r; split; auto;
      apply in_or_app; auto.
Qed.

Lemma within_emit (t a b : Q) :
  within t (PlannerSpec.emit a b) <-> a <= t /\ t < b.
Proof.
  unfold within, PlannerSpec.emit. destruct (Py.Qltb a b) eqn:E; qprop.
  - split.
    + intros (r & [<-|[]] & H). exact H.
    + intro H. exists (a, b). simpl. auto.
  - split; [intros (r & [] & _) | lra].
Qed.

Lemma within_cons (t : Q) (r : Segment) (l : list Segment) :
  within t (r :: l) <-> (fst r <= t /\ t < snd r) \/ within t l.
Proof.
  unfold within. split.
  - intros (x & [<-|Hx] & H); eauto.
  - intros [H|(x & Hx & H)]; [exists r | exists x]; simpl; auto.
Qed.

Lemma total_length_app (l1 l2 : list Segment) :
  total_length (l1 ++ l2) == total_length l1 + total_length l2.
Proof.
  induction l1 as [|r l1 IH]; simpl; [ring|]. rewrite IH. ring.
Qed.

Lemma total_length_emit (a b : Q) :
  a <= b -> total_length (PlannerSpec.emit a b) == b - a.
Proof.
  intro H. unfold PlannerSpec.emit. destruct (Py.Qltb a b) eqn:E; qprop; simpl; lra.
Qed.

Lemma ahead_tail (cur : Q) (e : Segment) (l : list Segment) :
  ahead ps pe cur (e :: l) -> ahead ps pe cur l.
Proof.
  intros (Hp & Hs & Hc). inversion Hp; inversion Hs; inversion Hc; subst.
  repeat split; auto.
Qed.

Lemma ahead_after (cur : Q) (e : Segment) (l : list Segment) :
  ahead ps pe cur (e :: l) -> ahead ps pe (Qmin (snd e) pe) l.
Proof.
  intros (Hp & Hs & Hc).
  inversion Hp as [|? ? Hpe Hp']; inversion Hs as [|? ? Hs' He]; subst.
  repeat split; auto.
  apply Forall_forall. intros x Hx _.
  rewrite Forall_forall in He. specialize (He x Hx). simpl in He.
  qminmax; lra.
Qed.

Hypothesis primary_wf : ps < pe.

Lemma walk_within (l : list Segment) :
  forall cur t,
    ps <= cur -> cur <= pe -> ahead ps pe cur l ->
    (within t (PlannerSpec.walk (ps, pe) cur l)
     <-> (cur <= t /\ t < pe) /\ ~ within t l).
Proof.
  induction l as [|e l IH]; intros cur t Hlo Hhi Ha; simpl.
  - rewrite within_emit. split; [|tauto].
    intro H. split; auto. intros (r & [] & _).
  - pose proof Ha as (Hp & Hs & Hc).
    inversion Hp as [|? ? Hpe _]; inversion Hs as [|? ? _ Hse];
      inversion Hc as [|? ? Hce _]; subst.
    unfold proper in Hpe. rewrite within_cons.
    destruct (PlannerSpec.overlaps (ps, pe) e) eqn:O.
    + specialize (Hce eq_refl). apply overlaps_iff in O.
      unfold PlannerSpec.clip. simpl.
      rewrite within_app, within_emit.
      rewrite (IH (Qmin (snd e) pe) t); [| | |eapply ahead_after; eauto].
      * assert (Hl : within t l -> snd e < t).
        { intros (x & Hx & G1 & G2). rewrite Forall_forall in Hse.
          specialize (Hse x Hx). simpl in Hse. lra. }
        revert Hce. qminmax; intro Hce; split.
        all: try (intros [[G1 G2]|[[G1 G2] G3]];
                  [ split; [split; lra|];
                    intros [[C1 C2]|C]; [lra | apply Hl in C; lra]
                  | split; [split; lra|];
                    intros [[C1 C2]|C]; [lra | tauto] ]).
        all: intros [[G1 G2] G3];
          destruct (Qlt_le_dec t (fst e)) as [c|c];
          [ left; split; lra
          | right;
            destruct (Qlt_le_dec t (snd e)) as [c'|c'];
            [ exfalso; apply G3; left; split; lra
            | split; [split; lra | intro C; apply G3; right; exact C] ] ].
      * qminmax; lra.
      * qminmax; lra.
    + apply overlaps_false_iff in O. simpl in O.
      rewrite (IH cur t); auto; [|eapply ahead_tail; eauto].
      split; [|tauto]. intros [H H']. split; auto.
      intros [C|C]; [lra | tauto].
Qed.

Lemma walk_total (l : list Segment) :
  forall cur,
    ps <= cur -> cur <= pe -> ahead ps pe cur l ->
    total_length (PlannerSpec.walk (ps, pe) cur l)
    == (pe - cur) - overlap_sum ps pe l.
Proof.
  induction l as [|e l IH]; intros cur Hlo Hhi Ha; simpl.
  - rewrite total_length_emit by assumption. ring.
  - pose proof Ha as (Hp & Hs & Hc).
    inversion Hp as [|? ? Hpe _]; inversion Hc as [|? ? Hce _]; subst.
    unfold proper in Hpe.
    destruct (PlannerSpec.overlaps (ps, pe) e) eqn:O.
    + specialize (Hce eq_refl). apply overlaps_iff in O.
      unfold PlannerSpec.clip. simpl.
      rewrite total_length_app, total_length_emit by assumption.
      rewrite IH; [ring | | |eapply ahead_after; eauto]; qminmax; lra.
    + rewrite IH; auto; [ring|]. eapply ahead_tail; eauto.
Qed.

Lemma walk_ordered (l : list Segment) :
  forall cur,
    ps <= cur -> cur <= pe -> ahead ps pe cur l ->
    StronglySorted (fun a b => snd a <= fst b) (PlannerSpec.walk (ps, pe) cur l)
    /\ Forall (fun r => cur <= fst r) (PlannerSpec.walk (ps, pe) cur l).
Proof.
  induction l as [|e l IH]; intros cur Hlo Hhi Ha; simpl.
  - unfold PlannerSpec.emit. destruct (Py.Qltb cur pe); split;
      repeat constructor; simpl; lra.
  - pose proof Ha as (Hp & Hs & Hc).
    inversion Hp as [|? ? Hpe _]; inversion Hc as [|? ? Hce _]; subst.
    unfold proper in Hpe.
    destruct (PlannerSpec.overlaps (ps, pe) e) eqn:O.
    + specialize (Hce eq_refl). apply overlaps_iff in O.
      unfold PlannerSpec.clip. simpl.
      destruct (IH (Qmin (snd e) pe)) as [H1 H2];
        [qminmax; lra | qminmax; lra | eapply ahead_after; eauto |].
      assert (Hge : Qmax (fst e) ps <= Qmin (snd e) pe) by (qminmax; lra).
      unfold PlannerSpec.emit.
      destruct (Py.Qltb cur (Qmax (fst e) ps)) eqn:E; qprop; simpl.
      * split.
        -- constructor; auto. eapply Forall_impl; [|exact H2]. simpl. intros. lra.
        -- constructor; [simpl; lra|].
           eapply Forall_impl; [|exact H2]. simpl. intros. lra.
      * split; auto. eapply Forall_impl; [|exact H2]. simpl. intros. lra.
    + apply IH; auto. eapply ahead_tail; eauto.
Qed.

(** Every piece has positive length and lies in the primary range, whatever
    the exclusions. *)
Lemma walk_pieces (l : list Segment) :
  forall cur,
    ps <= cur -> cur <= pe ->
    Forall (fun r => ps <= fst r /\ fst r < snd r /\ snd r <= pe)
      (PlannerSpec.walk (ps, pe) cur l).
Proof.
  induction l as [|e l IH]; intros cur Hlo Hhi; simpl.
  - unfold PlannerSpec.emit. destruct (Py.Qltb cur pe) eqn:E; qprop;
      repeat constructor; simpl; lra.
  - destruct (PlannerSpec.overlaps (ps, pe) e) eqn:O; [|auto].
    apply overlaps_iff in O. unfold PlannerSpec.clip. simpl.
    apply Forall_app. split.
    + unfold PlannerSpec.emit.
      destruct (Py.Qltb cur (Qmax (fst e) ps)) eqn:E; qprop;
        repeat constructor; simpl; try lra.
      qminmax; lra.
    + apply IH; qminmax; lra.
Qed.

End Pieces.

Lemma separated_proper_lex (l : list Segment) :
  separated l -> Forall proper l -> StronglySorted tuple_le l.
Proof.
  induction 1 as [|r l Hs IH Hr]; intro Hp; [constructor|].
  inversion Hp as [|? ? Hpr Hp']; subst. constructor; auto.
  rewrite Forall_forall in *. intros x Hx. specialize (Hr x Hx).
  unfold tuple_le, proper in *. simpl in Hr. lra.
Qed.

Lemma ahead_start (ps pe : Q) (l : list Segment) :
  separated l -> Forall proper l -> ahead ps pe ps l.
Proof.
  intros Hs Hp. repeat split; auto.
  apply Forall_forall. intros e _ _. qminmax; lra.
Qed.

Lemma within_proper_iff (t : Q) (l l' : list Segment) :
  Permutation l l' -> (within t l <-> within t l').
Proof.
  intro P. unfold within. split; intros (r & Hr & H); exists r; split; auto.
  - eapply Permutation_in; eauto.
  - eapply Permutation_in; [apply Permutation_sym|]; eauto.
Qed.

Lemma excluded_duration_sum (w : TimelineWidget) :
  excluded_duration w
  == overlap_sum (start_time w) (end_time w) (excluded_segments w).
Proof.
  unfold excluded_duration.
  assert (H : forall l acc,
             fold_left
               (fun excluded_duration (segment : Segment) =>
                  let '(s, e) := segment in
                  if Py.Qltb (start_time w) e && Py.Qltb s (end_time w)
                  then excluded_duration
                       + (Py.min e (end_time w) - Py.max s (start_time w))
                  else excluded_duration) l acc
             == acc + overlap_sum (start_time w) (end_time w) l).
  { induction l as [|[s e] l IH]; intro acc; simpl; [ring|].
    rewrite IH. unfold PlannerSpec.overlaps. simpl.
    destruct (Py.Qltb (start_time w) e && Py.Qltb s (end_time w)).
    - rewrite py_min_Qmin, py_max_Qmax. ring.
    - ring. }
  rewrite H. ring.
Qed.

Lemma overlap_sum_bounds (ps pe : Q) (l : list Segment) :
  ps <= pe -> Forall proper l -> 0 <= overlap_sum ps pe l.
Proof.
  intros Hp. induction 1 as [|e l He _ IH]; simpl; [lra|].
  unfold proper in He.
  destruct (PlannerSpec.overlaps (ps, pe) e) eqn:O; [|lra].
  apply overlaps_iff in O.
  assert (0 <= Qmin (snd e) pe - Qmax (fst e) ps) by (qminmax; lra).
  lra.
Qed.

(** ** The handlers keep the widget consistent *)

Lemma merge_from_end_origin (rest : list Segment) :
  forall (p o : Segment),
    In o (merge_from p rest) ->
    exists g, (g = p \/ In g rest) /\ snd o = snd g.
Proof.
  induction rest as [|c rest IH]; intros p o Ho; simpl in Ho.
  - destruct Ho as [<-|[]]. exists p. auto.
  - destruct (Qle_bool (fst c) (snd p)).
    + apply IH in Ho. destruct Ho as (g & [->|Hg] & Hs).
      * simpl in Hs.
        destruct (py_max_spec (snd p) (snd c)) as [[_ E]|[_ E]];
          rewrite E in Hs; [exists c | exists p]; simpl; auto.
      * exists g. simpl. auto.
    + destruct Ho as [<-|Ho]; [exists p; auto|].
      apply IH in Ho. destruct Ho as (g & Hg & Hs).
      exists g. simpl. split; auto. destruct Hg; auto.
Qed.

(** Merging keeps the ranges inside the bounds the given ones respect, and
    no shorter than the shortest of them. *)
Lemma merge_bounds (lo hi gap : Q) (l : list Segment) :
  Forall (fun r => lo <= fst r /\ fst r + gap < snd r /\ snd r <= hi) l ->
  Forall (fun r => lo <= fst r /\ fst r + gap < snd r /\ snd r <= hi)
    (merge_overlapping_segments l).
Proof.
  intro H. rewrite merge_overlapping_segments_eq.
  apply Forall_sorted in H.
  destruct (sorted l) as [|x xs]; [constructor|].
  rewrite Forall_forall in *. intros o Ho.
  destruct (merge_from_origin xs x o Ho) as (g & Hg & Hf & Hs).
  destruct (merge_from_end_origin xs x o Ho) as (g' & Hg' & Hs').
  assert (Hin : In g (x :: xs)) by (destruct Hg; [left | right]; auto).
  assert (Hin' : In g' (x :: xs)) by (destruct Hg'; [left | right]; auto).
  destruct (H g Hin) as (G1 & G2 & G3). destruct (H g' Hin') as (_ & _ & G3').
  rewrite Hf, Hs'. repeat split; auto.
  rewrite <- Hs'. lra.
Qed.

Lemma time_at_range (st : Timeline) (x w : Z) (t : Q) :
  0 < tl_duration st -> (0 <= x <= w)%Z ->
  time_at st x w = Some t -> 0 <= t /\ t <= tl_duration st.
Proof.
  intros Hd Hx. unfold time_at.
  destruct (w =? 0)%Z eqn:E; [discriminate|]. intros [= <-].
  apply Z.eqb_neq in E.
  assert (Hw : 0 < inject_Z w) by (change 0 with (inject_Z 0); rewrite <- Zlt_Qlt; lia).
  assert (H0 : 0 <= inject_Z x) by (apply inject_Z_nonneg; lia).
  assert (H1 : inject_Z x <= inject_Z w) by (rewrite <- Zle_Qle; lia).
  assert (Hq0 : 0 <= inject_Z x / inject_Z w) by (apply Qdiv_nonneg; lra).
  assert (Hq1 : inject_Z x / inject_Z w <= 1) by (apply Qle_shift_div_r; lra).
  split; nra.
Qed.

Lemma timeline_step_keeps (st : Timeline) (op : TimelineOp) :
  timeline_inv st -> event_ok st op ->
  exists st', timeline_step st op = Some st' /\ timeline_inv st'.
Proof.
  intros Hinv Hop. pose proof Hinv as (Hd & Ht & Hs & Hb & Htemp).
  destruct op as [d|v|v| |x w|x w confirmed| |]; simpl in *.
  - (* setup_timeline *)
    destruct Hop as [Hd' Hnone]. eexists. split; [reflexivity|].
    unfold timeline_inv, setup_timeline. simpl.
    repeat split; try constructor; try lra; rewrite Hnone in *; discriminate.
  - (* update_start_trim *)
    unfold update_start_trim, with_start_slider. simpl.
    destruct (Qle_bool _ _) eqn:E.
    + destruct (Qeq_bool (tl_duration st) 0) eqn:Z0;
        [apply Qeq_bool_iff in Z0; lra|].
      eexists. split; [reflexivity|].
      unfold timeline_inv. simpl. repeat split; auto; try lra; apply Htemp; auto.
    + apply Qle_bool_false in E.
      eexists. split; [reflexivity|].
      unfold timeline_inv. simpl. repeat split; auto; apply Htemp; auto.
  - (* update_end_trim *)
    unfold update_end_trim, with_end_slider. simpl.
    destruct (Qle_bool _ _) eqn:E.
    + destruct (Qeq_bool (tl_duration st) 0) eqn:Z0;
        [apply Qeq_bool_iff in Z0; lra|].
      eexists. split; [reflexivity|].
      unfold timeline_inv. simpl. repeat split; auto; try lra; apply Htemp; auto.
    + apply Qle_bool_false in E.
      eexists. split; [reflexivity|].
      unfold timeline_inv. simpl. repeat split; auto; apply Htemp; auto.
  - (* start_segment_selection *)
    eexists. split; [reflexivity|].
    unfold timeline_inv. simpl. repeat split; auto; discriminate.
  - (* mousePressEvent *)
    unfold mouse_press.
    destruct (negb (tl_selecting_exclusion st));
      [exists st; auto|].
    destruct ((0 <=? x)%Z && (x <=? w)%Z) eqn:Hx; simpl;
      [|exists st; auto].
    apply andb_true_iff in Hx. destruct Hx as [Hx0 Hxw].
    apply Z.leb_le in Hx0, Hxw.
    destruct (time_at st x w) as [t|] eqn:T.
    + eexists. split; [reflexivity|].
      destruct (time_at_range st x w t Hd (conj Hx0 Hxw) T).
      unfold timeline_inv. simpl. repeat split; auto; injection H1 as <-; auto.
    + unfold time_at in T. destruct (w =? 0)%Z eqn:E; [|discriminate].
      apply Z.eqb_eq in E. lia.
  - (* mouseReleaseEvent *)
    unfold mouse_release.
    destruct (tl_selecting_exclusion st);
      [|exists st; auto].
    destruct (tl_temp_exclusion_start st) as [temp|] eqn:Etemp;
      [|exists st; auto].
    destruct (Htemp temp eq_refl) as [Ht0 Ht1].
    destruct (time_at st (Z.max 0 (Z.min x w)) w) as [t|] eqn:T.
    + assert (Hx : (0 <= Z.max 0 (Z.min x w) <= w)%Z) by lia.
      destruct (time_at_range st _ w t Hd Hx T) as [Hp0 Hp1].
      eexists. split; [reflexivity|].
      destruct (Py.Qltb (1 # 10) (Py.max temp t - Py.min temp t) && confirmed) eqn:G.
      * apply andb_true_iff in G. destruct G as [G _]. apply Qltb_lt in G.
        unfold timeline_inv. simpl.
        repeat split; auto; try discriminate.
        -- apply merge_separated.
        -- apply merge_bounds. apply Forall_app. split; auto.
           constructor; [|constructor]. simpl.
           destruct (py_max_spec temp t) as [[? Emax]|[? Emax]];
             destruct (py_min_spec temp t) as [[? Emin]|[? Emin]];
             rewrite Emax, Emin in *; repeat split; lra.
      * unfold timeline_inv. simpl. repeat split; auto; discriminate.
    + unfold time_at in T. destruct (w =? 0)%Z eqn:E; [|discriminate].
      apply Z.eqb_eq in E. lia.
  - (* reset_excluded_segments *)
    eexists. split; [reflexivity|].
    unfold timeline_inv. simpl. repeat split; auto; try constructor;
      apply Htemp; auto.
  - (* Escape *)
    eexists. split; [reflexivity|].
    destruct (tl_selecting_exclusion st); unfold timeline_inv; simpl;
      repeat split; auto; try discriminate; apply Htemp; auto.
Qed.

Lemma timeline_run_keeps (ops : list TimelineOp) :
  forall st,
    timeline_inv st -> events_ok st ops ->
    exists st', timeline_run st ops = Some st' /\ timeline_inv st'.
Proof.
  induction ops as [|op ops IH]; intros st Hinv Hok; simpl in *.
  - exists st. auto.
  - destruct Hok as [Hop Hrest].
    destruct (timeline_step_keeps st op Hinv Hop) as (st' & E & Hinv').
    rewrite E in *. now apply IH.
Qed.

(** ** Further properties of the timeline *)

Lemma total_length_nonneg (l : list Segment) :
  Forall (fun r => fst r < snd r) l -> 0 <= total_length l.
Proof. induction 1 as [|r l Hr _ IH]; simpl; lra. Qed.

Lemma effective_is_walk (w : TimelineWidget) :
  excluded_segments w <> [] ->
  separated (excluded_segments w) -> Forall proper (excluded_segments w) ->
  get_effective_segments w
  = PlannerSpec.walk (start_time w, end_time w) (start_time w)
      (excluded_segments w).
Proof.
  intros Hne Hs Hp. destruct w as [ps pe l]. simpl in *.
  rewrite effective_nonempty_walk by assumption.
  now rewrite (sorted_fixed _ (separated_proper_lex l Hs Hp)).
Qed.

(** X1.  Once a video of positive duration is set up, every sequence of
    slider moves, selections, mouse presses and releases, resets and escapes
    is handled without an error and leaves the trim range of positive length
    and the excluded segments inside the video, each longer than a tenth of a
    second and ending strictly before the next starts. *)
Theorem X1_timeline_handlers_keep_invariant :
  (forall d : Q, 0 < d -> timeline_inv (setup_timeline timeline_init d))
  /\ (forall (st : Timeline) (ops : list TimelineOp),
        timeline_inv st -> events_ok st ops ->
        exists st', timeline_run st ops = Some st' /\ timeline_inv st').
Proof.
  split.
  - intros d Hd. unfold timeline_inv. simpl.
    repeat split; try constructor; try lra; discriminate.
  - intros st ops. apply timeline_run_keeps.
Qed.

Lemma X1_witness :
  exists st',
    timeline_run (setup_timeline timeline_init 10) session = Some st'
    /\ timeline_inv st'.
Proof.
  destruct X1_timeline_handlers_keep_invariant as [Hsetup Hrun].
  apply Hrun.
  - apply Hsetup. lra.
  - vm_compute. repeat split; try reflexivity; intro; discriminate.
Defined.

(** X2.  For a trim range of positive length and excluded segments that
    are proper and separated, as the widget stores them, the effective
    duration [update_time_labels] shows is the total length of the segments
    [get_effective_segments] returns, and lies between 0 and the length of
    the trim range. *)
Theorem X2_effective_duration_is_length_kept :
  forall w : TimelineWidget,
    start_time w < end_time w ->
    separated (excluded_segments w) ->
    Forall proper (excluded_segments w) ->
    effective_duration w == total_length (get_effective_segments w)
    /\ 0 <= effective_duration w
    /\ effective_duration w <= end_time w - start_time w.
Proof.
  intros w Hlt Hs Hp.
  assert (Hpieces : Forall (fun r => fst r < snd r) (get_effective_segments w)).
  { destruct w as [ps pe [|x l]]; simpl in *.
    - repeat constructor; simpl; lra.
    - rewrite effective_nonempty_walk by discriminate.
      eapply Forall_impl; [|apply walk_pieces; lra]. simpl. tauto. }
  assert (E : effective_duration w == total_length (get_effective_segments w)).
  { unfold effective_duration. rewrite excluded_duration_sum.
    destruct (excluded_segments w) as [|x l] eqn:El.
    - unfold get_effective_segments. rewrite El. simpl. ring.
    - assert (Hne : excluded_segments w <> []) by (rewrite El; discriminate).
      rewrite <- El in Hs, Hp |- *.
      rewrite (effective_is_walk w Hne Hs Hp).
      rewrite (walk_total (start_time w) (end_time w) Hlt
                 (excluded_segments w) (start_time w)); try lra.
      now apply ahead_start. }
  split; [exact E|]. split.
  - rewrite E. now apply total_length_nonneg.
  - unfold effective_duration. rewrite excluded_duration_sum.
    pose proof (overlap_sum_bounds (start_time w) (end_time w)
                  (excluded_segments w) (Qlt_le_weak _ _ Hlt) Hp).
    lra.
Qed.

Lemma X2_witness :
  effective_duration (mkTimeline 0 10 [(2, 4); (5, 12)])
  == total_length (get_effective_segments (mkTimeline 0 10 [(2, 4); (5, 12)]))
  /\ 0 <= effective_duration (mkTimeline 0 10 [(2, 4); (5, 12)])
  /\ effective_duration (mkTimeline 0 10 [(2, 4); (5, 12)]) <= 10 - 0.
Proof.
  apply (X2_effective_duration_is_length_kept (mkTimeline 0 10 [(2, 4); (5, 12)])).
  - simpl. lra.
  - unfold separated. simpl. sorted_list.
  - repeat constructor; unfold proper; simpl; lra.
Defined.

(** X3.  For a trim range of positive length and excluded segments that
    are proper and separated, an instant lies in a segment
    [get_effective_segments] returns exactly when it lies in the trim range
    and in no excluded segment (starts included, ends excluded); and the
    returned segments are in order, each ending no later than the next
    starts. *)
Theorem X3_effective_segments_are_the_difference :
  forall w : TimelineWidget,
    start_time w < end_time w ->
    separated (excluded_segments w) ->
    Forall proper (excluded_segments w) ->
    (forall t : Q,
        within t (get_effective_segments w)
        <-> (start_time w <= t /\ t < end_time w)
            /\ ~ within t (excluded_segments w))
    /\ StronglySorted (fun a b => snd a <= fst b) (get_effective_segments w).
Proof.
  intros w Hlt Hs Hp.
  destruct (excluded_segments w) as [|x l] eqn:El.
  - unfold get_effective_segments. rewrite El. split.
    + intro t. rewrite within_cons. simpl. split.
      * intros [H|(r & [] & _)]. split; auto. intros (r & [] & _).
      * intros [H _]. auto.
    + repeat constructor.
  - rewrite effective_is_walk; rewrite ?El; auto; [|discriminate].
    split.
    + intro t. apply walk_within; auto; try lra. now apply ahead_start.
    + apply walk_ordered; auto; try lra. now apply ahead_start.
Qed.

Lemma X3_witness :
  (within 1 (get_effective_segments (mkTimeline 0 10 [(2, 4); (5, 12)]))
   <-> (0 <= 1 /\ 1 < 10) /\ ~ within 1 [(2, 4); (5, 12)])
  /\ StronglySorted (fun a b => snd a <= fst b)
       (get_effective_segments (mkTimeline 0 10 [(2, 4); (5, 12)])).
Proof.
  destruct (X3_effective_segments_are_the_difference
              (mkTimeline 0 10 [(2, 4); (5, 12)])) as [H1 H2].
  - simpl. lra.
  - unfold separated. simpl. sorted_list.
  - repeat constructor; unfold proper; simpl; lra.
  - split; [apply (H1 1) | exact H2].
Defined.

(** X4.  For a trim range of positive length, whatever the excluded
    segments (merged or not), every segment [get_effective_segments] returns
    has positive length and lies inside the trim range. *)
Theorem X4_effective_segments_are_proper_pieces :
  forall w : TimelineWidget,
    start_time w < end_time w ->
    Forall (fun r => start_time w <= fst r /\ fst r < snd r
                     /\ snd r <= end_time w)
      (get_effective_segments w).
Proof.
  intros [ps pe l] Hlt. simpl in *.
  destruct l as [|x l].
  - repeat constructor; simpl; lra.
  - rewrite effective_nonempty_walk by discriminate.
    apply walk_pieces; lra.
Qed.

Lemma X4_witness :
  Forall (fun r => 0 <= fst r /\ fst r < snd r /\ snd r <= 10)
    (get_effective_segments (mkTimeline 0 10 [(2, 8); (3, 4); (9, 20)])).
Proof.
  apply (X4_effective_segments_are_proper_pieces
           (mkTimeline 0 10 [(2, 8); (3, 4); (9, 20)])).
  simpl. lra.
Defined.

(** ** Properties of the thumbnail strip *)

Lemma py_int_mono (x y : Q) : 0 <= x -> x <= y -> (Py.int x <= Py.int y)%Z.
Proof.
  intros H0 H. rewrite !py_int_floor by lra. now apply Qfloor_resp_le.
Qed.

Lemma py_int_add (x y : Q) :
  0 <= x -> 0 <= y -> (Py.int x + Py.int y <= Py.int (x + y))%Z.
Proof.
  intros Hx Hy. rewrite !py_int_floor by lra.
  rewrite <- (Qfloor_Z (Qfloor x + Qfloor y)).
  apply Qfloor_resp_le. rewrite inject_Z_plus.
  pose proof (Qfloor_le x). pose proof (Qfloor_le y). lra.
Qed.

(** X23.  On a strip that is not of negative width, the rectangles
    [paintEvent] draws the thumbnails in lie inside the strip, and the
    rectangle of a thumbnail ends no later than the rectangle of any later
    thumbnail starts: thumbnails are never drawn over one another. *)
Theorem X23_thumbnails_tile_the_strip :
  forall (strip_width : Z) (num_thumbnails : nat) (i j : Z),
    (0 <= strip_width)%Z ->
    (0 <= i)%Z -> (i < j)%Z -> (j < Z.of_nat num_thumbnails)%Z ->
    let '(xi, wi) := thumbnail_rect strip_width num_thumbnails i in
    let '(xj, wj) := thumbnail_rect strip_width num_thumbnails j in
    (0 <= xi /\ 0 <= wi /\ xi + wi <= xj /\ xj + wj <= strip_width)%Z.
Proof.
  intros w n i j Hw Hi Hij Hj. unfold thumbnail_rect.
  set (tw := inject_Z w / inject_Z (Z.of_nat n)).
  assert (Hn : 0 < inject_Z (Z.of_nat n)).
  { change 0 with (inject_Z 0). rewrite <- Zlt_Qlt. lia. }
  assert (Htw : 0 <= tw).
  { apply Qdiv_nonneg; [now apply inject_Z_nonneg | lra]. }
  assert (Hi' : 0 <= inject_Z i) by (apply inject_Z_nonneg; lia).
  assert (Hj' : 0 <= inject_Z j) by (apply inject_Z_nonneg; lia).
  assert (Hxi : 0 <= inject_Z i * tw) by (apply Qmult_le_0_compat; lra).
  assert (Hxj : 0 <= inject_Z j * tw) by (apply Qmult_le_0_compat; lra).
  assert (Hnext : inject_Z i * tw + tw <= inject_Z j * tw).
  { assert (L : inject_Z i + 1 <= inject_Z j).
    { change 1 with (inject_Z 1). rewrite <- inject_Z_plus, <- Zle_Qle. lia. }
    assert (0 <= (inject_Z j - (inject_Z i + 1)) * tw)
      by (apply Qmult_le_0_compat; lra).
    lra. }
  assert (Hlast : inject_Z j * tw + tw <= inject_Z w).
  { assert (L : inject_Z j + 1 <= inject_Z (Z.of_nat n)).
    { change 1 with (inject_Z 1). rewrite <- inject_Z_plus, <- Zle_Qle. lia. }
    assert (E : inject_Z w == inject_Z (Z.of_nat n) * tw).
    { unfold tw. field. lra. }
    assert (0 <= (inject_Z (Z.of_nat n) - (inject_Z j + 1)) * tw)
      by (apply Qmult_le_0_compat; lra).
    lra. }
  split; [now apply py_int_nonneg|]. split; [now apply py_int_nonneg|].
  split.
  - pose proof (py_int_add (inject_Z i * tw) tw Hxi Htw).
    assert (P : 0 <= inject_Z i * tw + tw) by lra.
    pose proof (py_int_mono _ _ P Hnext). lia.
  - pose proof (py_int_add (inject_Z j * tw) tw Hxj Htw).
    assert (Py.int (inject_Z j * tw + tw) <= w)%Z.
    { apply py_int_le; lra. }
    lia.
Qed.

Lemma X23_witness :
  let '(xi, wi) := thumbnail_rect 1000 7 2 in
  let '(xj, wj) := thumbnail_rect 1000 7 6 in
  (0 <= xi /\ 0 <= wi /\ xi + wi <= xj /\ xj + wj <= 1000)%Z.
Proof.
  apply (X23_thumbnails_tile_the_strip 1000 7 2 6); simpl; lia.
Defined.

(** X24.  For a video of positive duration and an excluded segment that
    lies in the video, as the widget keeps them, the rectangle [paintEvent]
    shades lies inside the strip and its width is not negative. *)
Theorem X24_excluded_rect_inside_the_strip :
  forall (duration : Q) (strip_width : Z) (segment : Segment),
    0 < duration -> (0 <= strip_width)%Z ->
    0 <= fst segment -> fst segment <= snd segment ->
    snd segment <= duration ->
    let '(x, w) := excluded_rect duration strip_width segment in
    (0 <= x /\ 0 <= w /\ x + w <= strip_width)%Z.
Proof.
  intros d w [s e] Hd Hw Hs Hse He. simpl in *.
  assert (HW : 0 <= inject_Z w) by now apply inject_Z_nonneg.
  assert (Ps : 0 <= s / d) by (apply Qdiv_nonneg; lra).
  assert (Pse : s / d <= e / d).
  { apply Qle_shift_div_l; [lra|].
    assert (E : s / d * d == s) by (field; lra). lra. }
  assert (Pe : e / d <= 1) by (apply Qle_shift_div_r; lra).
  assert (A : 0 <= s / d * inject_Z w) by (apply Qmult_le_0_compat; lra).
  assert (B : s / d * inject_Z w <= e / d * inject_Z w).
  { assert (0 <= (e / d - s / d) * inject_Z w)
      by (apply Qmult_le_0_compat; lra). lra. }
  assert (D : e / d * inject_Z w <= inject_Z w).
  { assert (0 <= (1 - e / d) * inject_Z w)
      by (apply Qmult_le_0_compat; lra). lra. }
  pose proof (py_int_nonneg _ A).
  pose proof (py_int_mono _ _ A B).
  assert (Py.int (e / d * inject_Z w) <= w)%Z by (apply py_int_le; lra).
  lia.
Qed.

Lemma X24_witness :
  let '(x, w) := excluded_rect 10 1000 (2, 4) in
  (0 <= x /\ 0 <= w /\ x + w <= 1000)%Z.
Proof.
  apply (X24_excluded_rect_inside_the_strip 10 1000 (2, 4)); simpl;
    try lra; lia.
Defined.

(** ** Further properties of [generate_preview] *)

Section PreviewFrames.

Variable C : Collaborators.
Variable self : VideoProcessor.
Variable a : PreviewArgs.

(** A property every processed frame has. *)
Variable P : Frame -> Prop.
Hypothesis processed_P :
  forall frame processed,
    apply_processing C frame (pv_dimensions a) (pv_crop_rect a) = inr processed ->
    P processed.

Lemma preview_loop_adds (n : nat) :
  forall end_frame desired step cur count frames out,
    preview_loop C a n end_frame desired step cur count frames = Some (inr out) ->
    exists added,
      out = frames ++ added /\ Forall P added
      /\ (Z.of_nat (length added) <= Z.max 0 (desired - count))%Z.
Proof.
  induction n as [|n IH]; intros end_frame desired step cur count frames out H;
    simpl in H; [discriminate|].
  destruct (Py.Qltb cur (inject_Z end_frame) && (count <? desired)%Z) eqn:G.
  - apply andb_prop in G. destruct G as [_ G]. apply Z.ltb_lt in G.
    destruct (cap_read C (Py.int cur)) as [frame|].
    + destruct (apply_processing C frame (pv_dimensions a) (pv_crop_rect a))
        as [e|processed] eqn:A; [discriminate|].
      apply IH in H. destruct H as (added & -> & HP & Hlen).
      exists (processed :: added). rewrite <- app_assoc. simpl.
      split; [reflexivity|]. split.
      * constructor; eauto.
      * lia.
    + apply IH in H. destruct H as (added & -> & HP & Hlen).
      exists added. repeat split; auto.
  - injection H as <-. exists []. rewrite app_nil_r.
    repeat split; auto. simpl. lia.
Qed.

Lemma preview_range_adds (n : nat) (s e : Q) (frames out : list Frame) :
  preview_range C self a n s e frames = Some (inr out) ->
  exists added,
    out = frames ++ added /\ Forall P added
    /\ (Z.of_nat (length added) <= Z.max 0 (Py.int ((e - s) * pv_fps a)))%Z.
Proof.
  unfold preview_range. intro H. apply preview_loop_adds in H.
  destruct H as (added & -> & HP & Hlen). exists added.
  repeat split; auto. now rewrite Z.sub_0_r in Hlen.
Qed.

Lemma preview_segments_adds (n : nat) (segments : list Segment) :
  forall frames out,
    preview_segments C self a n segments frames = Some (inr out) ->
    exists added,
      out = frames ++ added /\ Forall P added
      /\ (Z.of_nat (length added) <= desired_total (pv_fps a) segments)%Z.
Proof.
  induction segments as [|[s e] rest IH]; intros frames out H; simpl in H.
  - injection H as <-. exists []. rewrite app_nil_r. repeat split; auto.
    simpl. lia.
  - destruct (preview_range C self a n s e frames) as [[x|mid]|] eqn:R;
      try discriminate.
    apply preview_range_adds in R. destruct R as (add1 & -> & HP1 & Hl1).
    apply IH in H. destruct H as (add2 & -> & HP2 & Hl2).
    exists (add1 ++ add2). rewrite app_assoc. split; [reflexivity|]. split.
    + apply Forall_app. auto.
    + rewrite length_app, Nat2Z.inj_add. simpl. lia.
Qed.

Lemma generate_preview_adds (n : nat) (frames : list Frame) (fps : Q) :
  generate_preview C self a n = Some (inr (Pair frames fps)) ->
  Forall P frames
  /\ (Z.of_nat (length frames) <= desired_total (pv_fps a) (preview_ranges a))%Z.
Proof.
  unfold generate_preview, preview_ranges.
  destruct (negb (cap_opened self)); [discriminate|].
  destruct (pv_segments a) as [|x l] eqn:S.
  - destruct (preview_range C self a n (pv_start_time a) (pv_end_time a) [])
      as [[e|out]|] eqn:R; try discriminate.
    intro H. injection H as <- _.
    apply preview_range_adds in R. destruct R as (added & -> & HP & Hl).
    simpl in *. split; [assumption|lia].
  - destruct (preview_segments C self a n (x :: l) []) as [[e|out]|] eqn:R;
      try discriminate.
    intro H. injection H as <- _.
    apply preview_segments_adds in R. destruct R as (added & -> & HP & Hl).
    simpl in *. split; assumption.
Qed.

End PreviewFrames.

Lemma apply_processing_dimensions (C : Collaborators) (frame processed : Frame)
    (dimensions : nat * nat) (crop_rect : option (nat * nat * nat * nat)) :
  resize_contract C ->
  apply_processing C frame dimensions crop_rect = inr processed ->
  has_dimensions dimensions processed.
Proof.
  intros HR. unfold apply_processing.
  set (cropped := match crop_rect with
                  | Some (x, y, w, h) => crop_frame frame x y w h
                  | None => frame
                  end).
  destruct dimensions as [tw th].
  destruct (negb (tw =? width cropped)%nat || negb (th =? height cropped)%nat) eqn:G.
  - destruct (cv2_resize C cropped tw th) as [resized|] eqn:R; [|discriminate].
    intro H. injection H as <-. apply HR in R. unfold has_dimensions. simpl. tauto.
  - intro H. injection H as <-.
    apply orb_false_elim in G. destruct G as [G1 G2].
    apply negb_false_iff in G1, G2. apply Nat.eqb_eq in G1, G2.
    unfold has_dimensions. simpl. auto.
Qed.


(** X5.  When [cv2.resize] returns an array of the requested size, every
    frame [generate_preview] returns has the requested width and height,
    with or without a crop rectangle, whatever the size of the decoded
    frames. *)
Theorem X5_preview_frames_have_requested_dimensions :
  forall (C : Collaborators) (self : VideoProcessor) (a : PreviewArgs)
         (turns : nat) (frames : list Frame) (fps : Q),
    resize_contract C ->
    generate_preview C self a turns = Some (inr (Pair frames fps)) ->
    Forall (has_dimensions (pv_dimensions a)) frames.
Proof.
  intros C self a turns frames fps HR H.
  eapply (generate_preview_adds C self a (has_dimensions (pv_dimensions a))); eauto.
  intros frame processed. now apply apply_processing_dimensions.
Qed.

Lemma X5_witness :
  exists frames fps,
    generate_preview steady loaded preview_cropped 40
    = Some (inr (Pair frames fps))
    /\ Forall (has_dimensions (320, 180)%nat) frames.
Proof.
  eexists. eexists. split.
  - vm_compute. reflexivity.
  - apply (X5_preview_frames_have_requested_dimensions
             steady loaded preview_cropped 40 _ 4).
    + exact steady_resize_contract.
    + vm_compute. reflexivity.
Defined.





(** ** Properties of [get_thumbnails] *)

Lemma range_as_multiples (n : Z) :
  Py.range n = map (fun i => (Z.of_nat i * 1)%Z) (seq 0 (Z.to_nat n)).
Proof.
  unfold Py.range. apply map_ext. intro i. lia.
Qed.

Lemma firstn_seq_le (n : nat) :
  forall start len, (n <= len)%nat -> firstn n (seq start len) = seq start n.
Proof.
  induction n as [|n IH]; intros start len H; [reflexivity|].
  destruct len as [|len]; [lia|]. simpl. f_equal. apply IH. lia.
Qed.

Lemma frames_to_extract_plan (frame_count count : Z) :
  (0 < frame_count)%Z -> (0 < count)%Z ->
  frames_to_extract frame_count count
  = inr (map (fun i => (Z.of_nat i * thumbnail_step frame_count count)%Z)
           (seq 0 (Z.to_nat (Z.min frame_count count)))).
Proof.
  intros Hf Hc. unfold frames_to_extract, thumbnail_step.
  destruct (frame_count <=? count)%Z eqn:E.
  - apply Z.leb_le in E. rewrite Z.min_l by assumption.
    now rewrite range_as_multiples.
  - apply Z.leb_gt in E. rewrite Z.min_r by lia.
    assert (Hc0 : (count =? 0)%Z = false) by (apply Z.eqb_neq; lia).
    rewrite Hc0.
    set (step := (frame_count / count)%Z).
    assert (Hstep : (1 <= step)%Z).
    { unfold step. apply Z.div_le_lower_bound; lia. }
    assert (Hmul : (count * step <= frame_count)%Z).
    { unfold step. apply Z.mul_div_le. assumption. }
    assert (Hs0 : (step =? 0)%Z = false) by (apply Z.eqb_neq; lia).
    rewrite Hs0. f_equal.
    unfold slice_to, range_step.
    assert (H1 : (0 <=? count)%Z = true) by (apply Z.leb_le; lia).
    assert (H2 : (0 <? step)%Z = true) by (apply Z.ltb_lt; lia).
    assert (H3 : (0 <? frame_count)%Z = true) by (apply Z.ltb_lt; lia).
    rewrite H1, H2, H3.
    rewrite firstn_map, firstn_seq_le; [reflexivity|].
    assert (count - 1 <= (frame_count - 1) / step)%Z.
    { apply Z.div_le_lower_bound; nia. }
    lia.
Qed.

Lemma extract_thumbnails_adds (C : Collaborators) (self : VideoProcessor)
    (P : Frame -> Prop) (l : list Z) :
  (forall frame thumbnail,
      cv2_resize C frame (Z.to_nat (thumb_width self)) 60 = Some thumbnail ->
      P thumbnail) ->
  forall thumbnails out,
    extract_thumbnails C self l thumbnails = inr out ->
    exists added,
      out = thumbnails ++ added /\ Forall P added
      /\ (length added <= length l)%nat.
Proof.
  intro HP. induction l as [|k l IH]; intros thumbnails out H; simpl in H.
  - injection H as <-. exists []. rewrite app_nil_r. repeat split; auto.
  - destruct (cap_read C k) as [frame|].
    + destruct (source_height self =? 0)%nat; [discriminate|].
      destruct (cv2_resize C frame (Z.to_nat (thumb_width self)) 60)
        as [thumbnail|] eqn:R; [|discriminate].
      apply IH in H. destruct H as (added & -> & HA & Hl).
      exists (thumbnail :: added). rewrite <- app_assoc. simpl.
      split; [reflexivity|]. split; [constructor; eauto|]. simpl. lia.
    + apply IH in H. destruct H as (added & -> & HA & Hl).
      exists added. split; [reflexivity|]. split; [assumption|]. simpl. lia.
Qed.

(** X8.  For a positive [count] and a video of [frame_count > 0] frames,
    [get_thumbnails] asks for exactly [min(frame_count, count)] frames: the
    multiples [0, step, 2*step, ...] of a step of at least 1 (1 when the
    video has no more than [count] frames, [frame_count // count]
    otherwise), each one a frame number of the video. *)
Theorem X8_thumbnail_frame_numbers :
  forall frame_count count : Z,
    (0 < frame_count)%Z -> (0 < count)%Z ->
    exists frames,
      frames_to_extract frame_count count = inr frames
      /\ frames = map (fun k => (k * thumbnail_step frame_count count)%Z)
                    (Py.range (Z.min frame_count count))
      /\ (1 <= thumbnail_step frame_count count)%Z
      /\ Forall (fun frame_num => (0 <= frame_num < frame_count)%Z) frames.
Proof.
  intros fc count Hf Hc. eexists. split; [now apply frames_to_extract_plan|].
  assert (Hstep : (1 <= thumbnail_step fc count)%Z).
  { unfold thumbnail_step. destruct (fc <=? count)%Z eqn:E; [lia|].
    apply Z.leb_gt in E. apply Z.div_le_lower_bound; lia. }
  split; [|split; [exact Hstep|]].
  - unfold Py.range. now rewrite map_map.
  - apply Forall_forall. intros x Hx. apply in_map_iff in Hx.
    destruct Hx as (i & <- & Hi). apply in_seq in Hi.
    unfold thumbnail_step in *. destruct (fc <=? count)%Z eqn:E.
    + apply Z.leb_le in E. lia.
    + apply Z.leb_gt in E.
      assert (Hmul : (count * (fc / count) <= fc)%Z)
        by (apply Z.mul_div_le; lia).
      rewrite Z.min_r in Hi by lia. nia.
Qed.

Lemma X8_witness :
  exists frames,
    frames_to_extract 95 10 = inr frames
    /\ frames = map (fun k => (k * thumbnail_step 95 10)%Z)
                  (Py.range (Z.min 95 10))
    /\ (1 <= thumbnail_step 95 10)%Z
    /\ Forall (fun frame_num => (0 <= frame_num < 95)%Z) frames.
Proof.
  apply (X8_thumbnail_frame_numbers 95 10); lia.
Defined.

(** X9.  When [cv2.resize] returns an array of the requested size,
    [get_thumbnails] with a positive [count] returns at most
    [min(frame_count, count)] thumbnails, each 60 high and
    [int(width * 60 / height)] wide. *)
Theorem X9_thumbnails_bounded_and_sized :
  forall (C : Collaborators) (self : VideoProcessor)
         (frame_count count : Z) (thumbnails : list Frame),
    resize_contract C ->
    (0 <= frame_count)%Z -> (0 < count)%Z ->
    get_thumbnails C self frame_count count = inr thumbnails ->
    (Z.of_nat (length thumbnails) <= Z.min frame_count count)%Z
    /\ Forall (has_dimensions (Z.to_nat (thumb_width self), 60%nat)) thumbnails.
Proof.
  intros C self fc count thumbnails HR Hf Hc. unfold get_thumbnails.
  destruct (negb (cap_opened self) || (fc =? 0)%Z) eqn:G.
  - intro H. injection H as <-. simpl. split; [lia|constructor].
  - apply orb_false_elim in G. destruct G as [_ G]. apply Z.eqb_neq in G.
    rewrite frames_to_extract_plan by lia.
    intro H.
    apply (extract_thumbnails_adds C self
             (has_dimensions (Z.to_nat (thumb_width self), 60%nat))) in H.
    + destruct H as (added & -> & HA & Hl). simpl. split; [|assumption].
      rewrite length_map, length_seq in Hl. lia.
    + intros frame thumbnail R. apply HR in R. unfold has_dimensions. simpl.
      tauto.
Qed.

Lemma X9_witness :
  exists thumbnails,
    get_thumbnails steady loaded 95 10 = inr thumbnails
    /\ (Z.of_nat (length thumbnails) <= Z.min 95 10)%Z
    /\ Forall (has_dimensions (Z.to_nat (thumb_width loaded), 60%nat)) thumbnails.
Proof.
  eexists. split.
  - vm_compute. reflexivity.
  - apply (X9_thumbnails_bounded_and_sized steady loaded 95 10).
    + exact steady_resize_contract.
    + lia.
    + lia.
    + vm_compute. reflexivity.
Defined.

(** ** Further properties of [create_gif] *)

Lemma written_bind {A} (C : Collaborators) (m : Run A) (f : A -> Run bool) :
  (forall x, written_when_true C (f x)) -> written_when_true C (bind m f).
Proof.
  intro Hf. destruct m as [t [e|x]]; unfold written_when_true; simpl;
    [discriminate|].
  specialize (Hf x). unfold written_when_true in Hf.
  destruct (f x) as [t' r]; simpl in *.
  intro Hr. apply Exists_app. right. auto.
Qed.

Lemma written_try (C : Collaborators) (m : Run bool) (h : Exn -> Run bool) :
  written_when_true C m -> (forall e, written_when_true C (h e)) ->
  written_when_true C (try_except m h).
Proof.
  intros Hm Hh. destruct m as [t [e|x]]; unfold written_when_true in *;
    simpl in *.
  - specialize (Hh e). destruct (h e) as [t' r]; simpl in *.
    intro Hr. apply Exists_app. right. auto.
  - exact Hm.
Qed.

Lemma written_ret_false (C : Collaborators) : written_when_true C (ret false).
Proof. unfold written_when_true. simpl. discriminate. Qed.

Lemma written_raise (C : Collaborators) (e : Exn) :
  written_when_true C (raise e).
Proof. unfold written_when_true. simpl. discriminate. Qed.

(** Whatever follows an encoder call that returned keeps it in the trace. *)
Lemma written_after_mimsave (C : Collaborators) (frames : list Frame)
    (fps quality : Q) (loop : bool) (k : Run bool) :
  written_when_true C (mimsave C frames fps quality loop ;; k).
Proof.
  unfold written_when_true, mimsave. simpl.
  destruct (mimsave_returns C frames fps (quantizer_of quality) (loop_param loop))
    eqn:R; simpl; [|discriminate].
  destruct k as [t r]. simpl. intros _. constructor. exact R.
Qed.

Lemma written_after_write_gif (C : Collaborators) (clip : Clip) (call : Event)
    (k : Run bool) :
  (forall p, call <> Progress p) ->
  (forall frames fps quantizer loop, call <> Mimsave frames fps quantizer loop) ->
  written_when_true C (call_write_gif C clip call ;; k).
Proof.
  intros Hp Hm. unfold written_when_true, call_write_gif. simpl.
  destruct (write_gif C clip call) eqn:W; simpl; [|discriminate].
  destruct k as [t r]. simpl. intros _. constructor.
  destruct call; simpl; eauto.
  - now elim (Hp percent).
  - now elim (Hm frames fps quantizer loop).
Qed.

(** A block that returned [True] and what follows it. *)
Lemma written_then (C : Collaborators) (m : Run bool) (k : bool -> Run bool) :
  written_when_true C m -> snd (k false) <> inr true ->
  written_when_true C (written <- m ;; k written).
Proof.
  intros Hm Hk. destruct m as [t [e|[|]]]; unfold written_when_true in *;
    simpl in *.
  - discriminate.
  - destruct (k true) as [t' r]. simpl. intros _.
    apply Exists_app. left. auto.
  - destruct (k false) as [t' r]. simpl in *. intro Hr. contradiction.
Qed.


Section WrittenFacts.

Variable C : Collaborators.
Variable self : VideoProcessor.
Variable a : GifArgs.

Lemma encode_written (frames : list Frame) (before : Z) :
  written_when_true C
    match compatible_frames C frames with
    | [] => ret false
    | (_ :: _) as checked =>
        report (arg_progress_callback a) before ;;
        mimsave C checked (arg_fps a) (arg_quality a) (arg_loop a) ;;
        report (arg_progress_callback a) 100 ;;
        ret true
    end.
Proof.
  destruct (compatible_frames C frames); [apply written_ret_false|].
  apply written_bind. intros _. apply written_after_mimsave.
Qed.

Lemma create_gif_segments_written (segments : list Segment) :
  written_when_true C (create_gif_segments C a segments).
Proof.
  unfold create_gif_segments.
  apply written_try; [|intro; apply written_ret_false].
  apply written_bind. intros frames. unfold encode_segments.
  destruct frames; [apply written_ret_false | apply encode_written].
Qed.

Lemma speed_branch_written (clip : Clip) (d : Q) :
  written_when_true C (speed_branch C a clip d).
Proof.
  unfold speed_branch. apply written_bind. intros frames.
  destruct frames; [apply written_ret_false | apply encode_written].
Qed.

Lemma direct_imageio_written (clip : Clip) :
  written_when_true C (direct_imageio C a clip).
Proof.
  unfold direct_imageio.
  apply written_try; [|intro; apply written_ret_false].
  apply written_bind. intros frames.
  destruct frames; [apply written_ret_false | apply written_after_mimsave].
Qed.

Lemma standard_methods_written (clip : Clip) :
  written_when_true C (standard_methods C a clip).
Proof.
  unfold standard_methods. apply written_bind. intros _.
  apply written_then; [|simpl; discriminate].
  apply written_try.
  - apply written_after_write_gif; intros; discriminate.
  - intros [|]; [|apply written_raise].
    apply written_try.
    + apply written_after_write_gif; intros; discriminate.
    + intros _. apply direct_imageio_written.
Qed.

Lemma create_gif_single_written :
  written_when_true C (create_gif_single C self a).
Proof.
  unfold create_gif_single. apply written_bind. intros clip.
  destruct (negb (Qeq_bool (arg_speed_factor a) 1)).
  - pose proof (speed_branch_written clip (clip_duration clip)) as H.
    destruct (speed_branch C a clip (clip_duration clip)) as [t [e|[|]]];
      unfold written_when_true in *; simpl in *.
    + discriminate.
    + rewrite app_nil_r. exact H.
    + pose proof (standard_methods_written clip) as K.
      unfold written_when_true in K.
      destruct (standard_methods C a clip) as [t' r]. simpl in *.
      intro Hr. apply Exists_app. right. auto.
  - pose proof (standard_methods_written clip) as K.
    unfold written_when_true in *. simpl.
    destruct (standard_methods C a clip) as [t' r]. simpl in *. exact K.
Qed.

Lemma create_gif_written : written_when_true C (create_gif C self a).
Proof.
  unfold create_gif. destruct (negb _); [apply written_ret_false|].
  apply written_try; [|intro; apply written_ret_false].
  destruct (video_path_exists self); [|apply written_ret_false].
  destruct (arg_segments a).
  - apply create_gif_single_written.
  - apply create_gif_segments_written.
Qed.

Lemma create_gif_no_escape : exists b, snd (create_gif C self a) = inr b.
Proof.
  unfold create_gif. destruct (negb _); [simpl; eauto|].
  match goal with |- context [try_except ?m _] => destruct m as [t [e|b]] end;
    simpl; eauto.
Qed.

(** *** Speed factor 0 *)

Hypothesis stopped : arg_speed_factor a == 0.









End WrittenFacts.

(** X10.  [create_gif] lets no exception escape: whatever the
    collaborators do, it returns [True] or [False]; and it returns [True]
    only after a call of [imageio.mimsave] or of [clip.write_gif] that
    returned, never on the strength of a call that raised. *)
Theorem X10_create_gif_true_only_after_a_write :
  forall (C : Collaborators) (self : VideoProcessor) (a : GifArgs),
    (exists b, snd (create_gif C self a) = inr b)
    /\ (snd (create_gif C self a) = inr true ->
        Exists (completed_write C) (fst (create_gif C self a))).
Proof.
  intros C self a. split.
  - apply create_gif_no_escape.
  - apply create_gif_written.
Qed.

Lemma X10_witness :
  (exists b, snd (create_gif steady loaded two_segments) = inr b)
  /\ Exists (completed_write steady) (fst (create_gif steady loaded two_segments)).
Proof.
  destruct (X10_create_gif_true_only_after_a_write steady loaded two_segments)
    as [Hb Hw].
  split; [exact Hb|]. apply Hw. vm_compute. reflexivity.
Defined.



(** ** Properties of the fallback [VideoFileClip] *)

Section FallbackFacts.

Variable C : Collaborators.
Variable save_returns : list Frame -> Q -> bool.
Variable self : FallbackClip.



Lemma py_int_below (x : Q) (k : Z) :
  0 <= x -> x < inject_Z k -> (Py.int x < k)%Z.
Proof.
  intros H0 H. rewrite py_int_floor by assumption.
  pose proof (Qfloor_le x) as F.
  rewrite Zlt_Qlt. lra.
Qed.

Lemma fallback_loop_reads (turns : nat) :
  forall end_frame desired step cur count frames reads reads' r,
    0 <= step -> 0 <= cur ->
    fallback_loop C self turns end_frame desired step cur count frames reads
    = Some (reads', r) ->
    exists new,
      reads' = reads ++ new
      /\ Forall (fun n => (0 <= n < end_frame)%Z) new.
Proof.
  induction turns as [|n IH]; intros end_frame desired step cur count frames
    reads reads' r Hs Hc H; simpl in H; [discriminate|].
  destruct (Py.Qltb cur (inject_Z end_frame) && (count <? desired)%Z) eqn:G.
  - apply andb_prop in G. destruct G as [G _]. qprop.
    assert (Hn : (0 <= Py.int cur < end_frame)%Z).
    { split; [now apply py_int_nonneg | now apply py_int_below]. }
    destruct (cap_read C (Py.int cur)) as [frame|].
    + match type of H with context [match ?m with Some _ => _ | None => _ end] =>
        destruct m as [resized|] end.
      * apply IH in H; [|assumption|lra].
        destruct H as (new & -> & Hnew).
        exists (Py.int cur :: new). rewrite <- app_assoc. simpl.
        split; [reflexivity|]. constructor; assumption.
      * injection H as <- _. exists [Py.int cur]. split; [reflexivity|].
        repeat constructor; lia.
    + injection H as <- _. exists [Py.int cur]. split; [reflexivity|].
      repeat constructor; lia.
  - injection H as <- _. exists []. rewrite app_nil_r. split; [reflexivity|].
    constructor.
Qed.

(** A range that spans no source frame is not read at all. *)
Lemma fallback_loop_empty (turns : nat) :
  forall end_frame desired step cur count frames reads reads' r,
    inject_Z end_frame <= cur ->
    fallback_loop C self turns end_frame desired step cur count frames reads
    = Some (reads', r) ->
    reads' = reads.
Proof.
  destruct turns as [|n]; intros end_frame desired step cur count frames
    reads reads' r Hc H; simpl in H; [discriminate|].
  destruct (Py.Qltb cur (inject_Z end_frame)) eqn:G; [qprop; lra|].
  simpl in H. now injection H as <- _.
Qed.

End FallbackFacts.



Lemma fallback_clip_fields (fps : Q) (frame_count : Z) (size : nat * nat)
    (r : ClipRequest) :
  fb_fps (fallback_clip fps frame_count size r) = fps
  /\ fb_start_time (fallback_clip fps frame_count size r)
     = Py.max 0 (req_start r)
  /\ fb_end_time (fallback_clip fps frame_count size r)
     = Py.min (if Py.Qltb 0 fps then inject_Z frame_count / fps else 0)
         (req_end r).
Proof.
  unfold fallback_clip.
  destruct (req_crop r) as [[[[x1 y1] x2] y2]|];
    destruct (req_resize r) as [[w h]|]; simpl; auto.
Qed.

(** X13.  On a clip [create_gif] builds with the fallback class from a
    video of positive frame rate, [write_gif] only reads frame numbers of
    the video, from 0 up to [frame_count - 1], whatever the times of the
    request: [subclip] clamps them to the video. *)
Theorem X13_fallback_reads_inside_the_video :
  forall (C : Collaborators) (save_returns : list Frame -> Q -> bool)
         (source_fps : Q) (frame_count : Z) (size : nat * nat)
         (r : ClipRequest) (fps : option Q) (turns : nat)
         (out : FallbackOutcome),
    0 < source_fps -> (0 <= frame_count)%Z ->
    fallback_write_gif C save_returns
      (fallback_clip source_fps frame_count size r) fps turns = Some out ->
    Forall (fun n => (0 <= n < frame_count)%Z) (fo_reads out).
Proof.
  intros C save_returns sfps fc size r fps turns out Hfps Hfc.
  unfold fallback_write_gif.
  destruct (fallback_clip_fields sfps fc size r) as (F1 & F2 & F3).
  set (clip := fallback_clip sfps fc size r) in *.
  rewrite F1, F2, F3.
  assert (Hpos : Py.Qltb 0 sfps = true).
  { destruct (Py.Qltb 0 sfps) eqn:E; [reflexivity|]. qprop. lra. }
  rewrite Hpos.
  set (start_frame := Py.int (Py.max 0 (req_start r) * sfps)).
  set (end_frame := Py.int (Py.min (inject_Z fc / sfps) (req_end r) * sfps)).
  set (desired := desired_frame_count clip fps).
  set (step := if (0 <? desired)%Z
               then inject_Z (end_frame - start_frame) / inject_Z desired
               else 1).
  assert (Hstart : (0 <= start_frame)%Z).
  { apply py_int_nonneg. rewrite py_max_Qmax.
    assert (0 <= Qmax 0 (req_start r)) by (qminmax; lra). nra. }
  assert (Hend : (end_frame <= fc)%Z).
  { unfold end_frame. rewrite py_min_Qmin.
    set (x := Qmin (inject_Z fc / sfps) (req_end r) * sfps).
    assert (Hx : x <= inject_Z fc).
    { unfold x.
      assert (Qmin (inject_Z fc / sfps) (req_end r) <= inject_Z fc / sfps)
        by (qminmax; lra).
      assert (E : inject_Z fc == inject_Z fc / sfps * sfps) by (field; lra).
      set (d := inject_Z fc / sfps) in *.
      set (m := Qmin d (req_end r)) in *.
      assert (0 <= (d - m) * sfps) by (apply Qmult_le_0_compat; lra).
      lra. }
    destruct (Qlt_le_dec x 0) as [Hn|Hp].
    - pose proof (py_int_nonpos x (Qlt_le_weak _ _ Hn)). lia.
    - now apply py_int_le. }
  assert (Hreads :
    forall reads res,
      fallback_loop C clip turns end_frame desired step
        (inject_Z start_frame) 0 [] [] = Some (reads, res) ->
      Forall (fun n => (0 <= n < fc)%Z) reads).
  { intros reads res E.
    destruct (Z_lt_le_dec start_frame end_frame) as [Hlt|Hge].
    - apply fallback_loop_reads in E.
      + destruct E as (new & -> & Hnew). simpl.
        eapply Forall_impl; [|exact Hnew]. simpl. intros; lia.
      + unfold step. destruct (0 <? desired)%Z eqn:D; [|lra].
        apply Z.ltb_lt in D. apply Qdiv_nonneg; apply inject_Z_nonneg; lia.
      + now apply inject_Z_nonneg.
    - apply fallback_loop_empty in E; [rewrite E; constructor|].
      now rewrite <- Zle_Qle. }
  destruct (fallback_loop C clip turns end_frame desired step
              (inject_Z start_frame) 0 [] []) as [[reads [e|[|f fs]]]|] eqn:E;
    try discriminate; intro H; injection H as <-; simpl; eapply Hreads; eauto.
Qed.

Lemma X13_witness :
  exists out,
    fallback_write_gif steady saves
      (fallback_clip 30 90 (640, 360)%nat request_beyond) (Some 10) 40
    = Some out
    /\ Forall (fun n => (0 <= n < 90)%Z) (fo_reads out).
Proof.
  eexists. split.
  - vm_compute. reflexivity.
  - apply (X13_fallback_reads_inside_the_video steady saves
             30 90 (640, 360)%nat request_beyond (Some 10) 40).
    + lra.
    + lia.
    + vm_compute. reflexivity.
Defined.

(** ** Properties of the preview widget *)

Lemma clamp_range (v bound : Q) :
  0 <= bound ->
  0 <= Py.max 0 (Py.min v bound) /\ Py.max 0 (Py.min v bound) <= bound.
Proof.
  intro Hb. rewrite py_max_Qmax, py_min_Qmin.
  destruct (Qmin_cases v bound) as [[G E]|[G E]]; rewrite E;
    split; qminmax; lra.
Qed.

(** One axis of the rectangle: the corner and the extent, scaled to the
    original image, stay inside it. *)
Lemma crop_axis_bounds (original scaled : Z) (s e : Q) :
  (0 < scaled)%Z -> (0 <= original)%Z ->
  0 <= s <= inject_Z scaled -> 0 <= e <= inject_Z scaled ->
  let scale := inject_Z original / inject_Z scaled in
  let corner := Py.int (inject_Z (Py.int (Py.min s e)) * scale) in
  let extent := Py.int (inject_Z (Py.int (Qabs (e - s))) * scale) in
  (0 <= corner)%Z /\ (0 <= extent)%Z /\ (corner + extent <= original)%Z.
Proof.
  intros Hs Ho [Hs0 Hs1] [He0 He1] scale corner extent.
  assert (HS : 0 < inject_Z scaled).
  { change 0 with (inject_Z 0). now rewrite <- Zlt_Qlt. }
  assert (Hscale : 0 <= scale).
  { apply Qdiv_nonneg; [now apply inject_Z_nonneg | lra]. }
  assert (Hmin : 0 <= Py.min s e /\ Py.min s e <= s /\ Py.min s e <= e).
  { rewrite py_min_Qmin. repeat split; qminmax; lra. }
  assert (Habs : 0 <= Qabs (e - s)) by apply Qabs_nonneg.
  assert (Hsum : Py.min s e + Qabs (e - s) <= inject_Z scaled).
  { rewrite py_min_Qmin. apply Qabs_case; intro; qminmax; lra. }
  set (cx := Py.int (Py.min s e)) in *.
  set (cw := Py.int (Qabs (e - s))) in *.
  assert (Hcx : 0 <= inject_Z cx /\ inject_Z cx <= Py.min s e).
  { unfold cx. rewrite py_int_floor by tauto. split.
    - apply inject_Z_nonneg. change 0%Z with (Qfloor 0).
      apply Qfloor_resp_le. tauto.
    - apply Qfloor_le. }
  assert (Hcw : 0 <= inject_Z cw /\ inject_Z cw <= Qabs (e - s)).
  { unfold cw. rewrite py_int_floor by assumption. split.
    - apply inject_Z_nonneg. change 0%Z with (Qfloor 0).
      now apply Qfloor_resp_le.
    - apply Qfloor_le. }
  assert (Hx : 0 <= inject_Z cx * scale) by (apply Qmult_le_0_compat; tauto).
  assert (Hw : 0 <= inject_Z cw * scale) by (apply Qmult_le_0_compat; tauto).
  split; [now apply py_int_nonneg|]. split; [now apply py_int_nonneg|].
  unfold corner, extent. rewrite !py_int_floor by assumption.
  pose proof (Qfloor_le (inject_Z cx * scale)) as F1.
  pose proof (Qfloor_le (inject_Z cw * scale)) as F2.
  assert (E : inject_Z original == inject_Z scaled * scale).
  { unfold scale. field. lra. }
  assert (Hprod : 0 <= (inject_Z scaled - (inject_Z cx + inject_Z cw)) * scale).
  { apply Qmult_le_0_compat; lra. }
  rewrite Zle_Qle, inject_Z_plus. lra.
Qed.

(** [int] of two equal numbers that are not negative. *)
Lemma py_int_eq (x y : Q) : 0 <= x -> x == y -> Py.int x = Py.int y.
Proof.
  intros H E. rewrite !py_int_floor by lra. now apply Qfloor_comp.
Qed.

Lemma py_min_comm (x y : Q) : Py.min x y == Py.min y x.
Proof. rewrite !py_min_Qmin. qminmax; lra. Qed.

Lemma py_min_nonneg (x y : Q) : 0 <= x -> 0 <= y -> 0 <= Py.min x y.
Proof. intros. rewrite py_min_Qmin. qminmax; lra. Qed.

(** X14.  When the scaled pixmap has a width and a height, the crop
    rectangle [_update_display] stores lies inside the original image: its
    corner and its extent are not negative, and corner plus extent is at most
    the width, respectively the height, of the image, wherever the two
    points of the selection are. *)
Theorem X14_crop_rect_inside_image :
  forall v : CropView,
    (0 < scaled_width v)%Z -> (0 < scaled_height v)%Z ->
    (0 <= pixmap_width v)%Z -> (0 <= pixmap_height v)%Z ->
    exists x y w h,
      update_crop_rect v = Some (x, y, w, h)
      /\ (0 <= x /\ 0 <= w /\ x + w <= pixmap_width v)%Z
      /\ (0 <= y /\ 0 <= h /\ y + h <= pixmap_height v)%Z.
Proof.
  intros v Hsw Hsh Hpw Hph. unfold update_crop_rect.
  assert (E1 : (scaled_width v =? 0)%Z = false) by (apply Z.eqb_neq; lia).
  assert (E2 : (scaled_height v =? 0)%Z = false) by (apply Z.eqb_neq; lia).
  rewrite E1, E2. cbv zeta. cbn [orb].
  do 4 eexists. split; [reflexivity|].
  assert (HW : 0 <= inject_Z (scaled_width v)) by (apply inject_Z_nonneg; lia).
  assert (HH : 0 <= inject_Z (scaled_height v)) by (apply inject_Z_nonneg; lia).
  split.
  - apply crop_axis_bounds; auto; now apply clamp_range.
  - apply crop_axis_bounds; auto; now apply clamp_range.
Qed.

Lemma X14_witness :
  exists x y w h,
    update_crop_rect crop_view_example = Some (x, y, w, h)
    /\ (0 <= x /\ 0 <= w /\ x + w <= 1920)%Z
    /\ (0 <= y /\ 0 <= h /\ y + h <= 1080)%Z.
Proof.
  apply (X14_crop_rect_inside_image crop_view_example); simpl; lia.
Defined.

(** X15.  The crop rectangle does not depend on the direction of the
    drag: exchanging the two points of the selection gives the same
    rectangle. *)
Theorem X15_crop_rect_symmetric :
  forall v : CropView, update_crop_rect (dragged_back v) = update_crop_rect v.
Proof.
  intro v. unfold update_crop_rect, dragged_back.
  cbn [scaled_width scaled_height pixmap_width pixmap_height label_width
       label_height crop_start crop_end].
  destruct ((scaled_width v =? 0)%Z || (scaled_height v =? 0)%Z) eqn:G;
    [reflexivity|].
  cbv zeta. f_equal.
  set (x_offset := inject_Z (label_width v - scaled_width v) / 2).
  set (y_offset := inject_Z (label_height v - scaled_height v) / 2).
  set (sx := Py.max 0 (Py.min (inject_Z (fst (crop_start v)) - x_offset)
                         (inject_Z (scaled_width v)))).
  set (ex := Py.max 0 (Py.min (inject_Z (fst (crop_end v)) - x_offset)
                         (inject_Z (scaled_width v)))).
  set (sy := Py.max 0 (Py.min (inject_Z (snd (crop_start v)) - y_offset)
                         (inject_Z (scaled_height v)))).
  set (ey := Py.max 0 (Py.min (inject_Z (snd (crop_end v)) - y_offset)
                         (inject_Z (scaled_height v)))).
  assert (P : forall a b, 0 <= Py.max 0 (Py.min a b)).
  { intros a b. rewrite py_max_Qmax.
    destruct (Qmax_cases 0 (Py.min a b)) as [[K ->]|[K ->]]; lra. }
  rewrite (py_int_eq (Py.min ex sx) (Py.min sx ex)),
          (py_int_eq (Py.min ey sy) (Py.min sy ey)),
          (Qabs_Qminus sx ex), (Qabs_Qminus sy ey);
    try apply py_min_comm; try (apply py_min_nonneg; apply P).
  reflexivity.
Qed.

(** *** Playback *)

Lemma py_index_nat {A} (l : list A) (j : nat) :
  py_index l (Z.of_nat j) = nth_error l j.
Proof.
  unfold py_index.
  assert (H : (0 <=? Z.of_nat j)%Z = true) by (apply Z.leb_le; lia).
  now rewrite H, Nat2Z.id.
Qed.

Lemma timeouts_cycle (frames : list Frame) (k : nat) :
  frames <> [] ->
  forall (p : Playback) (j : nat),
    preview_frames p = frames ->
    current_preview_index p = Z.of_nat j ->
    (j < length frames)%nat ->
    exists shown p',
      timeouts k p = Some (shown, p')
      /\ length shown = k
      /\ (forall i, (i < k)%nat ->
            nth_error shown i = nth_error frames ((j + i) mod length frames))
      /\ preview_frames p' = frames
      /\ current_preview_index p' = Z.of_nat ((j + k) mod length frames)
      /\ timer_interval p' = timer_interval p.
Proof.
  intro Hne. induction k as [|k IH]; intros p j Hf Hi Hj.
  - exists [], p. simpl. repeat split; auto.
    + intros i H. lia.
    + rewrite Nat.add_0_r, Nat.mod_small by assumption. assumption.
  - simpl. unfold show_next_preview_frame. rewrite Hf, Hi.
    destruct frames as [|f0 fs] eqn:F; [contradiction|]. rewrite <- F in *.
    rewrite py_index_nat.
    destruct (nth_error frames j) as [frame|] eqn:N;
      [|apply nth_error_None in N; lia].
    set (n := length frames) in *.
    assert (Hn : (0 < n)%nat) by lia.
    set (p1 := mkPlayback frames ((Z.of_nat j + 1) mod Z.of_nat n)%Z
                 (timer_interval p)).
    destruct (IH p1 ((j + 1) mod n)%nat) as (rest & p' & E & Hl & Hs & Hf' & Hi' & Ht).
    + reflexivity.
    + unfold p1. simpl. rewrite Nat2Z.inj_mod, Nat2Z.inj_add. reflexivity.
    + apply Nat.mod_upper_bound. lia.
    + rewrite E. exists (frame :: rest), p'. split; [reflexivity|].
      split; [simpl; lia|]. split; [|split; [assumption|split]].
      * intros [|i] H.
        -- simpl. rewrite Nat.add_0_r, Nat.mod_small by assumption.
           now rewrite N.
        -- simpl. rewrite Hs by lia.
           rewrite Nat.Div0.add_mod_idemp_l. f_equal. f_equal. lia.
      * rewrite Hi'. rewrite Nat.Div0.add_mod_idemp_l. f_equal. f_equal. lia.
      * rewrite Ht. reflexivity.
Qed.

(** X16.  After [play_preview] with frames, the timer shows the frames in
    order and starts again at the first after the last: timeout number [i]
    shows frame [i mod len(frames)], and no timeout raises an [IndexError].
    This holds also when the division [1000 / fps] raised, since the frames
    and the index are set before it. *)
Theorem X16_playback_cycles_through_frames :
  forall (p : Playback) (frames : list Frame) (fps : Q) (k : nat),
    frames <> [] ->
    exists shown p',
      timeouts k (fst (play_preview p frames fps)) = Some (shown, p')
      /\ length shown = k
      /\ (forall i, (i < k)%nat ->
            nth_error shown i = nth_error frames (i mod length frames))
      /\ preview_frames p' = frames
      /\ current_preview_index p' = Z.of_nat (k mod length frames).
Proof.
  intros p frames fps k Hne.
  destruct (timeouts_cycle frames k Hne (fst (play_preview p frames fps)) 0)
    as (shown & p' & E & Hl & Hs & Hf & Hi & _).
  - unfold play_preview. destruct frames; [contradiction|].
    destruct (Qeq_bool fps 0); reflexivity.
  - unfold play_preview. destruct frames; [contradiction|].
    destruct (Qeq_bool fps 0); reflexivity.
  - destruct frames; [contradiction|]. simpl. lia.
  - exists shown, p'. repeat split; auto.
Qed.

Lemma X16_witness :
  exists shown p',
    timeouts 5 (fst (play_preview playback_init
                       [mkFrame 360 640 3 0; mkFrame 360 640 3 1] 8))
    = Some (shown, p')
    /\ length shown = 5%nat
    /\ (forall i, (i < 5)%nat ->
          nth_error shown i
          = nth_error [mkFrame 360 640 3 0; mkFrame 360 640 3 1]
              (i mod length [mkFrame 360 640 3 0; mkFrame 360 640 3 1]))
    /\ preview_frames p' = [mkFrame 360 640 3 0; mkFrame 360 640 3 1]
    /\ current_preview_index p'
       = Z.of_nat (5 mod length [mkFrame 360 640 3 0; mkFrame 360 640 3 1]).
Proof.
  apply (X16_playback_cycles_through_frames playback_init
           [mkFrame 360 640 3 0; mkFrame 360 640 3 1] 8 5).
  discriminate.
Defined.

(** ** Properties of the recent files and of the presets *)

Lemma pop_while_longer_firstn (turns : nat) :
  forall l, (length l <= turns)%nat ->
            pop_while_longer turns l = firstn max_recent_files l.
Proof.
  induction turns as [|n IH]; intros l Hl; cbn [pop_while_longer].
  - destruct l; [reflexivity|simpl in Hl; lia].
  - destruct (max_recent_files <? length l)%nat eqn:E.
    + apply Nat.ltb_lt in E.
      rewrite IH.
      * rewrite removelast_firstn_len, firstn_firstn.
        replace (Nat.min max_recent_files (Nat.pred (length l)))
          with max_recent_files by lia.
        reflexivity.
      * rewrite removelast_firstn_len, length_firstn. lia.
    + apply Nat.ltb_ge in E. now rewrite firstn_all2.
Qed.

Lemma list_remove_In (x y : String.string) (l : list String.string) :
  In y (list_remove x l) -> In y l.
Proof.
  induction l as [|z l IH]; simpl; [auto|].
  destruct (String.eqb z x); simpl; intuition.
Qed.

Lemma list_remove_NoDup (x : String.string) (l : list String.string) :
  NoDup l -> NoDup (list_remove x l) /\ ~ In x (list_remove x l).
Proof.
  induction 1 as [|z l Hz Hl IH]; simpl.
  - split; [constructor | auto].
  - destruct (String.eqb_spec z x) as [->|Hne].
    + split; assumption.
    + destruct IH as [IH1 IH2]. split.
      * constructor; [|assumption]. intro H. apply Hz.
        now apply list_remove_In in H.
      * simpl. intros [H|H]; [contradiction|]. now apply IH2.
Qed.

Lemma firstn_In {A} (n : nat) :
  forall (l : list A) (x : A), In x (firstn n l) -> In x l.
Proof.
  induction n as [|n IH]; intros [|y l] x H; simpl in *; try contradiction.
  destruct H as [H|H]; auto.
Qed.

Lemma firstn_NoDup {A} (n : nat) (l : list A) : NoDup l -> NoDup (firstn n l).
Proof.
  revert l. induction n as [|n IH]; intros l H; simpl; [constructor|].
  destruct l as [|x l]; [constructor|].
  inversion H as [|? ? Hx Hl]; subst. constructor; [|auto].
  intro K. apply Hx. eapply firstn_In; eauto.
Qed.

Lemma existsb_eqb_In (x : String.string) (l : list String.string) :
  existsb (String.eqb x) l = true <-> In x l.
Proof.
  rewrite existsb_exists. split.
  - intros (y & Hy & E). apply String.eqb_eq in E. now subst.
  - intro H. exists x. split; [assumption|apply String.eqb_refl].
Qed.

(** X17.  [add_recent_file] puts the file first, keeps at most five
    entries, adds no other name, and keeps a list without duplicates free
    of duplicates. *)
Theorem X17_recent_files_most_recent_first :
  forall (recent_files : list String.string) (file_path : String.string),
    hd_error (add_recent_file recent_files file_path) = Some file_path
    /\ (length (add_recent_file recent_files file_path) <= 5)%nat
    /\ (forall x, In x (add_recent_file recent_files file_path) ->
                  x = file_path \/ In x recent_files)
    /\ (NoDup recent_files -> NoDup (add_recent_file recent_files file_path)).
Proof.
  intros recent f. unfold add_recent_file.
  set (rest := if existsb (String.eqb f) recent
               then list_remove f recent else recent).
  rewrite pop_while_longer_firstn by reflexivity.
  assert (Hin : forall x, In x rest -> In x recent).
  { intros x. unfold rest. destruct (existsb _ _); [apply list_remove_In|auto]. }
  split; [reflexivity|]. split.
  { rewrite length_firstn. unfold max_recent_files. lia. }
  split.
  - intros x H. apply firstn_In in H. destruct H as [H|H]; auto.
  - intro Hnd. apply firstn_NoDup. unfold rest.
    destruct (existsb (String.eqb f) recent) eqn:E.
    + destruct (list_remove_NoDup f recent Hnd). now constructor.
    + constructor; [|assumption]. intro H.
      apply existsb_eqb_In in H. congruence.
Qed.

Lemma X17_witness :
  hd_error (add_recent_file recent_example "d.mp4"%string) = Some "d.mp4"%string
  /\ (length (add_recent_file recent_example "d.mp4"%string) <= 5)%nat
  /\ (forall x, In x (add_recent_file recent_example "d.mp4"%string) ->
                x = "d.mp4"%string \/ In x recent_example)
  /\ NoDup (add_recent_file recent_example "d.mp4"%string).
Proof.
  destruct (X17_recent_files_most_recent_first recent_example "d.mp4"%string)
    as (H1 & H2 & H3 & H4).
  repeat split; auto. apply H4.
  unfold recent_example. repeat constructor; simpl; intuition discriminate.
Defined.

Lemma apply_from_app (ps qs : list Preset) (name : String.string) :
  apply_from (ps ++ qs) name
  = if has_preset ps name then apply_from ps name else apply_from qs name.
Proof.
  induction ps as [|p ps IH]; simpl; [reflexivity|].
  destruct (String.eqb (preset_name p) name); simpl; auto.
Qed.

(** X18.  Applying a preset right after saving it under a name other than
    "Custom" sets the saved values only when no earlier preset has that
    name: [save_preset] appends and [apply_preset] takes the first match, so
    an earlier preset of the same name is the one applied. *)
Theorem X18_saved_preset_applied_unless_shadowed :
  forall (presets : list Preset) (name : String.string) (fps quality : Z)
         (resolution : String.string) (speed : Z),
    name <> "Custom"%string ->
    apply_preset (save_preset presets name fps quality resolution speed) name
    = if has_preset presets name then apply_preset presets name
      else apply_one (mkPreset name fps quality resolution (Some speed)).
Proof.
  intros presets name fps quality resolution speed Hc.
  unfold apply_preset, save_preset.
  destruct (String.eqb_spec name "Custom"%string) as [E|_]; [contradiction|].
  rewrite apply_from_app. simpl.
  now rewrite String.eqb_refl.
Qed.

Lemma X18_witness :
  apply_preset (save_preset default_presets "Balanced"%string 50 10 "240p"%string 400)
    "Balanced"%string
  = if has_preset default_presets "Balanced"%string
    then apply_preset default_presets "Balanced"%string
    else apply_one (mkPreset "Balanced"%string 50 10 "240p"%string (Some 400%Z)).
Proof.
  apply (X18_saved_preset_applied_unless_shadowed default_presets
           "Balanced"%string 50 10 "240p"%string 400).
  discriminate.
Defined.

Lemma apply_from_absent (presets : list Preset) (name : String.string) :
  has_preset presets name = false -> apply_from presets name = [].
Proof.
  induction presets as [|p ps IH]; simpl; [reflexivity|].
  destruct (String.eqb (preset_name p) name); simpl; [discriminate|auto].
Qed.

(** X19.  After [delete_preset] no preset has the deleted name, so
    applying that name sets nothing; the presets of every other name are
    applied as before. *)
Theorem X19_delete_preset_removes_the_name_only :
  forall (presets : list Preset) (name : String.string),
    has_preset (delete_preset presets name) name = false
    /\ apply_preset (delete_preset presets name) name = []
    /\ (forall other : String.string,
           other <> name ->
           apply_preset (delete_preset presets name) other
           = apply_preset presets other).
Proof.
  intros presets name.
  assert (H : has_preset (delete_preset presets name) name = false).
  { unfold has_preset, delete_preset.
    induction presets as [|p ps IH]; simpl; [reflexivity|].
    destruct (String.eqb (preset_name p) name) eqn:E; simpl; [assumption|].
    now rewrite E. }
  split; [exact H|]. split.
  - unfold apply_preset. destruct (String.eqb name "Custom"%string);
      [reflexivity|]. now apply apply_from_absent.
  - intros other Hne. unfold apply_preset.
    destruct (String.eqb other "Custom"%string); [reflexivity|].
    unfold delete_preset.
    induction presets as [|p ps IH]; simpl; [reflexivity|].
    + destruct (String.eqb_spec (preset_name p) name) as [E|E]; simpl.
      * destruct (String.eqb_spec (preset_name p) other) as [E'|E'];
          [congruence|].
        apply IH. clear IH.
        unfold has_preset, delete_preset in *. simpl in H.
        destruct (String.eqb_spec (preset_name p) name); [exact H|contradiction].
      * destruct (String.eqb (preset_name p) other); [reflexivity|].
        apply IH. clear IH.
        unfold has_preset, delete_preset in *. simpl in H.
        destruct (String.eqb_spec (preset_name p) name); [contradiction|].
        simpl in H. destruct (String.eqb_spec (preset_name p) name);
          [contradiction|exact H].
Qed.

Lemma X19_witness :
  apply_preset (delete_preset default_presets "Balanced"%string) "Compressed"%string
  = apply_preset default_presets "Compressed"%string.
Proof.
  destruct (X19_delete_preset_removes_the_name_only default_presets "Balanced"%string)
    as (_ & _ & H).
  apply H. discriminate.
Defined.

Lemma load_presets_speed (stored : list Preset) :
  Forall (fun p => preset_speed p <> None) (load_presets stored).
Proof.
  unfold load_presets. apply Forall_forall. intros p H.
  apply in_map_iff in H. destruct H as (q & <- & _).
  destruct (preset_speed q) eqn:E; simpl; [rewrite E|]; discriminate.
Qed.

Lemma apply_from_sets_speed (presets : list Preset) (name : String.string) :
  Forall (fun p => preset_speed p <> None) presets ->
  has_preset presets name = true ->
  exists calls speed, apply_from presets name = calls ++ [SetSpeed speed].
Proof.
  induction 1 as [|p ps Hp _ IH]; simpl; [discriminate|].
  destruct (String.eqb (preset_name p) name); simpl; [intros _|exact IH].
  unfold apply_one. destruct (preset_speed p) as [speed|]; [|contradiction].
  eexists. exists speed. rewrite app_assoc. reflexivity.
Qed.

(** X22.  [_load_presets] never returns an empty list and gives every
    preset a speed, so applying a loaded preset always ends by setting the
    speed slider: the test ["speed" in preset] of [apply_preset] cannot fail
    on them. *)
Theorem X22_loaded_presets_set_the_speed :
  forall (stored : list Preset) (name : String.string),
    load_presets stored <> []
    /\ (name <> "Custom"%string ->
        has_preset (load_presets stored) name = true ->
        exists calls speed,
          apply_preset (load_presets stored) name = calls ++ [SetSpeed speed]).
Proof.
  intros stored name. split.
  - unfold load_presets. destruct stored; discriminate.
  - intros Hc Hp. unfold apply_preset.
    destruct (String.eqb_spec name "Custom"%string) as [E|_]; [contradiction|].
    apply apply_from_sets_speed; [apply load_presets_speed | assumption].
Qed.

Lemma X22_witness :
  exists calls speed,
    apply_preset
      (load_presets [mkPreset "Old"%string 12 80 "360p"%string None])
      "Old"%string
    = calls ++ [SetSpeed speed].
Proof.
  destruct (X22_loaded_presets_set_the_speed
              [mkPreset "Old"%string 12 80 "360p"%string None] "Old"%string)
    as [_ H].
  apply H; [discriminate | reflexivity].
Defined.

(** ** Properties of [MainWindow.generate_preview] *)

Lemma adjusted_fps_range (fps speed : Z) :
  (1 <= fps <= 60)%Z -> (25 <= speed <= 400)%Z ->
  (1 # 4) <= inject_Z fps * (inject_Z speed / 100)
  /\ inject_Z fps * (inject_Z speed / 100) <= 240.
Proof.
  intros [F1 F2] [S1 S2].
  rewrite Zle_Qle in F1, F2, S1, S2.
  set (f := inject_Z fps) in *. set (s := inject_Z speed) in *.
  change (inject_Z 1) with 1 in F1. change (inject_Z 60) with 60 in F2.
  change (inject_Z 25) with 25 in S1. change (inject_Z 400) with 400 in S2.
  assert (E : f * (s / 100) == f * s / 100) by (field; lra).
  rewrite E. split.
  - apply Qle_shift_div_l; [lra|]. nra.
  - apply Qle_shift_div_r; [lra|]. nra.
Qed.

Lemma interval_range (x : Q) :
  (1 # 4) <= x -> x <= 240 -> (4 <= Py.int (1000 / x) <= 4000)%Z.
Proof.
  intros H1 H2.
  assert (L : 4 <= 1000 / x) by (apply Qle_shift_div_l; lra).
  assert (U : 1000 / x <= 4000) by (apply Qle_shift_div_r; lra).
  rewrite py_int_floor by lra. split.
  - change 4%Z with (Qfloor 4). now apply Qfloor_resp_le.
  - change 4000%Z with (Qfloor 4000). now apply Qfloor_resp_le.
Qed.

Lemma preview_and_play_plays (C : Collaborators) (self : VideoProcessor)
    (a : PreviewArgs) (p : Playback) :
  cap_opened self = true ->
  0 < pv_speed_factor a ->
  (1 # 4) <= pv_fps a * pv_speed_factor a ->
  pv_fps a * pv_speed_factor a <= 240 ->
  (forall frame w h, cv2_resize C frame w h <> None) ->
  exists turns report p',
    preview_and_play C self a p turns = Some (report, p')
    /\ report <> ErrorBox
    /\ (forall frames fps,
           report = Played frames fps ->
           frames <> []
           /\ fps = pv_fps a * pv_speed_factor a
           /\ preview_frames p' = frames
           /\ exists interval,
                timer_interval p' = Some interval
                /\ (4 <= interval <= 4000)%Z).
Proof.
  intros Ho Hs H1 H2 HR.
  destruct (generate_preview_returns C self a Ho Hs HR) as (turns & frames & E).
  exists turns. unfold preview_and_play. rewrite E. cbn [unpack_two].
  destruct frames as [|frame frames].
  - exists FailedToGenerate, p. split; [reflexivity|].
    split; [discriminate|]. intros ? ? [=].
  - assert (Z0 : Qeq_bool (pv_fps a * pv_speed_factor a) 0 = false).
    { destruct (Qeq_bool _ 0) eqn:Q0; [|reflexivity].
      apply Qeq_bool_iff in Q0. lra. }
    unfold play_preview. rewrite Z0.
    eexists. eexists. split; [reflexivity|]. split; [discriminate|].
    intros fs fps [= <- <-]. split; [discriminate|].
    split; [reflexivity|]. split; [reflexivity|].
    eexists. split; [reflexivity|]. now apply interval_range.
Qed.

(** X20.  The preview handler of the window with a file: when the
    processor holds no open video, the call returns a bare list, the
    unpacking raises and the error box is shown (or no segment is left and
    nothing is called), nothing is played; when a video is open and the fps
    spin box and the speed slider are within their ranges (1 to 60, 25 to
    400), the preview ends without the error box, and what is played is a
    list of at least one frame at fps * speed / 100, with a timer interval
    between 4 and 4000 ms. *)
Theorem X20_window_preview_plays_or_reports :
  forall (C : Collaborators) (self : VideoProcessor) (c : PreviewControls)
         (p : Playback),
    pc_current_file c = true ->
    (cap_opened self = false ->
     forall turns,
       window_generate_preview C self c p turns = Some (ErrorBox, p)
       \/ window_generate_preview C self c p turns = Some (NoValidSegments, p))
    /\ (cap_opened self = true ->
        controls_in_range c ->
        (forall frame w h, cv2_resize C frame w h <> None) ->
        exists turns report p',
          window_generate_preview C self c p turns = Some (report, p')
          /\ report <> ErrorBox
          /\ (forall frames fps,
                 report = Played frames fps ->
                 frames <> []
                 /\ fps = inject_Z (pc_fps_spin c)
                          * (inject_Z (pc_speed_slider c) / 100)
                 /\ preview_frames p' = frames
                 /\ exists interval,
                      timer_interval p' = Some interval
                      /\ (4 <= interval <= 4000)%Z)).
Proof.
  intros C self c p Hfile. unfold window_generate_preview. rewrite Hfile.
  cbn [negb]. split.
  - intros Hclosed turns.
    assert (K : forall a,
               preview_and_play C self a p turns = Some (ErrorBox, p)).
    { intro a. unfold preview_and_play.
      now rewrite generate_preview_not_loaded. }
    destruct (pc_excluded_segments c); [left; apply K|].
    destruct (get_effective_segments (pc_timeline c));
      [right; reflexivity | left; apply K].
  - intros Hopen [Hf Hsp] HR.
    destruct (adjusted_fps_range _ _ Hf Hsp) as [A1 A2].
    assert (Hspeed : 0 < inject_Z (pc_speed_slider c) / 100).
    { apply Qlt_shift_div_l; [lra|]. rewrite Qmult_0_l.
      change 0 with (inject_Z 0). rewrite <- Zlt_Qlt. lia. }
    assert (K : forall segments,
               exists turns report p',
                 preview_and_play C self (preview_args c segments) p turns
                 = Some (report, p')
                 /\ report <> ErrorBox
                 /\ (forall frames fps,
                        report = Played frames fps ->
                        frames <> []
                        /\ fps = inject_Z (pc_fps_spin c)
                                 * (inject_Z (pc_speed_slider c) / 100)
                        /\ preview_frames p' = frames
                        /\ exists interval,
                             timer_interval p' = Some interval
                             /\ (4 <= interval <= 4000)%Z)).
    { intro segments.
      apply (preview_and_play_plays C self (preview_args c segments) p);
        auto. }
    destruct (pc_excluded_segments c); [apply K|].
    destruct (get_effective_segments (pc_timeline c)) as [|seg segs]; [|apply K].
    exists 0%nat, NoValidSegments, p. split; [reflexivity|].
    split; [discriminate|]. intros ? ? [=].
Qed.

Lemma X20_witness :
  exists turns report p',
    window_generate_preview steady loaded window_previewing playback_init turns
    = Some (report, p')
    /\ report <> ErrorBox
    /\ (forall frames fps,
           report = Played frames fps ->
           frames <> []
           /\ fps = inject_Z (pc_fps_spin window_previewing)
                    * (inject_Z (pc_speed_slider window_previewing) / 100)
           /\ preview_frames p' = frames
           /\ exists interval,
                timer_interval p' = Some interval
                /\ (4 <= interval <= 4000)%Z).
Proof.
  destruct (X20_window_preview_plays_or_reports steady loaded
              window_previewing playback_init) as [_ H].
  - reflexivity.
  - apply H.
    + reflexivity.
    + unfold controls_in_range. simpl. lia.
    + discriminate.
Defined.

Lemma preview_and_play_played (C : Collaborators) (self : VideoProcessor)
    (a : PreviewArgs) (p p' : Playback) (turns : nat)
    (frames : list Frame) (fps : Q) :
  preview_and_play C self a p turns = Some (Played frames fps, p') ->
  frames <> [] /\ preview_frames p' = frames
  /\ fps = pv_fps a * pv_speed_factor a.
Proof.
  unfold preview_and_play.
  destruct (generate_preview C self a turns) as [[e|value]|] eqn:E;
    try discriminate.
  destruct (cap_opened self) eqn:O.
  - destruct (generate_preview_pair C self a turns value O E) as [fs ->].
    cbn [unpack_two]. destruct fs as [|f fs]; [discriminate|].
    unfold play_preview.
    destruct (Qeq_bool (pv_fps a * pv_speed_factor a) 0); [discriminate|].
    intros [= <- <- <-]. split; [discriminate|]. split; reflexivity.
  - rewrite generate_preview_not_loaded in E by assumption.
    injection E as <-. discriminate.
Qed.

(** X21.  What [save_file] saves after a preview is what was played: when
    the preview handler played frames at some fps and the controls are
    unchanged, [save_file] hands the same frames to the encoder with the same
    fps. *)
Theorem X21_save_file_saves_what_was_played :
  forall (C : Collaborators) (self : VideoProcessor) (c : PreviewControls)
         (p p' : Playback) (turns : nat) (frames : list Frame) (fps : Q)
         (loop : bool),
    window_generate_preview C self c p turns = Some (Played frames fps, p') ->
    save_file
      (mkSaveInputs (pc_current_file c) (preview_frames p') true
         (pc_fps_spin c) (pc_speed_slider c) (pc_quality_slider c) loop)
    = [Mimsave frames fps
         (quantizer_of (inject_Z (pc_quality_slider c) / 100))
         (loop_param loop)].
Proof.
  intros C self c p p' turns frames fps loop.
  unfold window_generate_preview.
  destruct (pc_current_file c) eqn:F; cbn [negb]; [|discriminate].
  intro H.
  assert (K : frames <> [] /\ preview_frames p' = frames
              /\ fps = inject_Z (pc_fps_spin c)
                       * (inject_Z (pc_speed_slider c) / 100)).
  { destruct (pc_excluded_segments c).
    - now apply preview_and_play_played in H.
    - destruct (get_effective_segments (pc_timeline c)); [discriminate|].
      now apply preview_and_play_played in H. }
  destruct K as (Hne & -> & ->).
  unfold save_file. cbn [current_file preview_frames_shown dialog_accepted
                         fps_spin speed_slider quality_slider loop_checkbox negb].
  destruct frames; [contradiction|]. reflexivity.
Qed.

Lemma X21_witness :
  exists frames fps p',
    window_generate_preview steady loaded window_previewing playback_init 40
    = Some (Played frames fps, p')
    /\ save_file (mkSaveInputs true (preview_frames p') true 10 200 90 true)
       = [Mimsave frames fps (quantizer_of (inject_Z 90 / 100))
            (loop_param true)].
Proof.
  do 3 eexists. split.
  - vm_compute. reflexivity.
  - apply (X21_save_file_saves_what_was_played steady loaded
             window_previewing playback_init _ 40).
    vm_compute. reflexivity.
Defined.
